(** * search_SeisSol_ensemble: a shallow embedding of
      [search_ensemble_for_bestfit_model.py]

    Conventions of the embedding.

    - A waveform sample is an IEEE 754 binary64 number, the primitive type
      [float] of the Standard Library: the subtraction, the product, the
      addition, the division and the square root of NumPy's float64 are
      its operations, rounded to nearest-even, with signed zeros,
      infinities and NaN.  What is proved of them rests on the library's
      specification [Prim2SF] of the operations on [spec_float].
    - The order in which SciPy and NumPy add more than two numbers is not
      fixed by their interface ([scipy.signal.correlate] chooses between a
      direct and an FFT method, [np.sum] adds pairwise in blocks).  The
      correlation at an offset and the sum of an array are therefore the
      variables [correlate_lag] and [np_sum] of the sections on the misfit
      engine; theorems state what they need of them, and [direct_lag] and
      [sequential_sum] are the instances that add from left to right.
    - A 1-D array is a [list float], a 2-D array a list of rows, a 3-D
      array a list of 2-D arrays.  NumPy arrays are rectangular; the
      theorems state the shape they need.
    - A Python exception is a value [Raise e] of the type [result].
    - The file system and the external readers ([os.listdir],
      [np.loadtxt]'s parsing, [seissolxdmf]) are the variables of the
      section [FileSystem]. *)

From Stdlib Require Import String Ascii.
From Stdlib Require Import List ZArith QArith Lia Bool.
From Stdlib Require Import Floats.
From Stdlib Require Import Sorting.Sorted Sorting.Permutation.
Import ListNotations.

Close Scope Q_scope.
Open Scope float_scope.

(* ================================================================= *)
(** ** Exceptions *)

Inductive exn : Type :=
| ValueError
| IndexError
| OSError.

Inductive result (A : Type) : Type :=
| Ok (a : A)
| Raise (e : exn).

Arguments Ok {A} a.
Arguments Raise {A} e.

Definition bind {A B : Type} (c : result A) (k : A -> result B) : result B :=
  match c with
  | Ok a => k a
  | Raise e => Raise e
  end.

Notation "x <- c ;; k" := (bind c (fun x => k))
  (at level 61, c at next level, right associativity).

(** [for x in xs: s = body(x, s)] with an exception leaving the loop. *)
Fixpoint for_each {X St : Type} (xs : list X) (body : X -> St -> result St)
  (s : St) : result St :=
  match xs with
  | [] => Ok s
  | x :: xs' => s' <- body x s ;; for_each xs' body s'
  end.

(** [range(n)] *)
Definition range (n : nat) : list nat := seq 0 n.

(* ================================================================= *)
(** ** float64 *)

(** The order key of a number that is not NaN: its class, then its
    exponent and mantissa with the sign applied.  [SFcompare] is the
    lexicographic order of the keys. *)
Definition SFkey (x : spec_float) : Z * (Z * Z) :=
  match x with
  | S754_nan => (0, (0, 0))%Z
  | S754_infinity true => (-2, (0, 0))%Z
  | S754_finite true m e => (-1, (- e, Z.neg m))%Z
  | S754_zero _ => (0, (0, 0))%Z
  | S754_finite false m e => (1, (e, Z.pos m))%Z
  | S754_infinity false => (2, (0, 0))%Z
  end.

Definition key_lt (a b : Z * (Z * Z)) : Prop :=
  (fst a < fst b \/
   (fst a = fst b /\
    (fst (snd a) < fst (snd b) \/
     (fst (snd a) = fst (snd b) /\ snd (snd a) < snd (snd b)))))%Z.

Definition key_le (a b : Z * (Z * Z)) : Prop := key_lt a b \/ a = b.

(** [x] is a number (not NaN) with the sign bit [s]. *)
Definition SFsigned (s : bool) (x : spec_float) : Prop :=
  match x with
  | S754_zero s' | S754_infinity s' | S754_finite s' _ _ => s' = s
  | S754_nan => False
  end.

(** [x] is a number that is not below zero. *)
Definition SFnonneg (x : spec_float) : Prop :=
  match x with
  | S754_zero _ | S754_infinity false | S754_finite false _ _ => True
  | _ => False
  end.

(** [x] is zero or a finite number. *)
Definition SFfinite (x : spec_float) : Prop :=
  match x with
  | S754_zero _ | S754_finite _ _ _ => True
  | _ => False
  end.

(** [float(n)] for the count [n] of an array axis, rounded to nearest;
    NumPy's index type holds counts up to [2^63 - 1]. *)
Definition float_of_nat (n : nat) : float :=
  of_uint63 (Uint63.of_Z (Z.min (Z.of_nat n) (2 ^ 63 - 1))).

(* ================================================================= *)
(** ** NumPy and SciPy primitives on 1-D arrays *)

(** [a - b] with broadcasting of 1-D operands. *)
Fixpoint zip_sub (a b : list float) : list float :=
  match a, b with
  | x :: a', y :: b' => (x - y) :: zip_sub a' b'
  | _, _ => []
  end.

Definition np_subtract (a b : list float) : result (list float) :=
  if (length a =? length b)%nat then Ok (zip_sub a b)
  else if (length b =? 1)%nat then Ok (map (fun x => x - nth 0 b 0) a)
  else if (length a =? 1)%nat then Ok (map (fun y => nth 0 a 0 - y) b)
  else Raise ValueError.

(** [a ** 2]: NumPy squares by one product per element. *)
Definition np_square (a : list float) : list float := map (fun x => x * x) a.

(** [np.argmax]: the index of the first occurrence of the maximum, the
    first NaN counting as the maximum.  NumPy keeps the best element so
    far and replaces it by an element [x] when [x <= best] is false. *)
Fixpoint argmax_from (best_i : nat) (best : float) (i : nat) (l : list float)
  : nat :=
  match l with
  | [] => best_i
  | x :: l' =>
      if x <=? best then argmax_from best_i best (S i) l'
      else if is_nan x then i
      else argmax_from i x (S i) l'
  end.

Definition np_argmax (l : list float) : result nat :=
  match l with
  | [] => Raise ValueError
  | x :: l' => if is_nan x then Ok O else Ok (argmax_from 0 x 1 l')
  end.

(** [a[start:stop]] for non-negative [start] and [stop]. *)
Definition py_slice {A : Type} (a : list A) (start stop : nat) : list A :=
  firstn (stop - start) (skipn start a).

(** [a[i]] on the first axis, [a[i, j]] on the first two. *)
Definition index1 {A : Type} (a : list A) (i : nat) : result A :=
  match nth_error a i with
  | Some x => Ok x
  | None => Raise IndexError
  end.

Definition index2 {A : Type} (a : list (list A)) (i j : nat) : result A :=
  row <- index1 a i ;; index1 row j.

(* ================================================================= *)
(** ** Alignment and misfit engine *)

Section Engine.

(** [correlate_lag big small k]: the float64 that
    [scipy.signal.correlate(big, small, mode="valid")] stores for the
    offset [k] of [small] inside [big], the rounded sum of the products
    [big[k + l] * small[l]]. *)
Variable correlate_lag : list float -> list float -> nat -> float.

(** [np.sum(a)]: the rounded sum of the elements of [a]. *)
Variable np_sum : list float -> float.

(** [big] slid over by [small]: one correlation per offset at which
    [small] lies entirely inside [big]. *)
Definition slide (big small : list float) : list float :=
  map (correlate_lag big small) (range (length big - length small + 1)).

(** [scipy.signal.correlate(in1, in2, mode="valid")] on real 1-D arrays:
    one number per offset that needs no zero padding.  When [in2] is the
    longer one SciPy swaps the operands and reverses the outcome.  An
    empty operand is refused with a [ValueError] by the convolution
    underneath (and the [np.argmax] that follows in the script raises the
    same on an array without elements). *)
Definition correlate_valid (in1 in2 : list float) : result (list float) :=
  match in1, in2 with
  | [], _ | _, [] => Raise ValueError
  | _, _ =>
      if (length in2 <=? length in1)%nat then Ok (slide in1 in2)
      else Ok (rev (slide in2 in1))
  end.

Definition correlate_and_shift_waveforms (obs_trace syn_trace : list float)
  : result (list float) :=
  c <- correlate_valid obs_trace syn_trace ;;
  start_ind <- np_argmax c ;;
  Ok (py_slice obs_trace start_ind (start_ind + length syn_trace)).

Definition calculate_rms_misfit (obs_trace syn_trace : list float)
  : result float :=
  d <- np_subtract obs_trace syn_trace ;;
  Ok (sqrt (np_sum (np_square d) / float_of_nat (length syn_trace))).

(** [misfit = 0] is the Python integer; [misfit += r] adds the float64 [r]
    to it as a float64. *)
Definition calculate_summed_model_misfit
  (obs_data syn_data : list (list (list float))) : result float :=
  for_each (range (length obs_data))
    (fun i misfit =>
       for_each (range 3)
         (fun j misfit =>
            syn_trace <- index2 syn_data i (j + 1) ;;
            obs_full <- index2 obs_data i (j + 1) ;;
            obs_trace <- correlate_and_shift_waveforms obs_full syn_trace ;;
            r <- calculate_rms_misfit obs_trace syn_trace ;;
            Ok (misfit + r))
         misfit)
    0.

End Engine.

(* ================================================================= *)
(** ** Python strings and lists of strings *)

Open Scope string_scope.
Open Scope list_scope.

(** [s.split(sep)] for a one-character separator: never empty, one more
    piece than there are separators. *)
Fixpoint split (sep : ascii) (s : string) : list string :=
  match s with
  | EmptyString => [EmptyString]
  | String c s' =>
      if Ascii.eqb c sep then EmptyString :: split sep s'
      else match split sep s' with
           | piece :: pieces => String c piece :: pieces
           | [] => [String c EmptyString]
           end
  end.

(** [pieces[-1]] of the outcome of a [split], which has a last piece. *)
Definition last_piece (pieces : list string) : string :=
  last pieces EmptyString.

(** [x in pieces] *)
Definition py_in (x : string) (pieces : list string) : bool :=
  existsb (String.eqb x) pieces.

(** [list.sort()] on strings: a stable sort under the code-point order. *)
Fixpoint insert_sorted (x : string) (l : list string) : list string :=
  match l with
  | [] => [x]
  | y :: l' => if String.leb x y then x :: l else y :: insert_sorted x l'
  end.

Definition list_sort (l : list string) : list string :=
  fold_right insert_sorted [] l.

(** [a[:stop]] for any integer [stop]. *)
Definition py_slice_to {A : Type} (a : list A) (stop : Z) : list A :=
  let n := Z.of_nat (length a) in
  let stop' := if (stop <? 0)%Z then Z.max 0 (n + stop) else Z.min stop n in
  firstn (Z.to_nat stop') a.

(* ================================================================= *)
(** ** Standard output and the IO monad of the script *)

Inductive message : Type :=
| DefectXdmf (file : string)
    (* the path, then "A defect surface.xdmf file was detected." *)
| ReadingFrom (dirs : list string)
| ObservationStations (n : nat)
| ObservationTimesteps (n : nat)
| SyntheticStations (n : nat)
| SyntheticTimesteps (n : nat).

Definition IO (A : Type) : Type := list message -> result A * list message.

Definition ret {A : Type} (a : A) : IO A := fun out => (Ok a, out).

Definition lift {A : Type} (c : result A) : IO A := fun out => (c, out).

Definition print (m : message) : IO unit := fun out => (Ok tt, out ++ [m]).

Definition bind_io {A B : Type} (c : IO A) (k : A -> IO B) : IO B :=
  fun out =>
    match c out with
    | (Ok a, out') => k a out'
    | (Raise e, out') => (Raise e, out')
    end.

Notation "x <~ c ;; k" := (bind_io c (fun x => k))
  (at level 61, c at next level, right associativity).

(** [try: c  except: handler], the bare [except] of the script. *)
Definition try_except {A : Type} (c : IO A) (handler : IO A) : IO A :=
  fun out =>
    match c out with
    | (Ok a, out') => (Ok a, out')
    | (Raise _, out') => handler out'
    end.

Fixpoint for_io {X St : Type} (xs : list X) (body : X -> St -> IO St)
  (s : St) : IO St :=
  match xs with
  | [] => ret s
  | x :: xs' => s' <~ body x s ;; for_io xs' body s'
  end.

(* ================================================================= *)
(** ** Receiver files, directories and the ensemble *)

(** What [np.loadtxt] hands back: with the default [ndmin] an axis of
    length one is squeezed away, so a file of one data row is 1-D. *)
Inductive ndarray : Type :=
| Arr1 (v : list float)
| Arr2 (rows : list (list float)).

Definition usecols : list nat := [0%nat; 7%nat; 8%nat; 9%nat].

(** The columns [usecols] of one parsed row; a row that is too short is
    refused. *)
Definition pick_columns (row : list float) : result (list float) :=
  for_each usecols
    (fun c picked => x <- match nth_error row c with
                          | Some x => Ok x
                          | None => Raise ValueError
                          end ;;
                     Ok (picked ++ [x]))
    [].

Definition squeeze (table : list (list float)) : ndarray :=
  match table with
  | [row] => Arr1 row
  | _ => Arr2 table
  end.

(** [a.T] of an array of shape [(N, 4)], or of a 1-D array. *)
Definition transpose (a : ndarray) : ndarray :=
  match a with
  | Arr1 v => Arr1 v
  | Arr2 rows =>
      Arr2 (map (fun j => map (fun row => nth j row 0%float) rows)
                (range (length usecols)))
  end.

(** [a[:, :stop]] *)
Definition slice_columns_to (a : ndarray) (stop : Z) : result (list (list float)) :=
  match a with
  | Arr1 _ => Raise IndexError
  | Arr2 rows => Ok (map (fun row => py_slice_to row stop) rows)
  end.

(** [np.array(data)] of a list of 2-D arrays: they are stacked when their
    shapes agree and refused otherwise. *)
Definition shape2 (a : list (list float)) : nat * nat :=
  (length a, match a with [] => O | row :: _ => length row end).

Definition same_shape (a b : list (list float)) : bool :=
  ((fst (shape2 a) =? fst (shape2 b)) && (snd (shape2 a) =? snd (shape2 b)))%nat.

Definition np_array (data : list (list (list float)))
  : result (list (list (list float))) :=
  match data with
  | [] => Ok []
  | a :: rest =>
      if forallb (same_shape a) rest then Ok data else Raise ValueError
  end.

(** [np.array(data)] of a list of 3-D arrays, stacked likewise. *)
Definition shape3 (a : list (list (list float))) : nat * (nat * nat) :=
  (length a, match a with [] => (O, O) | station :: _ => shape2 station end).

Definition same_shape3 (a b : list (list (list float))) : bool :=
  ((fst (shape3 a) =? fst (shape3 b))
   && (fst (snd (shape3 a)) =? fst (snd (shape3 b)))
   && (snd (snd (shape3 a)) =? snd (snd (shape3 b))))%nat.

Definition np_array_of_models (data : list (list (list (list float))))
  : result (list (list (list (list float)))) :=
  match data with
  | [] => Ok []
  | a :: rest =>
      if forallb (same_shape3 a) rest then Ok data else Raise ValueError
  end.

Definition check_if_seissol_surface_receiver_file (filename : string) : bool :=
  let out := false in
  let out := if py_in "receiver" (split "-" filename) then true else out in
  let out := if negb (last_piece (split "." filename) =? "dat")
             then false else out in
  out.

Record arguments : Type := {
  obs_path : string;
  ensemble_dir : string;
  final_ind : list Z
}.

(** The [default=([-1])] of [--final_ind]. *)
Definition default_final_ind : list Z := [(-1)%Z].

Section FileSystem.

(** [os.listdir(path)] *)
Variable listdir : string -> result (list string).
(** whether [sx.seissolxdmf(file).ReadNElements()] comes back without an
    exception *)
Variable xdmf_readable : string -> bool.
(** the numeric rows [np.loadtxt] parses from a file after the five
    skipped lines, or the exception of a file it cannot parse *)
Variable loadtxt_rows : string -> result (list (list float)).

(** [np.loadtxt(filename, skiprows=5, usecols=(0, 7, 8, 9))] *)
Definition np_loadtxt (filename : string) : result ndarray :=
  rows <- loadtxt_rows filename ;;
  table <- for_each rows
             (fun row table => picked <- pick_columns row ;;
                               Ok (table ++ [picked]))
             [] ;;
  Ok (squeeze table).

Definition load_seissol_surface_receiver (filename : string) (final_ind : Z)
  : result (list (list float)) :=
  loaded <- np_loadtxt filename ;;
  let data := transpose loaded in
  slice_columns_to data final_ind.

Definition load_all_seissol_receivers_from_dir (path : string) (final_ind : Z)
  : IO (list (list (list float))) :=
  files <~ lift (listdir path) ;;
  let surface_receiver :=
    fold_left (fun acc i =>
                 if check_if_seissol_surface_receiver_file i
                 then acc ++ [i] else acc)
              files [] in
  let surface_receiver := list_sort surface_receiver in
  data <~ lift (for_each surface_receiver
                  (fun i data =>
                     d <- load_seissol_surface_receiver (path ++ i)%string final_ind ;;
                     Ok (data ++ [d]))
                  []) ;;
  lift (np_array data).

Definition load_observations (path : string) : IO (list (list (list float))) :=
  load_all_seissol_receivers_from_dir path (-1).

Definition check_if_seissol_dir (path : string) : IO bool :=
  let out := false in
  let number_surface_receiver := O in
  files <~ lift (listdir path) ;;
  out <~ for_io files
           (fun i out =>
              if last_piece (split "-" i) =? "surface.xdmf" then
                if xdmf_readable (path ++ i)%string then ret true
                else _ <~ print (DefectXdmf (path ++ i)%string) ;; ret out
              else ret out)
           out ;;
  let number_surface_receiver :=
    fold_left (fun n i =>
                 if check_if_seissol_surface_receiver_file i
                 then (n + 1)%nat else n)
              files number_surface_receiver in
  let out := if (number_surface_receiver =? 0)%nat then false else out in
  ret out.

Definition collect_seissol_dirs (path : string) : IO (list string) :=
  entries <~ lift (listdir path) ;;
  dirs <~ for_io entries
            (fun i dirs =>
               try_except
                 (ok <~ check_if_seissol_dir (path ++ i ++ "/")%string ;;
                  if ok then ret (dirs ++ [i]) else ret dirs)
                 (ret dirs))
            [] ;;
  ret (list_sort dirs).

Definition load_ensemble_waveforms (path : string) (final_ind : Z)
  : IO (list (list (list (list float))) * list string) :=
  dirs <~ collect_seissol_dirs path ;;
  _ <~ print (ReadingFrom dirs) ;;
  data <~ for_io dirs
            (fun i data =>
               d <~ load_all_seissol_receivers_from_dir
                      (path ++ i ++ "/")%string final_ind ;;
               ret (data ++ [d]))
            [] ;;
  stacked <~ lift (np_array_of_models data) ;;
  ret (stacked, dirs).

(** [a.shape[2]] of the stacked observations and [a.shape[1]],
    [a.shape[3]] of the stacked synthetics; an array stacked from nothing
    is 1-D and has no such axis. *)
Definition ndt_of (station : list (list float)) : nat :=
  match station with [] => O | row :: _ => length row end.

Definition obs_timesteps (obs_data : list (list (list float))) : result nat :=
  match obs_data with
  | [] => Raise IndexError
  | station :: _ => Ok (ndt_of station)
  end.

Definition syn_stations (syn_data : list (list (list (list float))))
  : result nat :=
  match syn_data with
  | [] => Raise IndexError
  | model :: _ => Ok (length model)
  end.

Definition syn_timesteps (syn_data : list (list (list (list float))))
  : result nat :=
  match syn_data with
  | (station :: _) :: _ => Ok (ndt_of station)
  | _ => Raise IndexError
  end.

(** The loading part of the script: what it binds to [obs_data],
    [syn_data] and [model_dir_names]. *)
Definition script_load (args : arguments)
  : IO (list (list (list float)) * list (list (list (list float))) * list string) :=
  obs_data <~ load_observations (obs_path args) ;;
  _ <~ print (ObservationStations (length obs_data)) ;;
  ndt <~ lift (obs_timesteps obs_data) ;;
  _ <~ print (ObservationTimesteps ndt) ;;
  f <~ lift (index1 (final_ind args) 0) ;;
  loaded <~ load_ensemble_waveforms (ensemble_dir args) f ;;
  let '(syn_data, model_dir_names) := loaded in
  stations <~ lift (syn_stations syn_data) ;;
  _ <~ print (SyntheticStations stations) ;;
  ndt <~ lift (syn_timesteps syn_data) ;;
  _ <~ print (SyntheticTimesteps ndt) ;;
  ret (obs_data, syn_data, model_dir_names).

End FileSystem.
(* ================================================================= *)
(** ** The best-fit selection of the script *)

(** What the last part of the script prints. *)
Inductive report : Type :=
| MisfitList (model_misfits : list float)
| SmallestMisfit (name : string) (misfit : float)
    (* the misfit is printed with five decimals *)
| Finished.

(** [np.zeros(n)] *)
Definition np_zeros (n : nat) : list float := repeat 0 n.

(** [a[i] = x] *)
Definition set_item {A : Type} (a : list A) (i : nat) (x : A)
  : result (list A) :=
  if (i <? length a)%nat then Ok (firstn i a ++ x :: skipn (S i) a)
  else Raise IndexError.

(** [np.argmin]: the index of the first occurrence of the minimum, the
    first NaN counting as the minimum.  NumPy keeps the best element so
    far and replaces it by an element [x] when [x >= best] is false. *)
Fixpoint argmin_from (best_i : nat) (best : float) (i : nat)
  (l : list float) : nat :=
  match l with
  | [] => best_i
  | x :: l' =>
      if (best <=? x)%float then argmin_from best_i best (S i) l'
      else if is_nan x then i
      else argmin_from i x (S i) l'
  end.

Definition np_argmin (l : list float) : result nat :=
  match l with
  | [] => Raise ValueError
  | x :: l' => if is_nan x then Ok O else Ok (argmin_from 0 x 1 l')
  end.

Section Selection.

Variable correlate_lag : list float -> list float -> nat -> float.
Variable np_sum : list float -> float.

(** The lines 155 to 166 of the script: the misfit of every model, the
    index of the smallest one, and what is printed on the way. *)
Definition select_best_fit
  (obs_data : list (list (list float)))
  (syn_data : list (list (list (list float))))
  (model_dir_names : list string)
  : result (list float * nat) * list report :=
  match for_each (range (length model_dir_names))
          (fun i model_misfits =>
             model <- index1 syn_data i ;;
             misfit <- calculate_summed_model_misfit correlate_lag np_sum
                         obs_data model ;;
             set_item model_misfits i misfit)
          (np_zeros (length model_dir_names)) with
  | Raise e => (Raise e, [])
  | Ok model_misfits =>
      let out := [MisfitList model_misfits] in
      match np_argmin model_misfits with
      | Raise e => (Raise e, out)
      | Ok min_ind =>
          match index1 model_dir_names min_ind,
                index1 model_misfits min_ind with
          | Ok name, Ok misfit =>
              (Ok (model_misfits, min_ind),
               out ++ [SmallestMisfit name misfit; Finished])
          | Raise e, _ => (Raise e, out)
          | _, Raise e => (Raise e, out)
          end
      end
  end.

End Selection.

(* ================================================================= *)
(** ** The vocabulary of the specification *)

Definition sample (a : list float) (i : nat) : float := nth i a 0.

(** The contiguous sub-segment [a[k], ..., a[k + m - 1]]. *)
Definition segment (a : list float) (k m : nat) : list float :=
  map (fun l => sample a (k + l)) (range m).

(** The number of valid offsets of [syn] inside [obs]. *)
Definition valid_offsets (obs syn : list float) : nat :=
  (length obs - length syn + 1)%nat.

(** [k] is the lowest of the [n] first indices at which [f] is largest;
    no [f j] is NaN then. *)
Definition first_maximizer (f : nat -> float) (n k : nat) : Prop :=
  (k < n)%nat /\
  (forall j, (j < n)%nat -> (f j <=? f k)%float = true) /\
  (forall j, (j < k)%nat -> (f j <? f k)%float = true).

(** [k] is the lowest of the [n] first indices at which [f] is smallest;
    no [f j] is NaN then. *)
Definition first_minimizer (f : nat -> float) (n k : nat) : Prop :=
  (k < n)%nat /\
  (forall j, (j < n)%nat -> (f k <=? f j)%float = true) /\
  (forall j, (j < k)%nat -> (f k <? f j)%float = true).

(** [k] is the lowest of the [n] first indices at which [f] is NaN. *)
Definition first_nan (f : nat -> float) (n k : nat) : Prop :=
  (k < n)%nat /\ is_nan (f k) = true /\
  (forall j, (j < k)%nat -> is_nan (f j) = false).

(** What [np.argmax] returns of [f 0, ..., f (n - 1)]: the index of the
    first NaN, or else the lowest index at which [f] is largest. *)
Definition first_peak (f : nat -> float) (n k : nat) : Prop :=
  first_nan f n k \/ first_maximizer f n k.

(** What [np.argmin] returns of them. *)
Definition first_trough (f : nat -> float) (n k : nat) : Prop :=
  first_nan f n k \/ first_minimizer f n k.

(** Every sample is zero or a finite number: neither NaN nor infinite. *)
Definition all_finite (a : list float) : Prop :=
  Forall (fun x => is_finite x = true) a.

(** The number a float64 stands for, as a fraction (0 for what is not
    finite). *)
Definition exact (x : float) : Q :=
  match Prim2SF x with
  | S754_finite s m e =>
      ((if s then inject_Z (Z.neg m) else inject_Z (Z.pos m)) * 2 ^ e)%Q
  | _ => 0%Q
  end.

(** The cross-correlation of [obs] with [syn] at the offset [k], no sample
    of [syn] falling outside [obs], without any rounding. *)
Definition exact_xcorr (obs syn : list float) (k : nat) : Q :=
  fold_right Qplus 0%Q
    (map (fun l => (exact (sample obs (k + l)) * exact (sample syn l))%Q)
         (range (length syn))).

(** The shapes of two 1-D arrays NumPy subtracts: equal, or one of them
    of length one. *)
Definition broadcastable (n m : nat) : Prop :=
  n = m \/ m = 1%nat \/ n = 1%nat.

(** The length of the difference of two such arrays. *)
Definition broadcast_length (n m : nat) : nat :=
  if (n =? m)%nat then n else if (m =? 1)%nat then n else m.

(** The sample that takes part in the difference at the index [l]: the
    only sample of an array of length one, the sample at [l] otherwise. *)
Definition broadcast_sample (a : list float) (l : nat) : float :=
  if (length a =? 1)%nat then sample a 0 else sample a l.

(** [(obs - syn)^2], element by element. *)
Definition squared_differences (obs syn : list float) : list float :=
  map (fun l => (broadcast_sample obs l - broadcast_sample syn l)
                * (broadcast_sample obs l - broadcast_sample syn l))
      (range (broadcast_length (length obs) (length syn))).

(** [sqrt(sum((obs - syn)^2) / length(syn))] *)
Definition rms_formula (np_sum : list float -> float) (obs syn : list float)
  : float :=
  sqrt (np_sum (squared_differences obs syn) / float_of_nat (length syn)).

(** [acc + f 0 + f 1 + ... + f (n - 1)], added in this order. *)
Fixpoint accumulate (f : nat -> float) (n : nat) (acc : float) : float :=
  match n with
  | O => acc
  | S n' => accumulate f n' acc + f n'
  end.

(** The same over the [s] stations and the [c] channels of each, in the
    order of the two loops. *)
Fixpoint accumulate2 (f : nat -> nat -> float) (s c : nat) (acc : float)
  : float :=
  match s with
  | O => acc
  | S s' => accumulate (f s') c (accumulate2 f s' c acc)
  end.

(** An array of shape [(s, c, n)]. *)
Definition has_shape3 (a : list (list (list float))) (s c n : nat) : Prop :=
  length a = s /\
  Forall (fun station =>
            length station = c /\
            Forall (fun tr => length tr = n) station) a.

(** The number of samples the specification expects the loader to keep of
    [n] timesteps: all but the last for [final_ind = -1], those below
    [final_ind] otherwise. *)
Definition retained (final_ind : Z) (n : nat) : nat :=
  if (final_ind =? -1)%Z then (n - 1)%nat
  else Nat.min (Z.to_nat final_ind) n.

(** An array of shape [(c, n)]. *)
Definition has_shape2 (a : list (list float)) (c n : nat) : Prop :=
  length a = c /\ Forall (fun row => length row = n) a.

(** The trace [a[i, j]] of a 3-D array. *)
Definition trace_at (a : list (list (list float))) (i j : nat) : list float :=
  nth j (nth i a []) [].

(** The velocity traces of the [s] first stations hold finite samples. *)
Definition finite_velocities (a : list (list (list float))) (s : nat) : Prop :=
  forall i j, (i < s)%nat -> (j < 3)%nat -> all_finite (trace_at a i (j + 1)).

(** The velocity traces of the [s] first stations of two records agree. *)
Definition same_velocities (a b : list (list (list float))) (s : nat) : Prop :=
  forall i j, (i < s)%nat -> (j < 3)%nat ->
    trace_at a i (j + 1) = trace_at b i (j + 1).

Section EngineVocabulary.

Variable correlate_lag : list float -> list float -> nat -> float.
Variable np_sum : list float -> float.

(** The RMS misfit of one channel: the observed trace aligned to the
    synthetic one, then compared with it. *)
Definition channel_misfit (obs_full syn_trace : list float) : result float :=
  obs_trace <- correlate_and_shift_waveforms correlate_lag obs_full syn_trace ;;
  calculate_rms_misfit np_sum obs_trace syn_trace.

(** The value of a channel's misfit, NaN standing for an exception. *)
Definition channel_value (obs_data syn_data : list (list (list float)))
  (i j : nat) : float :=
  match channel_misfit (trace_at obs_data i (j + 1))
                       (trace_at syn_data i (j + 1)) with
  | Ok x => x
  | Raise _ => nan
  end.

(** The summed misfit of a model: the channel misfits added to 0 in the
    order of the loops. *)
Definition misfit_value (obs_data syn_data : list (list (list float)))
  (s : nat) : float :=
  accumulate2 (channel_value obs_data syn_data) s 3 0.

(** The same sum with nothing shifted. *)
Definition unshifted_misfit (obs_data syn_data : list (list (list float)))
  (s : nat) : float :=
  accumulate2 (fun i j => rms_formula np_sum (trace_at obs_data i (j + 1))
                                             (trace_at syn_data i (j + 1)))
              s 3 0.

End EngineVocabulary.

(** What the theorems need of [np.sum], whatever the order of its
    additions: zeros add up to zero, and numbers that are not below zero
    add up to a number that is not below zero. *)
Definition sums_zeros (np_sum : list float -> float) : Prop :=
  forall n, np_sum (repeat 0 n) = 0.

Definition sums_nonneg (np_sum : list float -> float) : Prop :=
  forall a, Forall (fun x => (0 <=? x)%float = true) a -> (0 <=? np_sum a)%float = true.

(** [s] ends with [suffix]. *)
Definition ends_with (s suffix : string) : Prop :=
  exists p, s = (p ++ suffix)%string.

(** The entry [i] of [path] carries the metadata name and its element
    count can be read. *)
Definition readable_metadata (xdmf_readable : string -> bool)
  (path i : string) : bool :=
  (last_piece (split "-" i) =? "surface.xdmf")
  && xdmf_readable (path ++ i)%string.

(** Ascending in the code-point order of strings. *)
Definition ascending (l : list string) : Prop :=
  StronglySorted (fun a b => String.leb a b = true) l.

(** The verdict of the Directory Classifier on the entry [i] of [path]. *)
Definition classified
  (listdir : string -> result (list string))
  (xdmf_readable : string -> bool) (path i : string) : result bool :=
  fst (check_if_seissol_dir listdir xdmf_readable (path ++ i ++ "/")%string []).

Definition accepted
  (listdir : string -> result (list string))
  (xdmf_readable : string -> bool) (path i : string) : bool :=
  match classified listdir xdmf_readable path i with
  | Ok true => true
  | _ => false
  end.

(** The entry [i] of [path] carries the metadata name and reading its
    element count fails. *)
Definition defect_metadata (xdmf_readable : string -> bool)
  (path i : string) : bool :=
  (last_piece (split "-" i) =? "surface.xdmf")
  && negb (xdmf_readable (path ++ i)%string).

(** The number of samples [a[:stop]] keeps of [n]. *)
Definition kept (stop : Z) (n : nat) : nat :=
  if (stop <? 0)%Z then (n - Z.to_nat (- stop))%nat
  else Nat.min (Z.to_nat stop) n.

(* ================================================================= *)
(** ** Concrete inputs *)

Definition ramp : list float := [1; 2; 3]%float.

Definition dip : list float := [3; 1; 2]%float.

Definition ones : list float := [1; 1]%float.

(** The reference kernels: the products of a correlation and the elements
    of a sum are added from left to right.  On the inputs below every
    product and every partial sum but the one that is meant to round is
    exact, so that no other order gives another outcome. *)
Definition direct_lag (big small : list float) (k : nat) : float :=
  fold_left (fun acc xy => acc + fst xy * snd xy)
            (combine (skipn k big) small) 0.

Definition sequential_sum (a : list float) : float := fold_left add a 0.

(** A trace that holds [2^53] twice, and a synthetic trace of two ones:
    the correlation at the offset 2 is [2^53 + 1], which float64 does not
    hold. *)
Definition tie_obs : list float :=
  [9007199254740992; 0; 9007199254740992; 1].

Definition tie_syn : list float := [1; 1].




(** One station of three samples per observed trace and two per synthetic
    trace: the first channel is matched at the offset 1 without misfit,
    the two others at the offsets 0 and 1 with one sample off by 1. *)
Definition shifted_station : list (list (list float)) :=
  [[[0; 1; 2]; [1; 2; 3]; [3; 1; 2]; [0; 0; 4]]].

Definition shifted_model : list (list (list float)) :=
  [[[0; 1]; [2; 3]; [3; 0]; [0; 3]]].

(** One station whose three velocity channels hold one sample, and a
    synthetic record of the same station count without any sample. *)
Definition one_sample_station : list (list (list float)) :=
  [[[0]; [1]; [1]; [1]]]%float.

Definition no_sample_station : list (list (list float)) :=
  [[[]; []; []; []]].

(** A data row of a receiver file: time, six columns the script skips,
    three velocities. *)
Definition receiver_row (t v1 v2 v3 : float) : list float :=
  [t; 0; 0; 0; 0; 0; 0; v1; v2; v3]%float.

Definition three_rows : list (list float) :=
  [receiver_row 0 1 2 3; receiver_row 1 4 5 6; receiver_row 2 7 8 9]%float.

Definition one_row : list (list float) := [receiver_row 0 1 2 3]%float.

(** An ensemble of two models and a stray file, next to a directory of
    observations. *)
Definition demo_listdir (p : string) : result (list string) :=
  if p =? "ens/" then Ok ["m2"; "m1"; "notes.txt"]
  else if p =? "ens/m1/" then Ok ["run-surface.xdmf"; "run-receiver-00001.dat"]
  else if p =? "ens/m2/" then Ok ["run-receiver-00001.dat"; "run-surface.xdmf"]
  else if p =? "obs/" then Ok ["run-receiver-00001.dat"; "readme"]
  else Raise OSError.

Definition demo_xdmf (p : string) : bool := true.

Definition demo_rows (p : string) : result (list (list float)) := Ok three_rows.

Definition single_row_file (p : string) : result (list (list float)) := Ok one_row.

Definition demo_arguments : arguments :=
  {| obs_path := "obs/"; ensemble_dir := "ens/"; final_ind := [1%Z] |}.

(** What the script loads from them: two samples per observed trace,
    one per synthetic trace. *)
Definition demo_observations : list (list (list float)) :=
  [[[0; 1]; [1; 4]; [2; 5]; [3; 6]]]%float.

(** The same velocities under another time axis. *)
Definition shifted_time_observations : list (list (list float)) :=
  [[[10; 11]; [1; 4]; [2; 5]; [3; 6]]]%float.

Definition demo_synthetics : list (list (list (list float))) :=
  [[[[0]; [1]; [2]; [3]]]; [[[0]; [1]; [2]; [3]]]]%float.

(** The same tree with the root listed in another order. *)
Definition demo_listdir_reordered (p : string) : result (list string) :=
  if p =? "ens/" then Ok ["notes.txt"; "m1"; "m2"] else demo_listdir p.

(** Observations next to an ensemble root that holds a stray file and a
    directory without simulation output. *)
Definition stray_ensemble (p : string) : result (list string) :=
  if p =? "ens/" then Ok ["notes.txt"; "old"]
  else if p =? "ens/old/" then Ok ["run.log"]
  else if p =? "obs/" then Ok ["run-receiver-00001.dat"]
  else Raise OSError.

(** A directory with a defective and a readable metadata file. *)
Definition two_metadata_files (p : string) : result (list string) :=
  Ok ["old-surface.xdmf"; "run-surface.xdmf"; "run-receiver-00001.dat"].

Definition picky_xdmf (p : string) : bool :=
  negb (p =? "model/old-surface.xdmf").

(** An ensemble of an offset model and a copy of the observations. *)
Definition offset_observations : list (list (list float)) :=
  [[[0; 1]; [101; 104]; [102; 105]; [103; 106]]]%float.

Definition copy_ensemble : list (list (list (list float))) :=
  [offset_observations; shifted_time_observations].

(** A directory with a readable metadata file and no receiver file. *)
Definition metadata_only (p : string) : result (list string) :=
  Ok ["run-surface.xdmf"; "run.log"].

(** A directory whose metadata file is called [surface.xdmf]. *)
Definition bare_metadata_name (p : string) : result (list string) :=
  Ok ["surface.xdmf"; "run-receiver-00001.dat"].
(* ================================================================= *)
(** ** float64: order, signs and rounding *)

Section Float64Facts.

Local Open Scope float_scope.

Lemma SFcompare_key (x y : spec_float) :
  x <> S754_nan -> y <> S754_nan ->
  match SFcompare x y with
  | Some Lt => key_lt (SFkey x) (SFkey y)
  | Some Eq => SFkey x = SFkey y
  | Some Gt => key_lt (SFkey y) (SFkey x)
  | None => False
  end.
Proof.
  intros Hx Hy. unfold key_lt.
  destruct x as [sx|sx| |sx mx ex], y as [sy|sy| |sy my ey]; try congruence;
    try destruct sx; try destruct sy; cbn; try lia; try reflexivity.
  - destruct (Z.compare_spec ex ey) as [E|E|E]; cbn; try lia.
    subst. rewrite Pos.compare_cont_spec. cbn.
    destruct (Pos.compare_spec mx my) as [F|F|F]; cbn; try lia.
    subst. reflexivity.
  - destruct (Z.compare_spec ex ey) as [E|E|E]; cbn; try lia.
    subst. rewrite Pos.compare_cont_spec. cbn.
    destruct (Pos.compare_spec mx my) as [F|F|F]; cbn; try lia.
    subst. reflexivity.
Qed.


Lemma is_nan_spec (x : float) : is_nan x = true <-> Prim2SF x = S754_nan.
Proof.
  unfold is_nan. rewrite eqb_spec. unfold SFeqb.
  destruct (Prim2SF x) as [s|s| |s m e] eqn:E; cbn.
  - split; discriminate.
  - destruct s; cbn; split; discriminate.
  - split; reflexivity.
  - destruct s; rewrite Z.compare_refl, Pos.compare_cont_refl; cbn;
      split; discriminate.
Qed.

Lemma is_nan_false (x : float) : is_nan x = false <-> Prim2SF x <> S754_nan.
Proof.
  rewrite <- is_nan_spec. destruct (is_nan x); split; congruence.
Qed.

Lemma key_total (a b : Z * (Z * Z)) : key_le a b \/ key_lt b a.
Proof.
  unfold key_le, key_lt. destruct a as (a1 & a2 & a3), b as (b1 & b2 & b3).
  cbn.
  destruct (Z.lt_trichotomy a1 b1) as [H|[H|H]]; [lia| |lia].
  destruct (Z.lt_trichotomy a2 b2) as [H2|[H2|H2]]; [lia| |lia].
  destruct (Z.lt_trichotomy a3 b3) as [H3|[H3|H3]]; [lia| |lia].
  left. right. congruence.
Qed.

Lemma key_lt_irrefl (a b : Z * (Z * Z)) : key_lt a b -> key_le b a -> False.
Proof.
  unfold key_le, key_lt. intros H [H'|H']; [|subst b]; lia.
Qed.

Lemma key_le_lt_trans (a b c : Z * (Z * Z)) :
  key_le a b -> key_lt b c -> key_lt a c.
Proof.
  unfold key_le, key_lt. intros [H|H] H'; [|subst b]; lia.
Qed.

Lemma key_lt_le_trans (a b c : Z * (Z * Z)) :
  key_lt a b -> key_le b c -> key_lt a c.
Proof.
  unfold key_le, key_lt. intros H [H'|H']; [|subst b]; lia.
Qed.

Lemma SF_nan_dec (x : spec_float) : {x = S754_nan} + {x <> S754_nan}.
Proof. destruct x; (left; reflexivity) || (right; discriminate). Qed.

Lemma SFcompare_nan_r (x : spec_float) : SFcompare x S754_nan = None.
Proof. destruct x; reflexivity. Qed.

Lemma leb_key (x y : float) :
  (x <=? y) = true <->
  is_nan x = false /\ is_nan y = false /\
  key_le (SFkey (Prim2SF x)) (SFkey (Prim2SF y)).
Proof.
  rewrite leb_spec, !is_nan_false. unfold SFleb, key_le.
  pose proof (SFcompare_key (Prim2SF x) (Prim2SF y)) as K.
  destruct (SF_nan_dec (Prim2SF x)) as [Ex|Hx].
  { rewrite Ex. cbn. split; [discriminate | tauto]. }
  destruct (SF_nan_dec (Prim2SF y)) as [Ey|Hy].
  { rewrite Ey, SFcompare_nan_r. split; [discriminate | tauto]. }
  specialize (K Hx Hy).
  destruct (SFcompare (Prim2SF x) (Prim2SF y)) as [[| |]|].
  - split; [intros _; repeat split; auto | reflexivity].
  - split; [intros _; repeat split; auto | reflexivity].
  - split; [discriminate|]. intros (_ & _ & [H|H]); exfalso.
    + apply (key_lt_irrefl _ _ K). left. exact H.
    + apply (key_lt_irrefl _ _ K). right. exact H.
  - contradiction.
Qed.

Lemma ltb_key (x y : float) :
  (x <? y) = true <->
  is_nan x = false /\ is_nan y = false /\
  key_lt (SFkey (Prim2SF x)) (SFkey (Prim2SF y)).
Proof.
  rewrite ltb_spec, !is_nan_false. unfold SFltb.
  pose proof (SFcompare_key (Prim2SF x) (Prim2SF y)) as K.
  destruct (SF_nan_dec (Prim2SF x)) as [Ex|Hx].
  { rewrite Ex. cbn. split; [discriminate | tauto]. }
  destruct (SF_nan_dec (Prim2SF y)) as [Ey|Hy].
  { rewrite Ey, SFcompare_nan_r. split; [discriminate | tauto]. }
  specialize (K Hx Hy).
  destruct (SFcompare (Prim2SF x) (Prim2SF y)) as [[| |]|].
  - split; [discriminate|]. intros (_ & _ & H). exfalso.
    apply (key_lt_irrefl _ _ H). right. symmetry. exact K.
  - split; [intros _; repeat split; auto | reflexivity].
  - split; [discriminate|]. intros (_ & _ & H). exfalso.
    apply (key_lt_irrefl _ _ K). left. exact H.
  - contradiction.
Qed.

Lemma leb_refl (x : float) : is_nan x = false -> (x <=? x) = true.
Proof. intros H. apply leb_key. repeat split; auto. right. reflexivity. Qed.

Lemma leb_nan_l (x y : float) : is_nan x = true -> (x <=? y) = false.
Proof.
  intros H. destruct (x <=? y) eqn:E; [|reflexivity].
  apply leb_key in E. destruct E as (E & _). congruence.
Qed.

Lemma leb_nan_r (x y : float) : is_nan y = true -> (x <=? y) = false.
Proof.
  intros H. destruct (x <=? y) eqn:E; [|reflexivity].
  apply leb_key in E. destruct E as (_ & E & _). congruence.
Qed.

Lemma leb_false_ltb (x y : float) :
  is_nan x = false -> is_nan y = false -> (x <=? y) = false -> (y <? x) = true.
Proof.
  intros Hx Hy H. apply ltb_key. repeat split; auto.
  destruct (key_total (SFkey (Prim2SF x)) (SFkey (Prim2SF y))) as [K|K];
    [|exact K].
  assert ((x <=? y) = true) by (apply leb_key; auto). congruence.
Qed.

Lemma ltb_leb (x y : float) : (x <? y) = true -> (x <=? y) = true.
Proof.
  rewrite ltb_key, leb_key. intros (Hx & Hy & K). repeat split; auto.
  left. exact K.
Qed.

Lemma ltb_not_leb (x y : float) : (x <? y) = true -> (y <=? x) = false.
Proof.
  rewrite ltb_key. intros (Hx & Hy & K).
  destruct (y <=? x) eqn:E; [|reflexivity].
  apply leb_key in E. destruct E as (_ & _ & K').
  exfalso. apply (key_lt_irrefl _ _ K K').
Qed.

Lemma leb_ltb_trans (x y z : float) :
  (x <=? y) = true -> (y <? z) = true -> (x <? z) = true.
Proof.
  rewrite leb_key, !ltb_key. intros (Hx & Hy & K) (_ & Hz & K').
  repeat split; auto. apply (key_le_lt_trans _ _ _ K K').
Qed.

Lemma ltb_leb_trans (x y z : float) :
  (x <? y) = true -> (y <=? z) = true -> (x <? z) = true.
Proof.
  rewrite leb_key, !ltb_key. intros (Hx & Hy & K) (_ & Hz & K').
  repeat split; auto. apply (key_lt_le_trans _ _ _ K K').
Qed.

Lemma leb_trans (x y z : float) :
  (x <=? y) = true -> (y <=? z) = true -> (x <=? z) = true.
Proof.
  rewrite !leb_key. intros (Hx & Hy & K) (_ & Hz & K').
  repeat split; auto. destruct K' as [K'|K'].
  - left. apply (key_le_lt_trans _ _ _ K K').
  - rewrite <- K'. exact K.
Qed.

Lemma leb_antisym_eqb (x y : float) :
  (x <=? y) = true -> (y <=? x) = true -> (x =? y) = true.
Proof.
  rewrite !leb_key. intros (Hx & Hy & K) (_ & _ & K').
  rewrite FloatAxioms.eqb_spec. unfold SFeqb.
  apply is_nan_false in Hx, Hy.
  pose proof (SFcompare_key _ _ Hx Hy) as C.
  destruct (SFcompare (Prim2SF x) (Prim2SF y)) as [[| |]|]; try reflexivity.
  - exfalso. apply (key_lt_irrefl _ _ C K').
  - exfalso. apply (key_lt_irrefl _ _ C K).
  - contradiction.
Qed.

Lemma leb_not_nan (x y : float) :
  (x <=? y) = true -> is_nan x = false /\ is_nan y = false.
Proof. rewrite leb_key. tauto. Qed.


(** *** Signs and classes *)

Lemma SFsigned_nonneg (x : spec_float) : SFsigned false x -> SFnonneg x.
Proof. destruct x as [s|s| |s m e]; cbn; try tauto; intros ->; exact I. Qed.

Lemma iter_pos_invariant {A : Type} (P : A -> Prop) (f : A -> A) :
  (forall x, P x -> P (f x)) -> forall p x, P x -> P (iter_pos f p x).
Proof.
  intros Hf. induction p as [p IH|p IH|]; intros x Hx; cbn; auto.
Qed.

Lemma shr_1_nonneg (r : shr_record) : (0 <= shr_m r)%Z -> (0 <= shr_m (shr_1 r))%Z.
Proof.
  destruct r as [m r s]. cbn. destruct m as [|p|p]; cbn; try lia.
  destruct p; cbn; lia.
Qed.

Lemma shr_fexp_nonneg (prec emax m e : Z) (l : location) :
  (0 <= m)%Z -> (0 <= shr_m (fst (shr_fexp prec emax m e l)))%Z.
Proof.
  intros Hm. unfold shr_fexp, shr.
  assert (H0 : (0 <= shr_m (shr_record_of_loc m l))%Z)
    by (destruct l as [|[| |]]; exact Hm).
  destruct (_ - e)%Z; cbn [fst]; try exact H0.
  apply (iter_pos_invariant (fun r => (0 <= shr_m r)%Z)); [|exact H0].
  apply shr_1_nonneg.
Qed.

Lemma round_nearest_even_nonneg (m : Z) (l : location) :
  (0 <= m)%Z -> (0 <= round_nearest_even m l)%Z.
Proof.
  intros H. destruct l as [|[| |]]; cbn; try lia. destruct (Z.even m); lia.
Qed.

Lemma binary_round_aux_signed (prec emax : Z) (s : bool) (m e : Z) (l : location) :
  (0 <= m)%Z -> SFsigned s (binary_round_aux prec emax s m e l).
Proof.
  intros Hm. unfold binary_round_aux.
  pose proof (shr_fexp_nonneg prec emax m e l Hm) as H1.
  destruct (shr_fexp prec emax m e l) as (mrs', e'). cbn [fst] in H1.
  pose proof (shr_fexp_nonneg prec emax
                (round_nearest_even (shr_m mrs') (loc_of_shr_record mrs')) e'
                loc_Exact (round_nearest_even_nonneg _ _ H1)) as H2.
  destruct (shr_fexp prec emax _ e' loc_Exact) as (mrs'', e''). cbn [fst] in H2.
  destruct (shr_m mrs'') as [|p|p]; cbn; try reflexivity; [|lia].
  destruct (e'' <=? emax - prec)%Z; reflexivity.
Qed.

Lemma binary_round_signed (prec emax : Z) (s : bool) (m : positive) (e : Z) :
  SFsigned s (binary_round prec emax s m e).
Proof.
  unfold binary_round. destruct (shl_align m e _) as (mz, ez).
  apply binary_round_aux_signed. lia.
Qed.

Lemma binary_normalize_number (prec emax m e : Z) :
  binary_normalize prec emax m e false <> S754_nan.
Proof.
  unfold binary_normalize. destruct m as [|p|p]; [discriminate| |].
  - pose proof (binary_round_signed prec emax false p e) as H.
    intros E. rewrite E in H. exact H.
  - pose proof (binary_round_signed prec emax true p e) as H.
    intros E. rewrite E in H. exact H.
Qed.

Lemma SFmul_self_nonneg (x : spec_float) :
  x <> S754_nan -> SFnonneg (SF64mul x x).
Proof.
  intros Hx. destruct x as [s|s| |s m e]; cbn; try congruence.
  - exact I.
  - destruct s; exact I.
  - apply SFsigned_nonneg. replace (xorb s s) with false by (destruct s; reflexivity).
    apply binary_round_aux_signed. lia.
Qed.

Lemma SFadd_nonneg (x y : spec_float) :
  SFnonneg x -> SFnonneg y -> SFnonneg (SF64add x y).
Proof.
  destruct x as [sx|sx| |sx mx ex], y as [sy|sy| |sy my ey];
    try destruct sx; try destruct sy; cbn; try tauto.
  intros _ _. apply SFsigned_nonneg.
  apply binary_round_signed.
Qed.

Lemma SFdiv_nonneg (x : spec_float) (m : positive) (e : Z) :
  SFnonneg x -> SFnonneg (SF64div x (S754_finite false m e)).
Proof.
  destruct x as [sx|sx| |sx mx ex]; try destruct sx; cbn; try tauto.
  intros _. unfold SFdiv_core_binary.
  set (m' := match _ with Z.pos _ => _ | _ => _ end).
  assert (Hm' : (0 <= m')%Z).
  { unfold m'. destruct (_ - _ - _)%Z; try lia. apply Z.shiftl_nonneg. lia. }
  pose proof (Z.div_eucl_eq m' (Z.pos m)) as Hq.
  pose proof (Z.mod_pos_bound m' (Z.pos m)) as Hr.
  unfold Z.modulo in Hr.
  destruct (Z.div_eucl m' (Z.pos m)) as (q, r).
  apply SFsigned_nonneg, binary_round_aux_signed.
  specialize (Hq ltac:(lia)). specialize (Hr ltac:(lia)). nia.
Qed.

Lemma SFsqrt_nonneg (x : spec_float) : SFnonneg x -> SFnonneg (SF64sqrt x).
Proof.
  destruct x as [sx|sx| |sx mx ex]; try destruct sx; cbn; try tauto.
  intros _. unfold SFsqrt_core_binary.
  set (m' := match _ with Z.pos _ => _ | _ => _ end).
  pose proof (Z.sqrtrem_spec m') as Hq.
  assert (Hm' : (0 <= m')%Z).
  { unfold m'. destruct (_ - _)%Z; try lia. apply Z.shiftl_nonneg. lia. }
  specialize (Hq Hm').
  destruct (Z.sqrtrem m') as (q, r).
  apply SFsigned_nonneg, binary_round_aux_signed. lia.
Qed.

Lemma SFsub_finite (x y : spec_float) :
  SFfinite x -> SFfinite y -> SF64sub x y <> S754_nan.
Proof.
  destruct x as [sx|sx| |sx mx ex], y as [sy|sy| |sy my ey];
    try destruct sx; try destruct sy; cbn -[binary_normalize];
    try tauto; try discriminate;
    intros _ _; apply binary_normalize_number.
Qed.

Lemma SFsub_self (x : spec_float) :
  SFfinite x -> SF64sub x x = S754_zero false.
Proof.
  destruct x as [sx|sx| |sx mx ex]; try destruct sx; cbn -[binary_normalize];
    try tauto; intros _; rewrite Z.pos_sub_diag; reflexivity.
Qed.


(** *** Rounding without underflow and overflow *)

Lemma digits2_pos_size (p : positive) : digits2_pos p = Pos.size p.
Proof. induction p as [p IH|p IH|]; cbn; congruence. Qed.

Lemma Zdigits2_log2 (m : Z) : (0 < m)%Z -> Zdigits2 m = (Z.log2 m + 1)%Z.
Proof.
  destruct m as [|p|p]; try lia. intros _. cbn [Zdigits2].
  rewrite digits2_pos_size. destruct p; cbn; lia.
Qed.

Lemma Zdigits2_nonneg (m : Z) : (0 <= Zdigits2 m)%Z.
Proof. destruct m; cbn; lia. Qed.

Lemma Zdigits2_pos (m : Z) : (0 <= m)%Z -> (1 <= Zdigits2 m)%Z -> (0 < m)%Z.
Proof. destruct m; cbn; lia. Qed.

Lemma Zdigits2_succ (m : Z) :
  (0 <= m)%Z ->
  (Zdigits2 m <= Zdigits2 (m + 1) <= Zdigits2 m + 1)%Z.
Proof.
  intros H. destruct (Z.eq_dec m 0) as [->|Hm]; [cbn; lia|].
  rewrite !Zdigits2_log2 by lia.
  pose proof (Z.log2_succ_le m). pose proof (Z.log2_le_mono m (m + 1)).
  unfold Z.succ in *. lia.
Qed.

Lemma shr_1_digits (r : shr_record) :
  Zdigits2 (shr_m (shr_1 r)) = Z.max 0 (Zdigits2 (shr_m r) - 1).
Proof.
  destruct r as [m r s]. destruct m as [|[p|p|]|[p|p|]];
    cbn [shr_1 shr_m Zdigits2 digits2_pos]; lia.
Qed.

Lemma iter_shr_1_digits (p : positive) (r : shr_record) :
  Zdigits2 (shr_m (iter_pos shr_1 p r))
  = Z.max 0 (Zdigits2 (shr_m r) - Z.pos p).
Proof.
  revert r. induction p as [p IH|p IH|]; intros r; cbn [iter_pos].
  - rewrite !IH, shr_1_digits. pose proof (Zdigits2_nonneg (shr_m r)). lia.
  - rewrite !IH. pose proof (Zdigits2_nonneg (shr_m r)). lia.
  - apply shr_1_digits.
Qed.

(** One alignment step of a positive mantissa that does not underflow:
    the mantissa stays positive, and the sum of its size and the exponent
    is kept. *)
Lemma shr_fexp_positive (m e : Z) (l : location) :
  (0 < m)%Z -> (-1073 <= Zdigits2 m + e)%Z ->
  let r := fst (shr_fexp prec emax m e l) in
  let e' := snd (shr_fexp prec emax m e l) in
  (0 < shr_m r)%Z /\
  (Zdigits2 (shr_m r) + e' = Zdigits2 m + e)%Z /\
  e' = Z.max e (Zdigits2 m + e - 53) \/
  (0 < shr_m r)%Z /\
  (Zdigits2 (shr_m r) + e' = Zdigits2 m + e)%Z /\
  e' = (-1074)%Z /\ (e < -1074)%Z.
Proof.
  intros Hm Hd. unfold shr_fexp, shr, fexp, emin.
  change prec with 53%Z. change emax with 1024%Z.
  assert (E0 : shr_m (shr_record_of_loc m l) = m)
    by (destruct l as [|[| |]]; reflexivity).
  pose proof (Zdigits2_nonneg m) as Hn.
  assert (H1 : (1 <= Zdigits2 m)%Z) by (destruct m; cbn; lia).
  destruct (Z.max (Zdigits2 m + e - 53) (3 - 1024 - 53) - e)%Z as [|p|p] eqn:E;
    cbn [fst snd].
  - left. rewrite E0. repeat split; lia.
  - pose proof (iter_shr_1_digits p (shr_record_of_loc m l)) as D.
    rewrite E0 in D.
    assert (P : (0 <= shr_m (iter_pos shr_1 p (shr_record_of_loc m l)))%Z).
    { apply (iter_pos_invariant (fun r => (0 <= shr_m r)%Z)).
      - apply shr_1_nonneg.
      - rewrite E0. lia. }
    destruct (Z_le_gt_dec (-1074) (Zdigits2 m + e - 53)) as [C|C].
    + left. split; [apply Zdigits2_pos; [exact P|lia]|]. split; lia.
    + right. split; [apply Zdigits2_pos; [exact P|lia]|]. repeat split; lia.
  - left. rewrite E0. repeat split; lia.
Qed.

Lemma binary_round_aux_finite (s : bool) (m e : Z) (l : location) :
  (0 < m)%Z -> (-1073 <= Zdigits2 m + e)%Z -> (Zdigits2 m + e <= 1023)%Z ->
  (e <= 971)%Z ->
  exists m' e', binary_round_aux prec emax s m e l = S754_finite s m' e'.
Proof.
  intros Hm Hlo Hhi He. unfold binary_round_aux.
  pose proof (shr_fexp_positive m e l Hm Hlo) as H1. cbv zeta in H1.
  destruct (shr_fexp prec emax m e l) as (mrs', e'). cbn [fst snd] in H1.
  set (m2 := round_nearest_even (shr_m mrs') (loc_of_shr_record mrs')).
  assert (Hm1 : (0 < shr_m mrs')%Z) by (destruct H1 as [H1|H1]; apply H1).
  assert (Hm2 : (shr_m mrs' <= m2 <= shr_m mrs' + 1)%Z).
  { unfold m2, round_nearest_even.
    destruct (loc_of_shr_record mrs') as [|[| |]]; try lia.
    destruct (Z.even (shr_m mrs')); lia. }
  assert (Hd2 : (Zdigits2 (shr_m mrs') <= Zdigits2 m2
                 <= Zdigits2 (shr_m mrs') + 1)%Z).
  { pose proof (Zdigits2_succ (shr_m mrs') ltac:(lia)).
    destruct (Z.eq_dec m2 (shr_m mrs')) as [->|N]; [lia|].
    replace m2 with (shr_m mrs' + 1)%Z by lia. lia. }
  pose proof (shr_fexp_positive m2 e' loc_Exact ltac:(lia)) as H2.
  cbv zeta in H2.
  destruct (shr_fexp prec emax m2 e' loc_Exact) as (mrs'', e'').
  cbn [fst snd] in H2.
  assert (Hlo2 : (-1073 <= Zdigits2 m2 + e')%Z)
    by (destruct H1 as [H1|H1]; lia).
  specialize (H2 Hlo2).
  assert (Hm3 : (0 < shr_m mrs'')%Z) by (destruct H2 as [H2|H2]; apply H2).
  assert (He'' : (e'' <= 971)%Z).
  { destruct H1 as [(_ & A & B)|(_ & A & B & C)];
      destruct H2 as [(_ & A2 & B2)|(_ & A2 & B2 & C2)]; lia. }
  destruct (shr_m mrs'') as [|p|p]; try lia.
  change (emax - prec)%Z with 971%Z.
  destruct (Z.leb_spec e'' 971); [|lia].
  eexists. eexists. reflexivity.
Qed.

Lemma digits2_pos_shift (k m : positive) :
  digits2_pos (Pos.iter xO m k) = (digits2_pos m + k)%positive.
Proof.
  revert m. induction k as [|k IH] using Pos.peano_ind; intros m.
  - cbn. lia.
  - rewrite Pos.iter_succ. cbn [digits2_pos]. rewrite IH. lia.
Qed.


(** *** Array lengths as float64 *)

(** The conversion of a positive count below [2^63] is a positive finite
    number. *)
Lemma binary_round_count (p : positive) :
  (Z.pos p < 2 ^ 63)%Z ->
  exists m e, binary_round prec emax false p 0 = S754_finite false m e.
Proof.
  intros Hp. unfold binary_round, shl_align, fexp, emin.
  change prec with 53%Z. change emax with 1024%Z.
  assert (Hd : (1 <= Z.pos (digits2_pos p) <= 63)%Z).
  { split; [lia|]. change (Z.pos (digits2_pos p)) with (Zdigits2 (Z.pos p)).
    rewrite Zdigits2_log2 by lia.
    pose proof (Z.log2_lt_pow2 (Z.pos p) 63 ltac:(lia)). lia. }
  destruct (Z.max (Z.pos (digits2_pos p) + 0 - 53) (3 - 1024 - 53) - 0)%Z
    as [|k|k] eqn:E.
  - apply binary_round_aux_finite; cbn [Zdigits2]; lia.
  - apply binary_round_aux_finite; cbn [Zdigits2]; lia.
  - apply binary_round_aux_finite; cbn [Zdigits2];
      rewrite ?digits2_pos_shift; lia.
Qed.


(** *** Facts on float64 operations *)

Lemma is_finite_spec (x : float) : is_finite x = true <-> SFfinite (Prim2SF x).
Proof.
  unfold is_finite, is_infinity.
  rewrite FloatAxioms.eqb_spec, FloatAxioms.abs_spec.
  replace (Prim2SF infinity) with (S754_infinity false) by reflexivity.
  destruct (is_nan x) eqn:N.
  - apply is_nan_spec in N. rewrite N. cbn. split; [discriminate | tauto].
  - apply is_nan_false in N.
    destruct (Prim2SF x) as [s|s| |s m e]; cbn; try congruence;
      split; try discriminate; tauto.
Qed.

Lemma nonneg_spec (x : float) : (0 <=? x) = true <-> SFnonneg (Prim2SF x).
Proof.
  rewrite FloatAxioms.leb_spec.
  replace (Prim2SF 0) with (S754_zero false) by reflexivity.
  destruct (Prim2SF x) as [s|s| |s m e]; try destruct s; cbn;
    split; try discriminate; tauto.
Qed.

Lemma nonneg_number (x : float) : (0 <=? x) = true -> is_nan x = false.
Proof. intros H. apply leb_not_nan in H. apply H. Qed.

Lemma is_finite_number (x : float) : is_finite x = true -> is_nan x = false.
Proof.
  rewrite is_finite_spec, is_nan_false.
  destruct (Prim2SF x); cbn; try tauto; discriminate.
Qed.

Lemma float_sub_self (x : float) : is_finite x = true -> x - x = 0.
Proof.
  rewrite is_finite_spec. intros H. apply Prim2SF_inj.
  rewrite FloatAxioms.sub_spec, SFsub_self by exact H. reflexivity.
Qed.

Lemma float_sub_number (x y : float) :
  is_finite x = true -> is_finite y = true -> is_nan (x - y) = false.
Proof.
  rewrite !is_finite_spec, is_nan_false, FloatAxioms.sub_spec.
  apply SFsub_finite.
Qed.

Lemma float_square_nonneg (x : float) :
  is_nan x = false -> (0 <=? x * x) = true.
Proof.
  rewrite is_nan_false, nonneg_spec, FloatAxioms.mul_spec.
  apply SFmul_self_nonneg.
Qed.

Lemma float_add_nonneg (x y : float) :
  (0 <=? x) = true -> (0 <=? y) = true -> (0 <=? x + y) = true.
Proof. rewrite !nonneg_spec, FloatAxioms.add_spec. apply SFadd_nonneg. Qed.

Lemma float_sqrt_nonneg (x : float) :
  (0 <=? x) = true -> (0 <=? sqrt x) = true.
Proof. rewrite !nonneg_spec, FloatAxioms.sqrt_spec. apply SFsqrt_nonneg. Qed.

Lemma float_of_nat_positive (n : nat) :
  (1 <= n)%nat ->
  exists m e, Prim2SF (float_of_nat n) = S754_finite false m e.
Proof.
  intros Hn. unfold float_of_nat.
  rewrite FloatAxioms.of_uint63_spec, Uint63.of_Z_spec.
  change Uint63.wB with (2 ^ 63)%Z.
  rewrite Z.mod_small by lia.
  destruct (Z.min (Z.of_nat n) (2 ^ 63 - 1)) as [|p|p] eqn:E; try lia.
  cbn [binary_normalize]. apply binary_round_count. lia.
Qed.

Lemma float_div_count_nonneg (x : float) (n : nat) :
  (0 <=? x) = true -> (1 <= n)%nat -> (0 <=? x / float_of_nat n) = true.
Proof.
  rewrite !nonneg_spec, FloatAxioms.div_spec. intros Hx Hn.
  destruct (float_of_nat_positive n Hn) as (m & e & ->).
  apply SFdiv_nonneg, Hx.
Qed.

Lemma float_zero_div_count (n : nat) : (1 <= n)%nat -> 0 / float_of_nat n = 0.
Proof.
  intros Hn. apply Prim2SF_inj. rewrite FloatAxioms.div_spec.
  destruct (float_of_nat_positive n Hn) as (m & e & ->). reflexivity.
Qed.

Lemma binary_round_aux_opp (s : bool) (m e : Z) (l : location) :
  binary_round_aux prec emax (negb s) m e l
  = SFopp (binary_round_aux prec emax s m e l).
Proof.
  unfold binary_round_aux.
  destruct (shr_fexp prec emax m e l) as (mrs', e').
  destruct (shr_fexp prec emax _ e' loc_Exact) as (mrs'', e'').
  destruct (shr_m mrs''); try reflexivity.
  destruct (e'' <=? emax - prec)%Z; reflexivity.
Qed.

Lemma binary_normalize_opp (m e : Z) :
  m <> 0%Z ->
  binary_normalize prec emax (- m) e false
  = SFopp (binary_normalize prec emax m e false).
Proof.
  intros Hm. destruct m as [|p|p]; [congruence| |];
    cbn [binary_normalize Z.opp]; unfold binary_round;
    destruct (shl_align p e _) as (mz, ez).
  - apply (binary_round_aux_opp false).
  - rewrite (binary_round_aux_opp false). 
    destruct (binary_round_aux prec emax false (Z.pos mz) ez loc_Exact)
      as [s|s| |s m e']; try destruct s; reflexivity.
Qed.

Lemma SFsub_swap (x y : spec_float) :
  SF64sub y x = SFopp (SF64sub x y) \/
  (SF64sub x y = S754_zero false /\ SF64sub y x = S754_zero false).
Proof.
  destruct x as [sx|sx| |sx mx ex], y as [sy|sy| |sy my ey];
    try destruct sx; try destruct sy; cbn -[binary_normalize Z.sub];
    try (left; reflexivity); try (right; split; reflexivity);
    rewrite (Z.min_comm ey ex);
    match goal with
    | |- binary_normalize _ _ (?b - ?a) _ _ = _ \/ _ =>
        destruct (Z.eq_dec (a - b) 0) as [E|E];
        [right; replace (b - a)%Z with 0%Z by lia; rewrite E; split; reflexivity
        |left; replace (b - a)%Z with (- (a - b))%Z by lia;
         apply binary_normalize_opp, E]
    end.
Qed.

Lemma SFmul_opp_self (d : spec_float) :
  SF64mul (SFopp d) (SFopp d) = SF64mul d d.
Proof. destruct d as [s|s| |s m e]; try destruct s; reflexivity. Qed.

Lemma float_square_sub_swap (x y : float) :
  (x - y) * (x - y) = (y - x) * (y - x).
Proof.
  apply Prim2SF_inj. rewrite !FloatAxioms.mul_spec, !FloatAxioms.sub_spec.
  destruct (SFsub_swap (Prim2SF x) (Prim2SF y)) as [E|(E & E')].
  - rewrite E, SFmul_opp_self. reflexivity.
  - rewrite E, E'. reflexivity.
Qed.

End Float64Facts.

(* ================================================================= *)
(** ** Arrays *)

Section EngineFacts.

Local Open Scope float_scope.

Variable correlate_lag : list float -> list float -> nat -> float.
Variable np_sum : list float -> float.

Lemma sample_cons (x : float) (a : list float) (i : nat) :
  sample (x :: a) (S i) = sample a i.
Proof. reflexivity. Qed.

Lemma segment_length (a : list float) (k m : nat) :
  length (segment a k m) = m.
Proof. unfold segment, range. rewrite length_map, length_seq. reflexivity. Qed.

Lemma sample_segment (a : list float) (k m l : nat) :
  (l < m)%nat -> sample (segment a k m) l = sample a (k + l).
Proof.
  intros H. unfold sample at 1, segment, range.
  rewrite (nth_indep _ 0 (sample a (k + 0)))
    by (rewrite length_map, length_seq; exact H).
  rewrite (map_nth (fun l => sample a (k + l))), seq_nth by exact H.
  reflexivity.
Qed.

Lemma list_eq_samples (a b : list float) :
  length a = length b ->
  (forall i, (i < length a)%nat -> sample a i = sample b i) -> a = b.
Proof.
  intros Hlen H. apply (nth_ext a b 0 0 Hlen). exact H.
Qed.

Lemma py_slice_segment (a : list float) (k m : nat) :
  (k + m <= length a)%nat -> py_slice a k (k + m) = segment a k m.
Proof.
  intros H. unfold py_slice. replace (k + m - k)%nat with m by lia.
  apply list_eq_samples.
  - rewrite segment_length, length_firstn, length_skipn. lia.
  - intros i Hi. rewrite length_firstn, length_skipn in Hi.
    rewrite sample_segment by lia. unfold sample.
    rewrite nth_firstn.
    destruct (Nat.ltb_spec i m) as [_|Hge]; [|lia].
    rewrite nth_skipn. reflexivity.
Qed.

Lemma segment_whole (a : list float) : segment a 0 (length a) = a.
Proof.
  apply list_eq_samples; [apply segment_length|].
  rewrite segment_length. intros i Hi. apply sample_segment, Hi.
Qed.

Lemma sample_finite (a : list float) (i : nat) :
  all_finite a -> is_finite (sample a i) = true.
Proof.
  intros H. unfold sample.
  destruct (Nat.lt_ge_cases i (length a)) as [Hi|Hi].
  - unfold all_finite in H. rewrite Forall_forall in H. apply H, nth_In, Hi.
  - rewrite nth_overflow by exact Hi. reflexivity.
Qed.

Lemma segment_finite (a : list float) (k m : nat) :
  all_finite a -> all_finite (segment a k m).
Proof.
  intros H. unfold all_finite, segment. apply Forall_map, Forall_forall.
  intros l _. apply sample_finite, H.
Qed.

Lemma slide_length (big small : list float) :
  length (slide correlate_lag big small) = valid_offsets big small.
Proof.
  unfold slide, range, valid_offsets. rewrite length_map, length_seq.
  reflexivity.
Qed.

Lemma sample_slide (obs syn : list float) (k : nat) :
  (k < valid_offsets obs syn)%nat ->
  sample (slide correlate_lag obs syn) k = correlate_lag obs syn k.
Proof.
  unfold valid_offsets. intros Hk. unfold sample, slide, range.
  rewrite (nth_indep _ 0 (correlate_lag obs syn O))
    by (rewrite length_map, length_seq; exact Hk).
  rewrite (map_nth (correlate_lag obs syn)).
  rewrite seq_nth by exact Hk. reflexivity.
Qed.

(* ================================================================= *)
(** ** argmax *)

Lemma argmax_from_spec (g : nat -> float) (l : list float) :
  forall (best_i i : nat) (best : float),
    (best_i < i)%nat ->
    g best_i = best ->
    (forall j, (j < length l)%nat -> g (i + j)%nat = nth j l 0) ->
    (forall j, (j < i)%nat -> (g j <=? best) = true) ->
    (forall j, (j < best_i)%nat -> (g j <? best) = true) ->
    first_peak g (i + length l) (argmax_from best_i best i l).
Proof.
  induction l as [|x l IH]; intros best_i i best Hlt Hbest Hl Hmax Hfirst.
  - simpl. rewrite Nat.add_0_r. subst best. right. repeat split; auto.
  - cbn [argmax_from length].
    assert (Hx : g i = x)
      by (rewrite <- (Nat.add_0_r i); apply (Hl O); simpl; lia).
    assert (Htl : forall j, (j < length l)%nat -> g (S i + j)%nat = nth j l 0).
    { intros j Hj. replace (S i + j)%nat with (i + S j)%nat by lia.
      apply (Hl (S j)). simpl. lia. }
    assert (Hnum : is_nan best = false)
      by (apply (leb_not_nan (g best_i)), Hmax, Hlt).
    replace (i + S (length l))%nat with (S i + length l)%nat by lia.
    destruct (x <=? best) eqn:Hle.
    + apply IH; auto.
      intros j Hj. destruct (Nat.eq_dec j i) as [->|]; [congruence|].
      apply Hmax. lia.
    + destruct (is_nan x) eqn:Hnan.
      * left. repeat split; [lia | congruence |].
        intros j Hj. apply (leb_not_nan (g j) best), Hmax, Hj.
      * assert (Hbx : (best <? x) = true)
          by (apply leb_false_ltb; assumption).
        apply IH; auto.
        -- intros j Hj. destruct (Nat.eq_dec j i) as [->|].
           ++ rewrite Hx. apply leb_refl, Hnan.
           ++ apply ltb_leb, (leb_ltb_trans _ best); [apply Hmax; lia | exact Hbx].
        -- intros j Hj. apply (leb_ltb_trans _ best); [apply Hmax, Hj | exact Hbx].
Qed.

Lemma np_argmax_spec (l : list float) :
  l <> [] ->
  exists k, np_argmax l = Ok k /\ first_peak (sample l) (length l) k.
Proof.
  destruct l as [|x l]; [congruence|]. intros _. cbn [np_argmax].
  destruct (is_nan x) eqn:Hnan.
  - exists O. split; [reflexivity|]. left.
    repeat split; [simpl; lia | exact Hnan | intros j Hj; lia].
  - exists (argmax_from 0 x 1 l). split; [reflexivity|].
    change (length (x :: l)) with (1 + length l)%nat.
    apply argmax_from_spec.
    + lia.
    + reflexivity.
    + intros j Hj. reflexivity.
    + intros j Hj. replace j with O by lia. apply leb_refl, Hnan.
    + intros j Hj. lia.
Qed.

Lemma first_peak_ext (f g : nat -> float) (n k : nat) :
  (forall i, (i < n)%nat -> f i = g i) ->
  first_peak f n k -> first_peak g n k.
Proof.
  intros E [(Hk & Hnan & Hfirst)|(Hk & Hmax & Hfirst)]; [left|right];
    repeat split; try exact Hk.
  - rewrite <- E by exact Hk. exact Hnan.
  - intros j Hj. rewrite <- E by lia. apply Hfirst, Hj.
  - intros j Hj. rewrite <- !E by lia. apply Hmax, Hj.
  - intros j Hj. rewrite <- !E by lia. apply Hfirst, Hj.
Qed.

Lemma first_maximizer_unique (f : nat -> float) (n k k' : nat) :
  first_maximizer f n k -> first_maximizer f n k' -> k = k'.
Proof.
  intros (Hk & Hmax & Hfirst) (Hk' & Hmax' & Hfirst').
  destruct (Nat.lt_trichotomy k k') as [H|[H|H]]; [|exact H|].
  - specialize (Hfirst' k H). specialize (Hmax k' Hk').
    apply ltb_not_leb in Hfirst'. congruence.
  - specialize (Hfirst k' H). specialize (Hmax' k Hk).
    apply ltb_not_leb in Hfirst. congruence.
Qed.

Lemma first_nan_unique (f : nat -> float) (n k k' : nat) :
  first_nan f n k -> first_nan f n k' -> k = k'.
Proof.
  intros (Hk & Hnan & Hfirst) (Hk' & Hnan' & Hfirst').
  destruct (Nat.lt_trichotomy k k') as [H|[H|H]]; [|exact H|].
  - specialize (Hfirst' k H). congruence.
  - specialize (Hfirst k' H). congruence.
Qed.

Lemma first_peak_unique (f : nat -> float) (n k k' : nat) :
  first_peak f n k -> first_peak f n k' -> k = k'.
Proof.
  intros [H|H] [H'|H'].
  - apply (first_nan_unique f n); assumption.
  - exfalso. destruct H as (Hk & Hnan & _), H' as (_ & Hmax & _).
    specialize (Hmax k Hk). apply leb_not_nan in Hmax. destruct Hmax. congruence.
  - exfalso. destruct H' as (Hk & Hnan & _), H as (_ & Hmax & _).
    specialize (Hmax k' Hk). apply leb_not_nan in Hmax. destruct Hmax. congruence.
  - apply (first_maximizer_unique f n); assumption.
Qed.

Lemma first_peak_bound (f : nat -> float) (n k : nat) :
  first_peak f n k -> (k < n)%nat.
Proof. intros [H|H]; apply H. Qed.

Lemma correlate_valid_ok (obs syn : list float) :
  (1 <= length syn)%nat -> (length syn <= length obs)%nat ->
  correlate_valid correlate_lag obs syn = Ok (slide correlate_lag obs syn).
Proof.
  intros H1 H2. unfold correlate_valid.
  destruct obs as [|o obs]; [simpl in *; lia|].
  destruct syn as [|s syn]; [simpl in *; lia|].
  destruct (Nat.leb_spec (length (s :: syn)) (length (o :: obs)));
    [reflexivity|lia].
Qed.

Lemma align_spec (obs syn : list float) :
  (1 <= length syn)%nat -> (length syn <= length obs)%nat ->
  exists k,
    first_peak (correlate_lag obs syn) (valid_offsets obs syn) k /\
    correlate_and_shift_waveforms correlate_lag obs syn
    = Ok (segment obs k (length syn)).
Proof.
  intros H1 H2. unfold correlate_and_shift_waveforms.
  rewrite correlate_valid_ok by assumption. cbn [bind].
  destruct (np_argmax_spec (slide correlate_lag obs syn)) as (k & Hk & Hmax).
  { intros E. apply (f_equal (@length float)) in E. rewrite slide_length in E.
    unfold valid_offsets in E. simpl in E. lia. }
  rewrite Hk. cbn [bind]. rewrite slide_length in Hmax.
  exists k. split.
  - apply (first_peak_ext (sample (slide correlate_lag obs syn))); [|exact Hmax].
    intros i Hi. apply sample_slide; assumption.
  - f_equal. apply py_slice_segment.
    apply first_peak_bound in Hmax. unfold valid_offsets in Hmax. lia.
Qed.

(* ================================================================= *)
(** ** RMS misfit *)

Lemma zip_sub_length (a b : list float) :
  length a = length b -> length (zip_sub a b) = length b.
Proof.
  revert b. induction a as [|x a IH]; intros [|y b] H; try discriminate; simpl.
  - reflexivity.
  - rewrite IH by (simpl in H; lia). reflexivity.
Qed.

Lemma sample_zip_sub (a b : list float) (i : nat) :
  length a = length b -> (i < length a)%nat ->
  sample (zip_sub a b) i = sample a i - sample b i.
Proof.
  revert b i. induction a as [|x a IH]; intros [|y b] i H Hi; try discriminate.
  - simpl in Hi. lia.
  - destruct i as [|i]; [reflexivity|].
    simpl zip_sub. rewrite !sample_cons. apply IH; simpl in *; lia.
Qed.

Lemma sample_map (f : float -> float) (a : list float) (i : nat) :
  (i < length a)%nat -> sample (map f a) i = f (sample a i).
Proof.
  intros Hi. unfold sample.
  rewrite (nth_indep _ 0 (f 0)) by (rewrite length_map; exact Hi).
  apply map_nth.
Qed.

Lemma sample_range_map (f : nat -> float) (n i : nat) :
  (i < n)%nat -> sample (map f (range n)) i = f i.
Proof.
  intros Hi. unfold sample, range.
  rewrite (nth_indep _ 0 (f O)) by (rewrite length_map, length_seq; exact Hi).
  rewrite (map_nth f), seq_nth by exact Hi. reflexivity.
Qed.

(** The difference NumPy forms, squared, is the list of the squared
    differences of the samples that broadcasting pairs. *)
Lemma np_subtract_square (obs syn : list float) :
  broadcastable (length obs) (length syn) ->
  exists d, np_subtract obs syn = Ok d /\
            np_square d = squared_differences obs syn.
Proof.
  intros Hb. unfold np_subtract, squared_differences, broadcast_length,
    broadcast_sample, np_square.
  destruct (Nat.eqb_spec (length obs) (length syn)) as [E|N].
  - eexists. split; [reflexivity|]. apply list_eq_samples.
    + rewrite !length_map, zip_sub_length by exact E.
      unfold range. rewrite length_seq. symmetry. exact E.
    + rewrite length_map, zip_sub_length by exact E. intros i Hi.
      rewrite sample_map by (rewrite zip_sub_length by exact E; exact Hi).
      rewrite sample_range_map by lia.
      rewrite sample_zip_sub by lia. rewrite <- E.
      destruct (Nat.eqb_spec (length obs) 1) as [E1|_]; [|reflexivity].
      replace i with O by lia. reflexivity.
  - destruct (Nat.eqb_spec (length syn) 1) as [E1|N1].
    + eexists. split; [reflexivity|]. apply list_eq_samples.
      * rewrite !length_map. unfold range. rewrite length_seq. reflexivity.
      * rewrite !length_map. intros i Hi.
        rewrite sample_map by (rewrite length_map; exact Hi).
        rewrite sample_map by exact Hi.
        rewrite sample_range_map by exact Hi.
        destruct (Nat.eqb_spec (length obs) 1); [lia|]. reflexivity.
    + destruct Hb as [Hb|[Hb|Hb]]; try lia.
      rewrite Hb. cbn [Nat.eqb].
      eexists. split; [reflexivity|]. apply list_eq_samples.
      * rewrite !length_map. unfold range. rewrite length_seq. reflexivity.
      * rewrite !length_map. intros i Hi.
        rewrite sample_map by (rewrite length_map; exact Hi).
        rewrite sample_map by exact Hi.
        rewrite sample_range_map by exact Hi. reflexivity.
Qed.

Lemma rms_value (obs syn : list float) :
  broadcastable (length obs) (length syn) ->
  calculate_rms_misfit np_sum obs syn = Ok (rms_formula np_sum obs syn).
Proof.
  intros Hb. unfold calculate_rms_misfit, rms_formula.
  destruct (np_subtract_square obs syn Hb) as (d & -> & <-). reflexivity.
Qed.


Lemma squared_differences_same (a : list float) :
  all_finite a ->
  squared_differences a a = repeat 0 (length a).
Proof.
  intros Hf. unfold squared_differences, broadcast_length.
  rewrite Nat.eqb_refl. apply list_eq_samples.
  - unfold range. rewrite length_map, length_seq, repeat_length. reflexivity.
  - unfold range at 1. rewrite length_map, length_seq. intros i Hi.
    rewrite sample_range_map by exact Hi.
    replace (sample (repeat 0 (length a)) i) with 0
      by (unfold sample; rewrite nth_repeat; reflexivity).
    rewrite float_sub_self; [reflexivity|].
    unfold broadcast_sample. destruct (length a =? 1)%nat; apply sample_finite, Hf.
Qed.

Lemma squared_differences_nonneg (a b : list float) :
  all_finite a -> all_finite b ->
  Forall (fun x => (0 <=? x) = true) (squared_differences a b).
Proof.
  intros Ha Hb. unfold squared_differences. apply Forall_map, Forall_forall.
  intros l _. apply float_square_nonneg, float_sub_number;
    unfold broadcast_sample.
  - destruct (length a =? 1)%nat; apply sample_finite, Ha.
  - destruct (length b =? 1)%nat; apply sample_finite, Hb.
Qed.

Lemma rms_formula_same (a : list float) :
  sums_zeros np_sum -> a <> [] -> all_finite a -> rms_formula np_sum a a = 0.
Proof.
  intros Hz Ha Hf. unfold rms_formula.
  rewrite squared_differences_same, Hz by exact Hf.
  rewrite float_zero_div_count; [reflexivity|].
  destruct a; [congruence | simpl; lia].
Qed.

Lemma rms_formula_nonneg (a b : list float) :
  sums_nonneg np_sum -> (1 <= length b)%nat -> all_finite a -> all_finite b ->
  (0 <=? rms_formula np_sum a b) = true.
Proof.
  intros Hn Hb Hfa Hfb. unfold rms_formula.
  apply float_sqrt_nonneg, float_div_count_nonneg; [|exact Hb].
  apply Hn, squared_differences_nonneg; assumption.
Qed.


(* ================================================================= *)
(** ** The summed misfit of a model *)

Lemma for_each_app {X St : Type} (xs ys : list X)
  (body : X -> St -> result St) (s : St) :
  for_each (xs ++ ys) body s = (s' <- for_each xs body s ;; for_each ys body s').
Proof.
  revert s. induction xs as [|x xs IH]; intros s; simpl; [reflexivity|].
  destruct (body x s); simpl; [apply IH | reflexivity].
Qed.

Lemma for_each_range_accumulate (body : nat -> float -> result float)
  (g : nat -> float) (n : nat) :
  (forall i acc, (i < n)%nat -> body i acc = Ok (acc + g i)) ->
  forall a, for_each (range n) body a = Ok (accumulate g n a).
Proof.
  unfold range. induction n as [|n IH]; intros H a.
  - reflexivity.
  - rewrite seq_S, for_each_app, IH by (intros; apply H; lia).
    cbn [bind for_each Nat.add]. rewrite H by lia. reflexivity.
Qed.

Lemma for_each_range_accumulate2 (body : nat -> float -> result float)
  (f : nat -> nat -> float) (c n : nat) :
  (forall i acc, (i < n)%nat -> body i acc = Ok (accumulate (f i) c acc)) ->
  forall a, for_each (range n) body a = Ok (accumulate2 f n c a).
Proof.
  unfold range. induction n as [|n IH]; intros H a.
  - reflexivity.
  - rewrite seq_S, for_each_app, IH by (intros; apply H; lia).
    cbn [bind for_each Nat.add]. rewrite H by lia. reflexivity.
Qed.

Lemma accumulate_nonneg (f : nat -> float) (n : nat) (acc : float) :
  (0 <=? acc) = true ->
  (forall i, (i < n)%nat -> (0 <=? f i) = true) ->
  (0 <=? accumulate f n acc) = true.
Proof.
  intros Ha. induction n as [|n IH]; intros Hf; cbn [accumulate]; [exact Ha|].
  apply float_add_nonneg; [apply IH; intros; apply Hf; lia | apply Hf; lia].
Qed.

Lemma accumulate2_nonneg (f : nat -> nat -> float) (s c : nat) (acc : float) :
  (0 <=? acc) = true ->
  (forall i j, (i < s)%nat -> (j < c)%nat -> (0 <=? f i j) = true) ->
  (0 <=? accumulate2 f s c acc) = true.
Proof.
  intros Ha. induction s as [|s IH]; intros Hf; cbn [accumulate2]; [exact Ha|].
  apply accumulate_nonneg.
  - apply IH. intros; apply Hf; lia.
  - intros j Hj. apply Hf; lia.
Qed.

Lemma index2_shape (a : list (list (list float))) (s c n i j : nat) :
  has_shape3 a s c n -> (i < s)%nat -> (j < c)%nat ->
  index2 a i j = Ok (trace_at a i j) /\ length (trace_at a i j) = n.
Proof.
  intros (Hs & Hall) Hi Hj. unfold index2, index1, trace_at.
  rewrite Forall_forall in Hall.
  assert (Hin : In (nth i a []) a) by (apply nth_In; lia).
  destruct (Hall _ Hin) as (Hc & Hrows).
  rewrite (nth_error_nth' a []) by lia. cbn [bind].
  rewrite (nth_error_nth' (nth i a []) []) by lia.
  split; [reflexivity|].
  rewrite Forall_forall in Hrows. apply Hrows, nth_In. lia.
Qed.

Lemma channel_misfit_value (obs syn : list float) :
  (1 <= length syn)%nat -> (length syn <= length obs)%nat ->
  exists k,
    first_peak (correlate_lag obs syn) (valid_offsets obs syn) k /\
    channel_misfit correlate_lag np_sum obs syn
    = Ok (rms_formula np_sum (segment obs k (length syn)) syn).
Proof.
  intros H1 H2. destruct (align_spec obs syn H1 H2) as (k & Hk & E).
  exists k. split; [exact Hk|]. unfold channel_misfit. rewrite E. cbn [bind].
  apply rms_value. left. apply segment_length.
Qed.

(** The misfit summed over the first [k] stations when both records hold
    at least that many. *)
Lemma stations_loop (obs_data syn_data : list (list (list float)))
  (s s' n m k : nat) :
  has_shape3 obs_data s 4 n -> has_shape3 syn_data s' 4 m ->
  (1 <= m)%nat -> (m <= n)%nat -> (k <= s)%nat -> (k <= s')%nat ->
  forall acc,
    for_each (range k)
      (fun i misfit =>
         for_each (range 3)
           (fun j misfit =>
              syn_trace <- index2 syn_data i (j + 1) ;;
              obs_full <- index2 obs_data i (j + 1) ;;
              obs_trace <- correlate_and_shift_waveforms correlate_lag
                             obs_full syn_trace ;;
              r <- calculate_rms_misfit np_sum obs_trace syn_trace ;;
              Ok (misfit + r))
           misfit)
      acc
    = Ok (accumulate2 (channel_value correlate_lag np_sum obs_data syn_data)
            k 3 acc).
Proof.
  intros Hobs Hsyn Hm Hmn Hk Hk' acc.
  apply for_each_range_accumulate2. intros i a Hi.
  apply for_each_range_accumulate. intros j a' Hj.
  destruct (index2_shape _ _ _ _ i (j + 1) Hobs) as (Eo & Lo); try lia.
  destruct (index2_shape _ _ _ _ i (j + 1) Hsyn) as (Es & Ls); try lia.
  rewrite Es, Eo. cbn [bind].
  destruct (channel_misfit_value (trace_at obs_data i (j + 1))
              (trace_at syn_data i (j + 1))) as (o & _ & E); try lia.
  unfold channel_value. rewrite E. unfold channel_misfit in E.
  destruct (correlate_and_shift_waveforms _ _ _) as [seg|e]; [|discriminate].
  cbn [bind] in *. rewrite E. reflexivity.
Qed.

(* ================================================================= *)
(** ** Claims on the alignment and misfit engine *)

(** C1, amended: for an observed trace at least as long as a non-empty
    synthetic trace, [correlate_and_shift_waveforms] returns the
    contiguous sub-segment of the observed trace that is as long as the
    synthetic one and starts where [np.argmax] points in the float64
    correlation SciPy returns: at the first offset whose correlation is
    NaN, and when there is none at the lowest of the offsets at which the
    correlation, as rounded, is largest. *)
Theorem correlate_and_shift_waveforms_first_peak (obs syn : list float) :
  (1 <= length syn)%nat -> (length syn <= length obs)%nat ->
  exists k,
    first_peak (correlate_lag obs syn) (valid_offsets obs syn) k /\
    ((forall j, (j < valid_offsets obs syn)%nat ->
                is_nan (correlate_lag obs syn j) = false) ->
     first_maximizer (correlate_lag obs syn) (valid_offsets obs syn) k) /\
    (k + length syn <= length obs)%nat /\
    (forall k', first_peak (correlate_lag obs syn) (valid_offsets obs syn) k' ->
                k' = k) /\
    correlate_and_shift_waveforms correlate_lag obs syn
    = Ok (segment obs k (length syn)) /\
    length (segment obs k (length syn)) = length syn.
Proof.
  intros H1 H2. destruct (align_spec obs syn H1 H2) as (k & Hk & E).
  exists k. split; [exact Hk|]. split; [|split; [|split; [|split]]].
  - intros Hnum. destruct Hk as [(Hk & Hnan & _)|Hk]; [|exact Hk].
    rewrite Hnum in Hnan by exact Hk. discriminate.
  - apply first_peak_bound in Hk. unfold valid_offsets in Hk. lia.
  - intros k' Hk'. apply (first_peak_unique _ _ _ _ Hk' Hk).
  - exact E.
  - apply segment_length.
Qed.



(** C4, amended: for an observed record of shape [(s, 4, n)] and a
    synthetic record of shape [(s, 4, m)] with [1 <= m <= n],
    [calculate_summed_model_misfit] returns the float64 that results from
    adding to 0, in the order of the stations and of the 3 velocity
    channels, the per-channel RMS misfits, each of them the RMS misfit
    between the synthetic trace and the window of the observed trace where
    [np.argmax] points in their correlation; when the velocity samples of
    both records are finite every one of these misfits and their sum are
    numbers that are not negative. *)
Theorem calculate_summed_model_misfit_sum
  (obs_data syn_data : list (list (list float))) (s n m : nat) :
  has_shape3 obs_data s 4 n -> has_shape3 syn_data s 4 m ->
  (1 <= m)%nat -> (m <= n)%nat ->
  (forall i j, (i < s)%nat -> (j < 3)%nat ->
     exists k,
       first_peak (correlate_lag (trace_at obs_data i (j + 1))
                                 (trace_at syn_data i (j + 1)))
                  (valid_offsets (trace_at obs_data i (j + 1))
                                 (trace_at syn_data i (j + 1))) k /\
       channel_misfit correlate_lag np_sum
         (trace_at obs_data i (j + 1)) (trace_at syn_data i (j + 1))
       = Ok (channel_value correlate_lag np_sum obs_data syn_data i j) /\
       channel_value correlate_lag np_sum obs_data syn_data i j
       = rms_formula np_sum (segment (trace_at obs_data i (j + 1)) k m)
                     (trace_at syn_data i (j + 1))) /\
  calculate_summed_model_misfit correlate_lag np_sum obs_data syn_data
  = Ok (accumulate2 (channel_value correlate_lag np_sum obs_data syn_data)
          s 3 0) /\
  (sums_nonneg np_sum ->
   finite_velocities obs_data s -> finite_velocities syn_data s ->
   (forall i j, (i < s)%nat -> (j < 3)%nat ->
      (0 <=? channel_value correlate_lag np_sum obs_data syn_data i j) = true) /\
   (0 <=? accumulate2 (channel_value correlate_lag np_sum obs_data syn_data)
            s 3 0) = true).
Proof.
  intros Hobs Hsyn Hm Hmn.
  assert (Hch : forall i j, (i < s)%nat -> (j < 3)%nat ->
     exists k,
       first_peak (correlate_lag (trace_at obs_data i (j + 1))
                                 (trace_at syn_data i (j + 1)))
                  (valid_offsets (trace_at obs_data i (j + 1))
                                 (trace_at syn_data i (j + 1))) k /\
       channel_misfit correlate_lag np_sum
         (trace_at obs_data i (j + 1)) (trace_at syn_data i (j + 1))
       = Ok (channel_value correlate_lag np_sum obs_data syn_data i j) /\
       channel_value correlate_lag np_sum obs_data syn_data i j
       = rms_formula np_sum (segment (trace_at obs_data i (j + 1)) k m)
                     (trace_at syn_data i (j + 1))).
  { intros i j Hi Hj.
    destruct (index2_shape _ _ _ _ i (j + 1) Hobs Hi) as (_ & Lo); [lia|].
    destruct (index2_shape _ _ _ _ i (j + 1) Hsyn Hi) as (_ & Ls); [lia|].
    destruct (channel_misfit_value (trace_at obs_data i (j + 1))
                (trace_at syn_data i (j + 1))) as (k & Hk & E); try lia.
    exists k. unfold channel_value. rewrite E, Ls. auto. }
  split; [exact Hch|]. split.
  - unfold calculate_summed_model_misfit.
    replace (length obs_data) with s by (symmetry; apply Hobs).
    apply (stations_loop obs_data syn_data s s n m s); auto.
  - intros Hn Hfo Hfs.
    assert (Hpos : forall i j, (i < s)%nat -> (j < 3)%nat ->
      (0 <=? channel_value correlate_lag np_sum obs_data syn_data i j) = true).
    { intros i j Hi Hj. destruct (Hch i j Hi Hj) as (k & _ & _ & ->).
      destruct (index2_shape _ _ _ _ i (j + 1) Hsyn Hi) as (_ & Ls); [lia|].
      apply rms_formula_nonneg; try assumption; try lia.
      - apply segment_finite, Hfo; assumption.
      - apply Hfs; assumption. }
    split; [exact Hpos|].
    apply accumulate2_nonneg; [reflexivity | exact Hpos].
Qed.

(* ================================================================= *)
(** ** More on the alignment *)

Lemma np_argmax_total (l : list float) :
  l <> [] -> exists k, np_argmax l = Ok k.
Proof.
  destruct l as [|x l]; [congruence|]. intros _. cbn [np_argmax].
  destruct (is_nan x); eexists; reflexivity.
Qed.

Lemma py_slice_length {A : Type} (a : list A) (k m : nat) :
  length (py_slice a k (k + m)) = Nat.min m (length a - k).
Proof.
  unfold py_slice. rewrite length_firstn, length_skipn.
  replace (k + m - k)%nat with m by lia. reflexivity.
Qed.

Lemma align_same_length (obs syn : list float) :
  length obs = length syn -> (1 <= length syn)%nat ->
  correlate_and_shift_waveforms correlate_lag obs syn = Ok obs.
Proof.
  intros Hlen Hpos.
  destruct (align_spec obs syn) as (k & Hk & E); try lia.
  apply first_peak_bound in Hk.
  unfold valid_offsets in Hk. assert (k = O) by lia. subst k.
  rewrite E, <- Hlen, segment_whole. reflexivity.
Qed.

(** When both traces are equally long there is a single offset, and the
    observed trace comes back as it is. *)
Theorem correlate_and_shift_waveforms_equal_length (obs syn : list float) :
  length obs = length syn -> (1 <= length syn)%nat ->
  correlate_and_shift_waveforms correlate_lag obs syn = Ok obs.
Proof. apply align_same_length. Qed.

(** The outcome of the alignment on any two traces: a [ValueError] exactly
    when one of them has no sample; otherwise a segment that is as long as
    the synthetic trace when the observed one is at least as long, and
    strictly shorter when it is not. *)
Theorem correlate_and_shift_waveforms_outcome (obs syn : list float) :
  match correlate_and_shift_waveforms correlate_lag obs syn with
  | Ok seg =>
      obs <> [] /\ syn <> [] /\
      ((length syn <= length obs)%nat -> length seg = length syn) /\
      ((length obs < length syn)%nat -> (length seg < length syn)%nat)
  | Raise e => e = ValueError /\ (obs = [] \/ syn = [])
  end.
Proof.
  destruct obs as [|o obs]; [simpl; auto|].
  destruct syn as [|s syn]; [simpl; auto|].
  unfold correlate_and_shift_waveforms, correlate_valid.
  set (ob := o :: obs). set (sy := s :: syn).
  assert (HO : (1 <= length ob)%nat) by (simpl; lia).
  assert (HS : (1 <= length sy)%nat) by (simpl; lia).
  destruct (Nat.leb_spec (length sy) (length ob)) as [Hle|Hlt]; cbn [bind].
  - destruct (np_argmax_spec (slide correlate_lag ob sy)) as (k & Ek & Hk).
    { intros E. apply (f_equal (@length float)) in E. rewrite slide_length in E.
      unfold valid_offsets in E. simpl in E. lia. }
    rewrite Ek. cbn [bind]. rewrite slide_length in Hk.
    apply first_peak_bound in Hk. unfold valid_offsets in Hk.
    repeat split; try discriminate.
    + intros _. rewrite py_slice_length. lia.
    + lia.
  - destruct (np_argmax_total (rev (slide correlate_lag sy ob))) as (k & Ek).
    { intros E. apply (f_equal (@length float)) in E.
      rewrite length_rev, slide_length in E.
      unfold valid_offsets in E. simpl in E. lia. }
    rewrite Ek. cbn [bind].
    repeat split; try discriminate.
    + lia.
    + intros _. rewrite py_slice_length. lia.
Qed.

(* ================================================================= *)
(** ** More on the RMS misfit *)

Lemma np_square_zip_sub_swap (a b : list float) :
  np_square (zip_sub a b) = np_square (zip_sub b a).
Proof.
  revert b. induction a as [|x a IH]; intros [|y b]; try reflexivity.
  cbn [zip_sub np_square map]. f_equal; [apply float_square_sub_swap|].
  apply IH.
Qed.

(** The RMS misfit of two equally long traces does not depend on which
    one is called observed. *)
Theorem calculate_rms_misfit_symmetric (a b : list float) :
  length a = length b ->
  calculate_rms_misfit np_sum a b = calculate_rms_misfit np_sum b a.
Proof.
  intros H. unfold calculate_rms_misfit, np_subtract.
  rewrite H, Nat.eqb_refl. cbn [bind].
  rewrite np_square_zip_sub_swap. reflexivity.
Qed.

(** Traces of different lengths are refused with a [ValueError] only when
    neither of them has exactly one sample; no other exception leaves
    [calculate_rms_misfit]. *)
Theorem calculate_rms_misfit_raises (obs syn : list float) :
  match calculate_rms_misfit np_sum obs syn with
  | Raise e =>
      e = ValueError /\ length obs <> length syn /\
      length obs <> 1%nat /\ length syn <> 1%nat
  | Ok _ =>
      length obs = length syn \/ length syn = 1%nat \/ length obs = 1%nat
  end.
Proof.
  unfold calculate_rms_misfit, np_subtract.
  destruct (Nat.eqb_spec (length obs) (length syn)); cbn [bind]; [auto|].
  destruct (Nat.eqb_spec (length syn) 1); cbn [bind]; [auto|].
  destruct (Nat.eqb_spec (length obs) 1); cbn [bind]; auto.
Qed.

(* ================================================================= *)
(** ** More on the summed misfit *)

Lemma for_each_ext {X St : Type} (xs : list X)
  (f g : X -> St -> result St) :
  (forall x s, In x xs -> f x s = g x s) ->
  forall s, for_each xs f s = for_each xs g s.
Proof.
  induction xs as [|x xs IH]; intros H s; simpl; [reflexivity|].
  rewrite (H x s) by (left; reflexivity).
  destruct (g x s); simpl; [|reflexivity].
  apply IH. intros y t Hy. apply H. right. exact Hy.
Qed.

Lemma in_range (i n : nat) : In i (range n) <-> (i < n)%nat.
Proof. unfold range. rewrite in_seq. lia. Qed.

Lemma accumulate_ext (f g : nat -> float) (n : nat) (acc : float) :
  (forall i, (i < n)%nat -> f i = g i) ->
  accumulate f n acc = accumulate g n acc.
Proof.
  induction n as [|n IH]; intros H; cbn [accumulate]; [reflexivity|].
  rewrite IH by (intros; apply H; lia). rewrite H by lia. reflexivity.
Qed.

Lemma accumulate2_ext (f g : nat -> nat -> float) (s c : nat) (acc : float) :
  (forall i j, (i < s)%nat -> (j < c)%nat -> f i j = g i j) ->
  accumulate2 f s c acc = accumulate2 g s c acc.
Proof.
  induction s as [|s IH]; intros H; cbn [accumulate2]; [reflexivity|].
  rewrite IH by (intros; apply H; lia).
  apply accumulate_ext. intros j Hj. apply H; lia.
Qed.

Lemma accumulate_zeros (f : nat -> float) (n : nat) :
  (forall i, (i < n)%nat -> f i = 0) -> accumulate f n 0 = 0.
Proof.
  induction n as [|n IH]; intros H; cbn [accumulate]; [reflexivity|].
  rewrite IH by (intros; apply H; lia). rewrite H by lia. reflexivity.
Qed.

Lemma accumulate2_zeros (f : nat -> nat -> float) (s c : nat) :
  (forall i j, (i < s)%nat -> (j < c)%nat -> f i j = 0) ->
  accumulate2 f s c 0 = 0.
Proof.
  induction s as [|s IH]; intros H; cbn [accumulate2]; [reflexivity|].
  rewrite IH by (intros; apply H; lia).
  apply accumulate_zeros. intros j Hj. apply H; lia.
Qed.

Lemma channel_value_same_length
  (obs_data syn_data : list (list (list float))) (s n i j : nat) :
  has_shape3 obs_data s 4 n -> has_shape3 syn_data s 4 n -> (1 <= n)%nat ->
  (i < s)%nat -> (j < 3)%nat ->
  channel_value correlate_lag np_sum obs_data syn_data i j
  = rms_formula np_sum (trace_at obs_data i (j + 1))
                       (trace_at syn_data i (j + 1)).
Proof.
  intros Hobs Hsyn Hn Hi Hj.
  destruct (index2_shape _ _ _ _ i (j + 1) Hobs Hi) as (_ & Lo); [lia|].
  destruct (index2_shape _ _ _ _ i (j + 1) Hsyn Hi) as (_ & Ls); [lia|].
  unfold channel_value, channel_misfit.
  rewrite align_same_length by lia. cbn [bind].
  rewrite rms_value by (left; lia). reflexivity.
Qed.

Lemma misfit_value_same_length
  (obs_data syn_data : list (list (list float))) (s n : nat) :
  has_shape3 obs_data s 4 n -> has_shape3 syn_data s 4 n -> (1 <= n)%nat ->
  misfit_value correlate_lag np_sum obs_data syn_data s
  = unshifted_misfit np_sum obs_data syn_data s.
Proof.
  intros Hobs Hsyn Hn. unfold misfit_value, unshifted_misfit.
  apply accumulate2_ext. intros i j Hi Hj.
  apply (channel_value_same_length _ _ s n); assumption.
Qed.

Lemma summed_misfit_value
  (obs_data syn_data : list (list (list float))) (s n m : nat) :
  has_shape3 obs_data s 4 n -> has_shape3 syn_data s 4 m ->
  (1 <= m)%nat -> (m <= n)%nat ->
  calculate_summed_model_misfit correlate_lag np_sum obs_data syn_data
  = Ok (misfit_value correlate_lag np_sum obs_data syn_data s).
Proof.
  intros Hobs Hsyn Hm Hmn. unfold calculate_summed_model_misfit, misfit_value.
  replace (length obs_data) with s by (symmetry; apply Hobs).
  apply (stations_loop obs_data syn_data s s n m s); auto.
Qed.

Lemma unshifted_misfit_zero
  (obs_data syn_data : list (list (list float))) (s n : nat) :
  sums_zeros np_sum ->
  has_shape3 obs_data s 4 n -> (1 <= n)%nat ->
  finite_velocities obs_data s -> same_velocities obs_data syn_data s ->
  unshifted_misfit np_sum obs_data syn_data s = 0.
Proof.
  intros Hz Hobs Hn Hf Hsame. unfold unshifted_misfit.
  apply accumulate2_zeros. intros i j Hi Hj.
  rewrite <- Hsame by assumption.
  destruct (index2_shape _ _ _ _ i (j + 1) Hobs Hi) as (_ & Lo); [lia|].
  apply rms_formula_same; [exact Hz | | apply Hf; assumption].
  intros E. rewrite E in Lo. simpl in Lo. lia.
Qed.

Lemma unshifted_misfit_nonneg
  (obs_data syn_data : list (list (list float))) (s n : nat) :
  sums_nonneg np_sum ->
  has_shape3 syn_data s 4 n -> (1 <= n)%nat ->
  finite_velocities obs_data s -> finite_velocities syn_data s ->
  (0 <=? unshifted_misfit np_sum obs_data syn_data s) = true.
Proof.
  intros Hnn Hsyn Hn Hfo Hfs. unfold unshifted_misfit.
  apply accumulate2_nonneg; [reflexivity|]. intros i j Hi Hj.
  destruct (index2_shape _ _ _ _ i (j + 1) Hsyn Hi) as (_ & Ls); [lia|].
  apply rms_formula_nonneg; try assumption; try lia.
  - apply Hfo; assumption.
  - apply Hfs; assumption.
Qed.

(** When the synthetic record has the timestep count of the observed one
    nothing is shifted: the summed misfit is the sum, in the order of the
    loops, of the RMS misfits of the velocity channels as they are.  It is
    0 when every velocity trace of the model equals the observed one and
    holds finite samples (the time rows do not matter), and for finite
    samples it is a number that is not negative. *)
Theorem calculate_summed_model_misfit_same_length
  (obs_data syn_data : list (list (list float))) (s n : nat) :
  has_shape3 obs_data s 4 n -> has_shape3 syn_data s 4 n -> (1 <= n)%nat ->
  calculate_summed_model_misfit correlate_lag np_sum obs_data syn_data
  = Ok (unshifted_misfit np_sum obs_data syn_data s) /\
  (sums_zeros np_sum -> finite_velocities obs_data s ->
   same_velocities obs_data syn_data s ->
   unshifted_misfit np_sum obs_data syn_data s = 0) /\
  (sums_nonneg np_sum ->
   finite_velocities obs_data s -> finite_velocities syn_data s ->
   (0 <=? unshifted_misfit np_sum obs_data syn_data s) = true).
Proof.
  intros Hobs Hsyn Hn. split; [|split].
  - rewrite (summed_misfit_value _ _ s n n) by (assumption || lia).
    rewrite (misfit_value_same_length _ _ s n) by assumption. reflexivity.
  - intros Hz Hf Hsame.
    apply (unshifted_misfit_zero _ _ s n); assumption.
  - intros Hnn Hfo Hfs.
    apply (unshifted_misfit_nonneg _ _ s n); assumption.
Qed.

(** The time rows are never read: two pairs of records that agree on
    their velocity rows get the same summed misfit, or the same
    exception. *)
Theorem calculate_summed_model_misfit_ignores_time
  (obs_data obs_data' syn_data syn_data' : list (list (list float))) :
  length obs_data = length obs_data' ->
  (forall i j, (j < 3)%nat ->
     index2 obs_data i (j + 1) = index2 obs_data' i (j + 1)) ->
  (forall i j, (j < 3)%nat ->
     index2 syn_data i (j + 1) = index2 syn_data' i (j + 1)) ->
  calculate_summed_model_misfit correlate_lag np_sum obs_data syn_data
  = calculate_summed_model_misfit correlate_lag np_sum obs_data' syn_data'.
Proof.
  intros Hlen Hobs Hsyn. unfold calculate_summed_model_misfit.
  rewrite Hlen. apply for_each_ext. intros i acc _.
  apply for_each_ext. intros j acc' Hj. apply in_range in Hj.
  rewrite Hobs, Hsyn by exact Hj. reflexivity.
Qed.

(** *** Station counts that do not match *)

Lemma index2_out_of_range {A : Type} (a : list (list A)) (i j : nat) :
  (length a <= i)%nat -> index2 a i j = Raise IndexError.
Proof.
  intros H. unfold index2, index1.
  replace (nth_error a i) with (@None (list A))
    by (symmetry; apply nth_error_None; exact H).
  reflexivity.
Qed.

Lemma index2_firstn {A : Type} (a : list (list A)) (k i j : nat) :
  (i < k)%nat -> index2 (firstn k a) i j = index2 a i j.
Proof.
  intros H. unfold index2, index1. rewrite nth_error_firstn.
  destruct (Nat.ltb_spec i k); [reflexivity | lia].
Qed.

(** A synthetic record with fewer stations than the observed one is not
    compared station by station up to the shorter count: the station that
    is missing raises [IndexError]. *)
Theorem calculate_summed_model_misfit_missing_station
  (obs_data syn_data : list (list (list float))) (s s' n m : nat) :
  has_shape3 obs_data s 4 n -> has_shape3 syn_data s' 4 m ->
  (1 <= m)%nat -> (m <= n)%nat -> (s' < s)%nat ->
  calculate_summed_model_misfit correlate_lag np_sum obs_data syn_data
  = Raise IndexError.
Proof.
  intros Hobs Hsyn Hm Hmn Hlt. unfold calculate_summed_model_misfit.
  replace (length obs_data) with (s' + S (s - s' - 1))%nat
    by (destruct Hobs as (<- & _); lia).
  unfold range at 1. rewrite seq_app, for_each_app.
  pose proof (stations_loop obs_data syn_data s s' n m s' Hobs Hsyn Hm Hmn
                ltac:(lia) ltac:(lia) 0) as E.
  unfold range at 1 in E. rewrite E. cbn [bind].
  cbn [seq for_each range Nat.add].
  rewrite index2_out_of_range by (destruct Hsyn as (-> & _); lia).
  reflexivity.
Qed.

(** Stations of the synthetic record beyond the observed count are never
    looked at. *)
Theorem calculate_summed_model_misfit_surplus_stations
  (obs_data syn_data : list (list (list float))) :
  calculate_summed_model_misfit correlate_lag np_sum obs_data syn_data
  = calculate_summed_model_misfit correlate_lag np_sum obs_data
      (firstn (length obs_data) syn_data).
Proof.
  unfold calculate_summed_model_misfit.
  apply for_each_ext. intros i acc Hi. apply in_range in Hi.
  apply for_each_ext. intros j acc' _.
  rewrite index2_firstn by exact Hi. reflexivity.
Qed.

(* ================================================================= *)
(** ** The best-fit selection *)

Lemma argmin_from_spec (g : nat -> float) (l : list float) :
  forall (best_i i : nat) (best : float),
    (best_i < i)%nat ->
    g best_i = best ->
    (forall j, (j < length l)%nat -> g (i + j)%nat = nth j l 0) ->
    (forall j, (j < i)%nat -> (best <=? g j) = true) ->
    (forall j, (j < best_i)%nat -> (best <? g j) = true) ->
    first_trough g (i + length l) (argmin_from best_i best i l).
Proof.
  induction l as [|x l IH]; intros best_i i best Hlt Hbest Hl Hmin Hfirst.
  - simpl. rewrite Nat.add_0_r. subst best. right. repeat split; auto.
  - cbn [argmin_from length].
    assert (Hx : g i = x)
      by (rewrite <- (Nat.add_0_r i); apply (Hl O); simpl; lia).
    assert (Htl : forall j, (j < length l)%nat -> g (S i + j)%nat = nth j l 0).
    { intros j Hj. replace (S i + j)%nat with (i + S j)%nat by lia.
      apply (Hl (S j)). simpl. lia. }
    assert (Hnum : is_nan best = false)
      by (apply (leb_not_nan best (g best_i)), Hmin, Hlt).
    replace (i + S (length l))%nat with (S i + length l)%nat by lia.
    destruct (best <=? x) eqn:Hle.
    + apply IH; auto.
      intros j Hj. destruct (Nat.eq_dec j i) as [->|]; [congruence|].
      apply Hmin. lia.
    + destruct (is_nan x) eqn:Hnan.
      * left. repeat split; [lia | congruence |].
        intros j Hj. apply (leb_not_nan best (g j)), Hmin, Hj.
      * assert (Hxb : (x <? best) = true)
          by (apply leb_false_ltb; assumption).
        apply IH; auto.
        -- intros j Hj. destruct (Nat.eq_dec j i) as [->|].
           ++ rewrite Hx. apply leb_refl, Hnan.
           ++ apply ltb_leb, (ltb_leb_trans _ best); [exact Hxb | apply Hmin; lia].
        -- intros j Hj. apply (ltb_leb_trans _ best); [exact Hxb | apply Hmin, Hj].
Qed.

Lemma np_argmin_spec (l : list float) :
  l <> [] ->
  exists k, np_argmin l = Ok k /\ first_trough (sample l) (length l) k.
Proof.
  destruct l as [|x l]; [congruence|]. intros _. cbn [np_argmin].
  destruct (is_nan x) eqn:Hnan.
  - exists O. split; [reflexivity|]. left.
    repeat split; [simpl; lia | exact Hnan | intros j Hj; lia].
  - exists (argmin_from 0 x 1 l). split; [reflexivity|].
    change (length (x :: l)) with (1 + length l)%nat.
    apply argmin_from_spec.
    + lia.
    + reflexivity.
    + intros j Hj. reflexivity.
    + intros j Hj. replace j with O by lia. apply leb_refl, Hnan.
    + intros j Hj. lia.
Qed.

Lemma first_trough_ext (f g : nat -> float) (n k : nat) :
  (forall i, (i < n)%nat -> f i = g i) ->
  first_trough f n k -> first_trough g n k.
Proof.
  intros E [(Hk & Hnan & Hfirst)|(Hk & Hmin & Hfirst)]; [left|right];
    repeat split; try exact Hk.
  - rewrite <- E by exact Hk. exact Hnan.
  - intros j Hj. rewrite <- E by lia. apply Hfirst, Hj.
  - intros j Hj. rewrite <- !E by lia. apply Hmin, Hj.
  - intros j Hj. rewrite <- !E by lia. apply Hfirst, Hj.
Qed.

Lemma nth_error_map_range {A : Type} (f : nat -> A) (n k : nat) :
  (k < n)%nat -> nth_error (map f (range n)) k = Some (f k).
Proof.
  intros H. unfold range. rewrite nth_error_map.
  rewrite (nth_error_nth' _ O) by (rewrite length_seq; exact H).
  rewrite seq_nth by exact H. reflexivity.
Qed.

Lemma set_item_next (done : list float) (k : nat) (x : float) :
  set_item (done ++ repeat 0 (S k)) (length done) x
  = Ok ((done ++ [x]) ++ repeat 0 k).
Proof.
  unfold set_item. rewrite length_app, repeat_length.
  destruct (Nat.ltb_spec (length done) (length done + S k)); [|lia].
  rewrite firstn_app, Nat.sub_diag, firstn_all. cbn [firstn].
  rewrite app_nil_r, skipn_app, skipn_all2 by lia.
  replace (S (length done) - length done)%nat with 1%nat by lia.
  cbn [skipn repeat app]. rewrite <- app_assoc. reflexivity.
Qed.

Lemma misfit_loop (obs_data : list (list (list float)))
  (syn_data : list (list (list (list float)))) (v : nat -> float) (n : nat) :
  (forall i, (i < n)%nat ->
     exists model,
       index1 syn_data i = Ok model /\
       calculate_summed_model_misfit correlate_lag np_sum obs_data model
       = Ok (v i)) ->
  forall k, (k <= n)%nat ->
    for_each (range k)
      (fun i model_misfits =>
         model <- index1 syn_data i ;;
         misfit <- calculate_summed_model_misfit correlate_lag np_sum
                     obs_data model ;;
         set_item model_misfits i misfit)
      (np_zeros n)
    = Ok (map v (range k) ++ repeat 0 (n - k)).
Proof.
  intros Hv. unfold range, np_zeros. induction k as [|k IH]; intros Hk.
  - simpl. rewrite Nat.sub_0_r. reflexivity.
  - rewrite seq_S, for_each_app, IH by lia. cbn [bind for_each Nat.add].
    destruct (Hv k) as (model & Em & Ev); [lia|].
    rewrite Em. cbn [bind]. rewrite Ev. cbn [bind].
    replace (n - k)%nat with (S (n - S k)) by lia.
    pose proof (set_item_next (map v (seq 0 k)) (n - S k) (v k)) as E.
    rewrite length_map, length_seq in E. rewrite E.
    rewrite map_app. reflexivity.
Qed.

Lemma select_best_fit_value (obs_data : list (list (list float)))
  (syn_data : list (list (list (list float)))) (names : list string)
  (v : nat -> float) :
  (1 <= length names)%nat ->
  (forall i, (i < length names)%nat ->
     exists model,
       index1 syn_data i = Ok model /\
       calculate_summed_model_misfit correlate_lag np_sum obs_data model
       = Ok (v i)) ->
  exists k,
    first_trough v (length names) k /\
    select_best_fit correlate_lag np_sum obs_data syn_data names
    = (Ok (map v (range (length names)), k),
       [MisfitList (map v (range (length names)));
        SmallestMisfit (nth k names EmptyString) (v k);
        Finished]).
Proof.
  intros Hn Hv. unfold select_best_fit.
  rewrite (misfit_loop obs_data syn_data v (length names) Hv) by lia.
  rewrite Nat.sub_diag. cbn [repeat]. rewrite app_nil_r.
  destruct (np_argmin_spec (map v (range (length names)))) as (k & Ek & Hk).
  { intros E. apply (f_equal (@length float)) in E.
    unfold range in E. rewrite length_map, length_seq in E. simpl in E. lia. }
  assert (Hlen : length (map v (range (length names))) = length names)
    by (unfold range; rewrite length_map, length_seq; reflexivity).
  rewrite Hlen in Hk.
  apply (first_trough_ext _ v) in Hk;
    [|intros i Hi; apply sample_range_map, Hi].
  exists k. split; [exact Hk|].
  assert (Hkn : (k < length names)%nat) by (destruct Hk as [H|H]; apply H).
  rewrite Ek. unfold index1.
  rewrite (nth_error_nth' names EmptyString) by exact Hkn.
  rewrite nth_error_map_range by exact Hkn. reflexivity.
Qed.

(** The models of an ensemble of one shape, as the selection indexes
    them. *)
Lemma ensemble_values (obs_data : list (list (list float)))
  (syn_data : list (list (list (list float)))) (s n m : nat) :
  has_shape3 obs_data s 4 n ->
  Forall (fun model => has_shape3 model s 4 m) syn_data ->
  (1 <= m)%nat -> (m <= n)%nat ->
  forall i, (i < length syn_data)%nat ->
    has_shape3 (nth i syn_data []) s 4 m /\
    exists model,
      index1 syn_data i = Ok model /\
      calculate_summed_model_misfit correlate_lag np_sum obs_data model
      = Ok (misfit_value correlate_lag np_sum obs_data (nth i syn_data []) s).
Proof.
  intros Hobs Hall Hm Hmn i Hi.
  assert (Hshape : has_shape3 (nth i syn_data []) s 4 m).
  { rewrite Forall_forall in Hall. apply Hall, nth_In, Hi. }
  split; [exact Hshape|].
  exists (nth i syn_data []). split.
  - unfold index1. rewrite (nth_error_nth' syn_data []) by exact Hi.
    reflexivity.
  - apply (summed_misfit_value _ _ s n m); assumption.
Qed.

(** The selection over an ensemble of well-shaped models returns the
    misfit of every model, in the order of the names, and the index where
    [np.argmin] points in them: that of the first misfit that is NaN, and
    when there is none the lowest index at which the misfit is smallest;
    it reports the name at that index with its misfit. *)
Theorem select_best_fit_first_minimum (obs_data : list (list (list float)))
  (syn_data : list (list (list (list float)))) (names : list string)
  (s n m : nat) :
  has_shape3 obs_data s 4 n ->
  Forall (fun model => has_shape3 model s 4 m) syn_data ->
  (1 <= m)%nat -> (m <= n)%nat ->
  length syn_data = length names -> (1 <= length names)%nat ->
  exists k,
    first_trough
      (fun i => misfit_value correlate_lag np_sum obs_data (nth i syn_data []) s)
      (length names) k /\
    select_best_fit correlate_lag np_sum obs_data syn_data names
    = (Ok (map (fun i => misfit_value correlate_lag np_sum obs_data
                           (nth i syn_data []) s)
               (range (length names)), k),
       [MisfitList
          (map (fun i => misfit_value correlate_lag np_sum obs_data
                           (nth i syn_data []) s)
               (range (length names)));
        SmallestMisfit (nth k names EmptyString)
          (misfit_value correlate_lag np_sum obs_data (nth k syn_data []) s);
        Finished]).
Proof.
  intros Hobs Hall Hm Hmn Hlen Hn.
  apply (select_best_fit_value obs_data syn_data names
           (fun i => misfit_value correlate_lag np_sum obs_data
                       (nth i syn_data []) s) Hn).
  intros i Hi.
  apply (ensemble_values obs_data syn_data s n m Hobs Hall Hm Hmn i).
  lia.
Qed.

(** When the models have the timestep count of the observations, all
    velocity samples are finite and one of the models carries the observed
    velocity traces, the selection reports a misfit that equals 0, the
    model it selects is that copy or an earlier model, and every model
    before the selected one differs from the observations in a velocity
    trace. *)
Theorem select_best_fit_exact_copy (obs_data : list (list (list float)))
  (syn_data : list (list (list (list float)))) (names : list string)
  (s n copy : nat) :
  sums_zeros np_sum -> sums_nonneg np_sum ->
  has_shape3 obs_data s 4 n ->
  Forall (fun model => has_shape3 model s 4 n) syn_data ->
  (1 <= n)%nat ->
  length syn_data = length names ->
  (copy < length names)%nat ->
  finite_velocities obs_data s ->
  Forall (fun model => finite_velocities model s) syn_data ->
  same_velocities obs_data (nth copy syn_data []) s ->
  exists k model_misfits r,
    (k <= copy)%nat /\
    (r =? 0) = true /\
    (forall k', (k' < k)%nat ->
       ~ same_velocities obs_data (nth k' syn_data []) s) /\
    select_best_fit correlate_lag np_sum obs_data syn_data names
    = (Ok (model_misfits, k),
       [MisfitList model_misfits;
        SmallestMisfit (nth k names EmptyString) r;
        Finished]).
Proof.
  intros Hz Hnn Hobs Hall Hn Hlen Hcopy Hfo Hfs Hsame.
  set (v := fun i => misfit_value correlate_lag np_sum obs_data
                       (nth i syn_data []) s).
  assert (Hshape : forall i, (i < length names)%nat ->
            has_shape3 (nth i syn_data []) s 4 n).
  { intros i Hi. rewrite Forall_forall in Hall. apply Hall, nth_In. lia. }
  assert (Hval : forall i, (i < length names)%nat ->
            v i = unshifted_misfit np_sum obs_data (nth i syn_data []) s).
  { intros i Hi. unfold v.
    apply (misfit_value_same_length _ _ s n); auto. }
  assert (Hpos : forall i, (i < length names)%nat -> (0 <=? v i) = true).
  { intros i Hi. rewrite Hval by exact Hi.
    apply (unshifted_misfit_nonneg _ _ s n); auto.
    rewrite Forall_forall in Hfs. apply Hfs, nth_In. lia. }
  assert (Hzero : forall i, (i < length names)%nat ->
            same_velocities obs_data (nth i syn_data []) s -> v i = 0).
  { intros i Hi Hs. rewrite Hval by exact Hi.
    apply (unshifted_misfit_zero _ _ s n); auto. }
  destruct (select_best_fit_value obs_data syn_data names v)
    as (k & Hk & E).
  { lia. }
  { intros i Hi.
    apply (ensemble_values obs_data syn_data s n n Hobs Hall Hn
             (Nat.le_refl n) i). lia. }
  destruct Hk as [(Hkn & Hnan & _)|(Hkn & Hmin & Hfirst)].
  { specialize (Hpos k Hkn). apply nonneg_number in Hpos. congruence. }
  exists k, (map v (range (length names))), (v k).
  split; [|split; [|split]].
  - destruct (Nat.le_gt_cases k copy) as [H|H]; [exact H|].
    specialize (Hfirst copy H). rewrite (Hzero copy Hcopy Hsame) in Hfirst.
    apply ltb_not_leb in Hfirst. rewrite Hpos in Hfirst by exact Hkn.
    discriminate.
  - apply leb_antisym_eqb; [|apply Hpos, Hkn].
    rewrite <- (Hzero copy Hcopy Hsame). apply Hmin, Hcopy.
  - intros k' Hk' Hs. specialize (Hfirst k' Hk').
    rewrite (Hzero k') in Hfirst by (lia || exact Hs).
    apply ltb_not_leb in Hfirst. rewrite Hpos in Hfirst by exact Hkn.
    discriminate.
  - exact E.
Qed.

End EngineFacts.

(* ================================================================= *)
(** ** The reference kernels, counterexamples and instances *)

Section EngineInstances.

Local Open Scope float_scope.

Lemma sequential_sum_zeros : sums_zeros sequential_sum.
Proof.
  intros n. unfold sequential_sum.
  induction n as [|n IH]; [reflexivity|]. cbn [repeat fold_left].
  replace (0 + 0) with 0 by reflexivity. exact IH.
Qed.

Lemma fold_add_nonneg (a : list float) (acc : float) :
  (0 <=? acc) = true -> Forall (fun x => (0 <=? x) = true) a ->
  (0 <=? fold_left add a acc) = true.
Proof.
  revert acc. induction a as [|x a IH]; intros acc Hacc Ha; [exact Hacc|].
  cbn [fold_left]. inversion Ha as [|? ? Hx Ha']; subst.
  apply IH; [apply float_add_nonneg; assumption | exact Ha'].
Qed.

Lemma sequential_sum_nonneg : sums_nonneg sequential_sum.
Proof. intros a Ha. apply fold_add_nonneg; [reflexivity | exact Ha]. Qed.

(** C1, as stated, fails: the cross-correlation of [tie_obs] with
    [tie_syn] is [2^53] at the offsets 0 and 1 and [2^53 + 1] at the
    offset 2, where alone it is largest; float64 rounds [2^53 + 1] to
    [2^53], the three offsets tie, and the window at the offset 0 is
    returned, which is not the window at the offset 2. *)
Lemma exact_peak_missed :
  (1 <= length tie_syn)%nat /\ (length tie_syn <= length tie_obs)%nat /\
  (exact_xcorr tie_obs tie_syn 0 < exact_xcorr tie_obs tie_syn 2)%Q /\
  (exact_xcorr tie_obs tie_syn 1 < exact_xcorr tie_obs tie_syn 2)%Q /\
  correlate_and_shift_waveforms direct_lag tie_obs tie_syn
  = Ok (segment tie_obs 0 (length tie_syn)) /\
  segment tie_obs 0 (length tie_syn) <> segment tie_obs 2 (length tie_syn).
Proof.
  split; [simpl; lia|]. split; [simpl; lia|].
  split; [vm_compute; reflexivity|]. split; [vm_compute; reflexivity|].
  split; [vm_compute; reflexivity|].
  intros E. apply (f_equal (fun l => is_zero (nth 1 l 0))) in E.
  vm_compute in E. discriminate.
Qed.

Lemma correlate_and_shift_waveforms_first_peak_witness :
  (1 <= length ones)%nat /\ (length ones <= length dip)%nat /\
  exists k,
    first_peak (direct_lag dip ones) (valid_offsets dip ones) k /\
    ((forall j, (j < valid_offsets dip ones)%nat ->
                is_nan (direct_lag dip ones j) = false) ->
     first_maximizer (direct_lag dip ones) (valid_offsets dip ones) k) /\
    (k + length ones <= length dip)%nat /\
    (forall k', first_peak (direct_lag dip ones) (valid_offsets dip ones) k' ->
                k' = k) /\
    correlate_and_shift_waveforms direct_lag dip ones
    = Ok (segment dip k (length ones)) /\
    length (segment dip k (length ones)) = length ones.
Proof.
  split; [simpl; lia|]. split; [simpl; lia|].
  apply (correlate_and_shift_waveforms_first_peak direct_lag dip ones);
    simpl; lia.
Defined.





(** C4, as stated, fails when the synthetic traces have no sample (as
    after [--final_ind 0]): the station counts match and the observed
    traces are at least as long, but the correlation refuses the empty
    trace and no number is returned. *)
Lemma summed_misfit_of_empty_synthetics_raises :
  has_shape3 one_sample_station 1 4 1 /\
  has_shape3 no_sample_station 1 4 0 /\
  (0 <= 1)%nat /\
  calculate_summed_model_misfit direct_lag sequential_sum
    one_sample_station no_sample_station
  = Raise ValueError.
Proof.
  unfold has_shape3, one_sample_station, no_sample_station.
  repeat split; try reflexivity; try lia; repeat constructor.
Qed.

Lemma shifted_station_finite : finite_velocities shifted_station 1.
Proof.
  intros [|i] [|[|[|j]]] Hi Hj; try lia; repeat constructor.
Qed.

Lemma shifted_model_finite : finite_velocities shifted_model 1.
Proof.
  intros [|i] [|[|[|j]]] Hi Hj; try lia; repeat constructor.
Qed.

Lemma calculate_summed_model_misfit_sum_witness :
  (forall i j, (i < 1)%nat -> (j < 3)%nat ->
     exists k,
       first_peak (direct_lag (trace_at shifted_station i (j + 1))
                              (trace_at shifted_model i (j + 1)))
                  (valid_offsets (trace_at shifted_station i (j + 1))
                                 (trace_at shifted_model i (j + 1))) k /\
       channel_misfit direct_lag sequential_sum
         (trace_at shifted_station i (j + 1)) (trace_at shifted_model i (j + 1))
       = Ok (channel_value direct_lag sequential_sum
               shifted_station shifted_model i j) /\
       channel_value direct_lag sequential_sum shifted_station shifted_model i j
       = rms_formula sequential_sum
           (segment (trace_at shifted_station i (j + 1)) k 2)
           (trace_at shifted_model i (j + 1))) /\
  calculate_summed_model_misfit direct_lag sequential_sum
    shifted_station shifted_model
  = Ok (accumulate2 (channel_value direct_lag sequential_sum
                       shifted_station shifted_model) 1 3 0) /\
  (forall i j, (i < 1)%nat -> (j < 3)%nat ->
     (0 <=? channel_value direct_lag sequential_sum
              shifted_station shifted_model i j) = true) /\
  (0 <=? accumulate2 (channel_value direct_lag sequential_sum
                        shifted_station shifted_model) 1 3 0) = true.
Proof.
  assert (Ho : has_shape3 shifted_station 1 4 3)
    by (split; [reflexivity | repeat constructor]).
  assert (Hs : has_shape3 shifted_model 1 4 2)
    by (split; [reflexivity | repeat constructor]).
  destruct (calculate_summed_model_misfit_sum direct_lag sequential_sum
              shifted_station shifted_model 1 3 2 Ho Hs)
    as (Hch & Hval & Hpos); [lia | lia |].
  split; [exact Hch|]. split; [exact Hval|].
  apply Hpos.
  - exact sequential_sum_nonneg.
  - exact shifted_station_finite.
  - exact shifted_model_finite.
Defined.

(** On [shifted_station] and [shifted_model] the windows are taken at the
    offsets 1, 0 and 1, and the summed misfit is above 0. *)
Lemma shifted_station_misfit :
  correlate_and_shift_waveforms direct_lag [1; 2; 3] [2; 3] = Ok [2; 3] /\
  correlate_and_shift_waveforms direct_lag [3; 1; 2] [3; 0] = Ok [3; 1] /\
  correlate_and_shift_waveforms direct_lag [0; 0; 4] [0; 3] = Ok [0; 4] /\
  exists r,
    calculate_summed_model_misfit direct_lag sequential_sum
      shifted_station shifted_model = Ok r /\
    (0 <? r) = true.
Proof.
  repeat split; try (vm_compute; reflexivity).
  eexists. split; vm_compute; reflexivity.
Qed.

Lemma correlate_and_shift_waveforms_equal_length_witness :
  correlate_and_shift_waveforms direct_lag ramp dip = Ok ramp.
Proof.
  apply (correlate_and_shift_waveforms_equal_length direct_lag ramp dip);
    [reflexivity | simpl; lia].
Defined.

Lemma calculate_rms_misfit_symmetric_witness :
  calculate_rms_misfit sequential_sum ramp dip
  = calculate_rms_misfit sequential_sum dip ramp.
Proof.
  apply (calculate_rms_misfit_symmetric sequential_sum ramp dip). reflexivity.
Defined.

Lemma demo_observations_finite : finite_velocities demo_observations 1.
Proof.
  intros [|i] [|[|[|j]]] Hi Hj; try lia; repeat constructor.
Qed.

Lemma shifted_time_observations_finite :
  finite_velocities shifted_time_observations 1.
Proof.
  intros [|i] [|[|[|j]]] Hi Hj; try lia; repeat constructor.
Qed.

Lemma offset_observations_finite : finite_velocities offset_observations 1.
Proof.
  intros [|i] [|[|[|j]]] Hi Hj; try lia; repeat constructor.
Qed.

Lemma shifted_time_same_velocities :
  same_velocities demo_observations shifted_time_observations 1.
Proof.
  intros [|i] [|[|[|j]]] Hi Hj; try lia; reflexivity.
Qed.

Lemma calculate_summed_model_misfit_same_length_witness :
  calculate_summed_model_misfit direct_lag sequential_sum
    demo_observations shifted_time_observations
  = Ok (unshifted_misfit sequential_sum
          demo_observations shifted_time_observations 1) /\
  unshifted_misfit sequential_sum
    demo_observations shifted_time_observations 1 = 0 /\
  (0 <=? unshifted_misfit sequential_sum
           demo_observations shifted_time_observations 1) = true.
Proof.
  assert (Ho : has_shape3 demo_observations 1 4 2)
    by (split; [reflexivity | repeat constructor]).
  assert (Hs : has_shape3 shifted_time_observations 1 4 2)
    by (split; [reflexivity | repeat constructor]).
  destruct (calculate_summed_model_misfit_same_length direct_lag sequential_sum
              demo_observations shifted_time_observations 1 2 Ho Hs)
    as (Hval & Hzero & Hpos); [lia|].
  split; [exact Hval|]. split.
  - apply Hzero.
    + exact sequential_sum_zeros.
    + exact demo_observations_finite.
    + exact shifted_time_same_velocities.
  - apply Hpos.
    + exact sequential_sum_nonneg.
    + exact demo_observations_finite.
    + exact shifted_time_observations_finite.
Defined.

Lemma calculate_summed_model_misfit_ignores_time_witness :
  calculate_summed_model_misfit direct_lag sequential_sum
    demo_observations demo_observations
  = calculate_summed_model_misfit direct_lag sequential_sum
      shifted_time_observations demo_observations.
Proof.
  apply (calculate_summed_model_misfit_ignores_time direct_lag sequential_sum
           demo_observations shifted_time_observations
           demo_observations demo_observations).
  - reflexivity.
  - intros [|i] [|[|[|j]]] Hj; try lia; try reflexivity;
      destruct i; reflexivity.
  - reflexivity.
Defined.

Lemma calculate_summed_model_misfit_missing_station_witness :
  calculate_summed_model_misfit direct_lag sequential_sum
    (demo_observations ++ demo_observations) demo_observations
  = Raise IndexError.
Proof.
  apply (calculate_summed_model_misfit_missing_station
           direct_lag sequential_sum
           (demo_observations ++ demo_observations) demo_observations
           2 1 2 2);
    try lia;
    (split; [reflexivity | repeat constructor]).
Defined.

Lemma select_best_fit_first_minimum_witness :
  exists k,
    first_trough
      (fun i => misfit_value direct_lag sequential_sum demo_observations
                  (nth i demo_synthetics []) 1)
      (length ["m1"; "m2"]) k /\
    select_best_fit direct_lag sequential_sum
      demo_observations demo_synthetics ["m1"; "m2"]
    = (Ok (map (fun i => misfit_value direct_lag sequential_sum
                           demo_observations (nth i demo_synthetics []) 1)
               (range (length ["m1"; "m2"])), k),
       [MisfitList
          (map (fun i => misfit_value direct_lag sequential_sum
                           demo_observations (nth i demo_synthetics []) 1)
               (range (length ["m1"; "m2"])));
        SmallestMisfit (nth k ["m1"; "m2"] EmptyString)
          (misfit_value direct_lag sequential_sum demo_observations
             (nth k demo_synthetics []) 1);
        Finished]).
Proof.
  apply (select_best_fit_first_minimum direct_lag sequential_sum
           demo_observations demo_synthetics ["m1"; "m2"] 1 2 1);
    try (simpl; lia); try reflexivity.
  - split; [reflexivity | repeat constructor].
  - repeat constructor.
Defined.

Lemma select_best_fit_exact_copy_witness :
  exists k model_misfits r,
    (k <= 1)%nat /\
    (r =? 0) = true /\
    (forall k', (k' < k)%nat ->
       ~ same_velocities demo_observations (nth k' copy_ensemble []) 1) /\
    select_best_fit direct_lag sequential_sum
      demo_observations copy_ensemble ["offset"; "copy"]
    = (Ok (model_misfits, k),
       [MisfitList model_misfits;
        SmallestMisfit (nth k ["offset"; "copy"] EmptyString) r;
        Finished]).
Proof.
  apply (select_best_fit_exact_copy direct_lag sequential_sum
           demo_observations copy_ensemble ["offset"; "copy"] 1 2 1).
  - exact sequential_sum_zeros.
  - exact sequential_sum_nonneg.
  - split; [reflexivity | repeat constructor].
  - repeat constructor.
  - lia.
  - reflexivity.
  - simpl; lia.
  - exact demo_observations_finite.
  - repeat constructor.
    + exact offset_observations_finite.
    + exact shifted_time_observations_finite.
  - exact shifted_time_same_velocities.
Defined.

(** On [demo_observations] and [copy_ensemble] the selection is the copy,
    with the misfits 300 and 0. *)
Lemma copy_ensemble_selection :
  select_best_fit direct_lag sequential_sum
    demo_observations copy_ensemble ["offset"; "copy"]
  = (Ok ([300; 0], 1%nat),
     [MisfitList [300; 0]; SmallestMisfit "copy" 0; Finished]).
Proof. vm_compute. reflexivity. Qed.

End EngineInstances.

(* ================================================================= *)
(** ** Strings *)

Lemma split_nonempty (sep : ascii) (s : string) : split sep s <> [].
Proof.
  destruct s as [|c s]; simpl; [discriminate|].
  destruct (Ascii.eqb c sep); [discriminate|].
  destruct (split sep s); discriminate.
Qed.

Lemma last_cons_nonempty (x : string) (l : list string) :
  l <> [] -> last (x :: l) EmptyString = last l EmptyString.
Proof. destruct l; [congruence | reflexivity]. Qed.

(** Either the string holds no separator and is its own single piece, or
    it ends with the separator followed by its last piece. *)
Lemma split_last_piece (sep : ascii) (s : string) :
  split sep s = [s] \/
  ((2 <= length (split sep s))%nat /\
   exists p, s = (p ++ String sep (last_piece (split sep s)))%string).
Proof.
  unfold last_piece. induction s as [|c s IH].
  - left. reflexivity.
  - simpl split. destruct (Ascii.eqb_spec c sep) as [->|Hc].
    + right. pose proof (split_nonempty sep s) as Hne.
      rewrite last_cons_nonempty by exact Hne. split.
      * destruct (split sep s); [congruence | simpl; lia].
      * destruct IH as [E|(_ & p & E)].
        -- exists EmptyString. rewrite E. reflexivity.
        -- exists (String sep p). simpl. rewrite <- E. reflexivity.
    + destruct IH as [E|(Hlen & p & E)].
      * left. rewrite E. reflexivity.
      * right. destruct (split sep s) as [|h [|h' tl]]; simpl in Hlen; try lia.
        split; [simpl; lia|].
        exists (String c p). simpl. simpl in E. rewrite <- E. reflexivity.
Qed.

Lemma last_piece_inv (sep : ascii) (s t : string) :
  last_piece (split sep s) = t ->
  s = t \/ ends_with s (String sep t).
Proof.
  intros H. destruct (split_last_piece sep s) as [E|(_ & p & E)].
  - left. rewrite E in H. exact H.
  - right. exists p. rewrite <- H. exact E.
Qed.

Lemma split_append_pieces (sep : ascii) (p t : string) :
  (2 <= length (split sep (p ++ String sep t)))%nat.
Proof.
  induction p as [|c p IH]; simpl.
  - rewrite Ascii.eqb_refl. pose proof (split_nonempty sep t).
    destruct (split sep t); [congruence | simpl; lia].
  - destruct (Ascii.eqb c sep); [simpl; lia|].
    destruct (split sep (p ++ String sep t)); simpl in *; lia.
Qed.

Lemma last_piece_append (sep : ascii) (p t : string) :
  last_piece (split sep (p ++ String sep t))
  = last_piece (split sep t).
Proof.
  unfold last_piece. induction p as [|c p IH].
  - simpl. rewrite Ascii.eqb_refl.
    apply last_cons_nonempty, split_nonempty.
  - simpl. destruct (Ascii.eqb c sep).
    + rewrite last_cons_nonempty by apply split_nonempty. exact IH.
    + pose proof (split_append_pieces sep p t) as Hlen.
      destruct (split sep (p ++ String sep t)) as [|h [|h' tl]];
        simpl in Hlen; try lia.
      exact IH.
Qed.

(** The names the metadata test of the classifier lets through. *)
Lemma metadata_name_iff (f : string) :
  last_piece (split "-" f) = "surface.xdmf"
  <-> f = "surface.xdmf" \/ ends_with f "-surface.xdmf".
Proof.
  split.
  - apply last_piece_inv.
  - intros [->|(p & ->)]; [reflexivity|].
    rewrite (last_piece_append "-" p "surface.xdmf"). reflexivity.
Qed.

Lemma string_length_append (s t : string) :
  String.length (s ++ t) = (String.length s + String.length t)%nat.
Proof. induction s as [|c s IH]; simpl; [|rewrite IH]; reflexivity. Qed.

Lemma ends_with_length (s suffix : string) :
  ends_with s suffix -> (String.length suffix <= String.length s)%nat.
Proof. intros (p & ->). rewrite string_length_append. lia. Qed.

Lemma receiver_naming_rule (filename : string) :
  check_if_seissol_surface_receiver_file filename = true <->
  In "receiver" (split "-" filename) /\
  last_piece (split "." filename) = "dat".
Proof.
  unfold check_if_seissol_surface_receiver_file, py_in.
  assert (Hin : existsb (String.eqb "receiver") (split "-" filename) = true
                <-> In "receiver" (split "-" filename)).
  { rewrite existsb_exists. split.
    - intros (x & Hx & E). apply String.eqb_eq in E. subst x. exact Hx.
    - intros Hx. exists "receiver". split; [exact Hx | apply String.eqb_refl]. }
  destruct (String.eqb_spec (last_piece (split "." filename)) "dat") as [E|E];
    cbn [negb].
  - destruct (existsb (String.eqb "receiver") (split "-" filename)).
    + split; [intros _; split; [apply Hin; reflexivity | exact E] | reflexivity].
    + split; [discriminate|]. intros (Hx & _). apply Hin in Hx. discriminate.
  - split; [discriminate|]. intros (_ & Hd). contradiction.
Qed.

(* ================================================================= *)
(** ** Sorting *)

Lemma insert_sorted_perm (x : string) (l : list string) :
  Permutation (insert_sorted x l) (x :: l).
Proof.
  induction l as [|y l IH]; simpl; [reflexivity|].
  destruct (String.leb x y); [reflexivity|].
  rewrite IH. apply perm_swap.
Qed.

Lemma list_sort_perm (l : list string) : Permutation (list_sort l) l.
Proof.
  induction l as [|x l IH]; simpl; [reflexivity|].
  rewrite insert_sorted_perm. apply perm_skip, IH.
Qed.

Lemma string_leb_trans (a b c : string) :
  String.leb a b = true -> String.leb b c = true -> String.leb a c = true.
Proof.
  unfold String.leb. revert b c.
  induction a as [|x a IH]; intros [|y b] [|z c]; simpl; try congruence.
  unfold Ascii.compare.
  destruct (N.compare_spec (N_of_ascii x) (N_of_ascii y));
    destruct (N.compare_spec (N_of_ascii y) (N_of_ascii z));
    destruct (N.compare_spec (N_of_ascii x) (N_of_ascii z));
    try lia; try congruence.
  apply IH.
Qed.

Lemma insert_sorted_locally (x : string) (l : list string) :
  Sorted (fun a b => String.leb a b = true) l ->
  Sorted (fun a b => String.leb a b = true) (insert_sorted x l).
Proof.
  induction l as [|y l IH]; intros H; simpl.
  - repeat constructor.
  - destruct (String.leb x y) eqn:E.
    + constructor; [exact H | constructor; exact E].
    + inversion H as [|? ? Hs Hhd]; subst.
      constructor; [apply IH, Hs|].
      destruct l as [|z l]; simpl.
      * constructor. destruct (String.leb_total x y); congruence.
      * destruct (String.leb x z).
        -- constructor. destruct (String.leb_total x y); congruence.
        -- inversion Hhd; subst. constructor. assumption.
Qed.

Lemma list_sort_ascending (l : list string) : ascending (list_sort l).
Proof.
  apply Sorted_StronglySorted.
  - intros a b c. apply string_leb_trans.
  - induction l as [|x l IH]; simpl.
    + constructor.
    + apply insert_sorted_locally, IH.
Qed.

Lemma list_sort_In (l : list string) (x : string) :
  In x (list_sort l) <-> In x l.
Proof.
  split; apply Permutation_in; [|symmetry]; apply list_sort_perm.
Qed.

Lemma list_sort_NoDup (l : list string) : NoDup l -> NoDup (list_sort l).
Proof.
  apply Permutation_NoDup. symmetry. apply list_sort_perm.
Qed.


(* ================================================================= *)
(** ** The directory classifier and the ensemble collector *)

Section Classifier.

Variable listdir : string -> result (list string).
Variable xdmf_readable : string -> bool.

Lemma metadata_loop (path : string) (files : list string) :
  forall (out : bool) (msgs : list message),
    fst (for_io files
           (fun i out =>
              if last_piece (split "-" i) =? "surface.xdmf" then
                if xdmf_readable (path ++ i)%string then ret true
                else _ <~ print (DefectXdmf (path ++ i)%string) ;; ret out
              else ret out)
           out msgs)
    = Ok (out || existsb (readable_metadata xdmf_readable path) files).
Proof.
  induction files as [|i files IH]; intros out msgs.
  - simpl. rewrite orb_false_r. reflexivity.
  - cbn [for_io existsb]. unfold bind_io at 1, readable_metadata at 1.
    destruct (last_piece (split "-" i) =? "surface.xdmf").
    + destruct (xdmf_readable (path ++ i)%string); cbn;
        rewrite IH; destruct out; reflexivity.
    + cbn. rewrite IH. reflexivity.
Qed.

Lemma receiver_count (files : list string) :
  forall n,
    fold_left (fun n i =>
                 if check_if_seissol_surface_receiver_file i
                 then (n + 1)%nat else n) files n
    = (n + length (filter check_if_seissol_surface_receiver_file files))%nat.
Proof.
  induction files as [|i files IH]; intros n; simpl; [lia|].
  rewrite IH. destruct (check_if_seissol_surface_receiver_file i); simpl; lia.
Qed.

Lemma no_receiver_iff (files : list string) :
  (length (filter check_if_seissol_surface_receiver_file files) =? 0)%nat
  = negb (existsb check_if_seissol_surface_receiver_file files).
Proof.
  induction files as [|i files IH]; simpl; [reflexivity|].
  destruct (check_if_seissol_surface_receiver_file i); simpl; [reflexivity|].
  exact IH.
Qed.

(** What the classifier answers, whatever has been printed before. *)
Lemma check_if_seissol_dir_value (path : string) (msgs : list message) :
  fst (check_if_seissol_dir listdir xdmf_readable path msgs)
  = match listdir path with
    | Ok files =>
        Ok (existsb (readable_metadata xdmf_readable path) files
            && existsb check_if_seissol_surface_receiver_file files)
    | Raise e => Raise e
    end.
Proof.
  unfold check_if_seissol_dir, bind_io at 1, lift.
  destruct (listdir path) as [files|e]; [|reflexivity].
  unfold bind_io.
  pose proof (metadata_loop path files false msgs) as Hloop.
  destruct (for_io files _ false msgs) as [[out|e] msgs'];
    simpl in Hloop; [|discriminate].
  injection Hloop as ->. unfold ret. cbn [fst].
  rewrite receiver_count. cbn [Nat.add]. rewrite no_receiver_iff.
  destruct (existsb check_if_seissol_surface_receiver_file files);
    cbn [negb]; [rewrite andb_true_r | rewrite andb_false_r]; reflexivity.
Qed.

Lemma classified_value (path i : string) (msgs : list message) :
  fst (check_if_seissol_dir listdir xdmf_readable (path ++ i ++ "/")%string msgs)
  = classified listdir xdmf_readable path i.
Proof.
  unfold classified. rewrite !check_if_seissol_dir_value. reflexivity.
Qed.

Lemma collect_loop (path : string) (entries : list string) :
  forall (dirs : list string) (msgs : list message),
    fst (for_io entries
           (fun i dirs =>
              try_except
                (ok <~ check_if_seissol_dir listdir xdmf_readable
                         (path ++ i ++ "/")%string ;;
                 if ok then ret (dirs ++ [i]) else ret dirs)
                (ret dirs))
           dirs msgs)
    = Ok (dirs ++ filter (accepted listdir xdmf_readable path) entries).
Proof.
  induction entries as [|i entries IH]; intros dirs msgs.
  - simpl. rewrite app_nil_r. reflexivity.
  - cbn [for_io filter]. unfold bind_io at 1, try_except, bind_io at 1.
    pose proof (classified_value path i msgs) as Hc.
    unfold accepted at 1.
    destruct (check_if_seissol_dir listdir xdmf_readable
                (path ++ i ++ "/")%string msgs) as [[[|]|e] msgs'];
      cbn [fst] in Hc; rewrite <- Hc; cbn.
    + rewrite IH, <- app_assoc. reflexivity.
    + apply IH.
    + apply IH.
Qed.

Lemma collect_seissol_dirs_value (path : string) (msgs : list message) :
  fst (collect_seissol_dirs listdir xdmf_readable path msgs)
  = match listdir path with
    | Ok entries =>
        Ok (list_sort (filter (accepted listdir xdmf_readable path) entries))
    | Raise e => Raise e
    end.
Proof.
  unfold collect_seissol_dirs, bind_io at 1, lift.
  destruct (listdir path) as [entries|e]; [|reflexivity].
  unfold bind_io.
  pose proof (collect_loop path entries [] msgs) as Hloop.
  destruct (for_io entries _ [] msgs) as [[dirs|e] msgs'];
    simpl in Hloop; [|discriminate].
  injection Hloop as ->. reflexivity.
Qed.

Lemma accepted_iff (path i : string) :
  accepted listdir xdmf_readable path i = true
  <-> classified listdir xdmf_readable path i = Ok true.
Proof.
  unfold accepted. destruct (classified listdir xdmf_readable path i) as [[|]|e];
    split; intros H; try reflexivity; discriminate.
Qed.

End Classifier.

(** C6: a directory whose listing holds no file name that satisfies the
    receiver-file naming rule is rejected, whatever its metadata file. *)
Theorem check_if_seissol_dir_without_receivers
  (listdir : string -> result (list string)) (xdmf_readable : string -> bool)
  (path : string) (files : list string) (msgs : list message) :
  listdir path = Ok files ->
  (forall f, In f files -> check_if_seissol_surface_receiver_file f = false) ->
  fst (check_if_seissol_dir listdir xdmf_readable path msgs) = Ok false.
Proof.
  intros Hls Hnone. rewrite check_if_seissol_dir_value, Hls.
  replace (existsb check_if_seissol_surface_receiver_file files) with false.
  - rewrite andb_false_r. reflexivity.
  - symmetry. apply not_true_is_false. intros H.
    apply existsb_exists in H. destruct H as (f & Hin & Hf).
    rewrite (Hnone f Hin) in Hf. discriminate.
Qed.

Lemma check_if_seissol_dir_without_receivers_witness :
  metadata_only "model/" = Ok ["run-surface.xdmf"; "run.log"] /\
  readable_metadata demo_xdmf "model/" "run-surface.xdmf" = true /\
  fst (check_if_seissol_dir metadata_only demo_xdmf "model/" []) = Ok false.
Proof.
  split; [reflexivity|]. split; [reflexivity|].
  apply (check_if_seissol_dir_without_receivers
           metadata_only demo_xdmf "model/" ["run-surface.xdmf"; "run.log"] []).
  - reflexivity.
  - intros f [<-|[<-|[]]]; reflexivity.
Defined.

(** C7, as stated, fails: a directory whose metadata file is called
    [surface.xdmf] is accepted although none of its file names ends with
    [-surface.xdmf]. *)
Lemma bare_metadata_name_accepted :
  bare_metadata_name "model/" = Ok ["surface.xdmf"; "run-receiver-00001.dat"] /\
  fst (check_if_seissol_dir bare_metadata_name demo_xdmf "model/" []) = Ok true /\
  (forall f, In f ["surface.xdmf"; "run-receiver-00001.dat"] ->
             ~ ends_with f "-surface.xdmf").
Proof.
  split; [reflexivity|]. split; [reflexivity|].
  intros f [<-|[<-|[]]] H.
  - apply ends_with_length in H. simpl in H. lia.
  - destruct H as (p & E).
    apply (f_equal (fun s => last_piece (split "-" s))) in E.
    rewrite (last_piece_append "-" p "surface.xdmf") in E.
    discriminate E.
Qed.

(** C7, amended: [check_if_seissol_dir] returns true only if the listing
    holds a file name whose last dash-separated piece is [surface.xdmf]
    (the name [surface.xdmf] itself or a name ending with [-surface.xdmf])
    and whose element count can be read without error, and holds a file
    name that satisfies the receiver-file naming rule. *)
Theorem check_if_seissol_dir_true_only_if
  (listdir : string -> result (list string)) (xdmf_readable : string -> bool)
  (path : string) (msgs : list message) :
  fst (check_if_seissol_dir listdir xdmf_readable path msgs) = Ok true ->
  exists files,
    listdir path = Ok files /\
    (exists f, In f files /\
               (f = "surface.xdmf" \/ ends_with f "-surface.xdmf") /\
               xdmf_readable (path ++ f)%string = true) /\
    (exists g, In g files /\
               In "receiver" (split "-" g) /\
               last_piece (split "." g) = "dat").
Proof.
  rewrite check_if_seissol_dir_value.
  destruct (listdir path) as [files|e]; [|discriminate].
  intros H. injection H as H. apply andb_true_iff in H. destruct H as (Hm & Hr).
  exists files. split; [reflexivity|]. split.
  - apply existsb_exists in Hm. destruct Hm as (f & Hin & Hf).
    unfold readable_metadata in Hf. apply andb_true_iff in Hf.
    destruct Hf as (Hname & Hread). apply String.eqb_eq in Hname.
    exists f. repeat split; try assumption.
    apply (last_piece_inv "-" f "surface.xdmf"), Hname.
  - apply existsb_exists in Hr. destruct Hr as (g & Hin & Hg).
    exists g. split; [exact Hin|]. apply receiver_naming_rule, Hg.
Qed.

Lemma check_if_seissol_dir_true_only_if_witness :
  exists files,
    demo_listdir "ens/m1/" = Ok files /\
    (exists f, In f files /\
               (f = "surface.xdmf" \/ ends_with f "-surface.xdmf") /\
               demo_xdmf ("ens/m1/" ++ f)%string = true) /\
    (exists g, In g files /\
               In "receiver" (split "-" g) /\
               last_piece (split "." g) = "dat").
Proof.
  apply (check_if_seissol_dir_true_only_if demo_listdir demo_xdmf "ens/m1/" []).
  reflexivity.
Defined.


(** C8: the list [collect_seissol_dirs] returns for a root whose listing
    succeeds is in ascending order, has no duplicate, and holds exactly
    the entries of the root on which [check_if_seissol_dir] returned true
    without raising. *)
Theorem collect_seissol_dirs_sorted_exact
  (listdir : string -> result (list string)) (xdmf_readable : string -> bool)
  (path : string) (entries : list string) (msgs : list message) :
  listdir path = Ok entries -> NoDup entries ->
  exists dirs,
    fst (collect_seissol_dirs listdir xdmf_readable path msgs) = Ok dirs /\
    ascending dirs /\
    NoDup dirs /\
    (forall d, In d dirs <->
               In d entries /\
               classified listdir xdmf_readable path d = Ok true).
Proof.
  intros Hls Hnd. rewrite collect_seissol_dirs_value, Hls.
  eexists. split; [reflexivity|]. split; [apply list_sort_ascending|]. split.
  - apply list_sort_NoDup, NoDup_filter, Hnd.
  - intros d. rewrite list_sort_In, filter_In, accepted_iff. reflexivity.
Qed.

Lemma collect_seissol_dirs_sorted_exact_witness :
  demo_listdir "ens/" = Ok ["m2"; "m1"; "notes.txt"] /\
  fst (collect_seissol_dirs demo_listdir demo_xdmf "ens/" []) = Ok ["m1"; "m2"] /\
  exists dirs,
    fst (collect_seissol_dirs demo_listdir demo_xdmf "ens/" []) = Ok dirs /\
    ascending dirs /\
    NoDup dirs /\
    (forall d, In d dirs <->
               In d ["m2"; "m1"; "notes.txt"] /\
               classified demo_listdir demo_xdmf "ens/" d = Ok true).
Proof.
  split; [reflexivity|]. split; [reflexivity|].
  apply (collect_seissol_dirs_sorted_exact demo_listdir demo_xdmf "ens/"
           ["m2"; "m1"; "notes.txt"] []).
  - reflexivity.
  - repeat constructor; simpl; intuition discriminate.
Defined.

(** C9: when the classification of a candidate raises, the scan of a
    root still returns a list; the candidate is not in it and the other
    candidates are kept or dropped as if it had not been listed. *)
Theorem collect_seissol_dirs_skips_errors
  (listdir : string -> result (list string)) (xdmf_readable : string -> bool)
  (path : string) (before after : list string) (d : string) (e : exn)
  (msgs : list message) :
  listdir path = Ok (before ++ d :: after) ->
  classified listdir xdmf_readable path d = Raise e ->
  exists dirs,
    fst (collect_seissol_dirs listdir xdmf_readable path msgs) = Ok dirs /\
    ~ In d dirs /\
    dirs = list_sort (filter (accepted listdir xdmf_readable path)
                             (before ++ after)).
Proof.
  intros Hls Hraise. rewrite collect_seissol_dirs_value, Hls.
  assert (Hd : accepted listdir xdmf_readable path d = false)
    by (unfold accepted; rewrite Hraise; reflexivity).
  eexists. split; [reflexivity|]. split.
  - rewrite list_sort_In, filter_In. intros (_ & H). congruence.
  - rewrite !filter_app. cbn [filter]. rewrite Hd. reflexivity.
Qed.

Lemma collect_seissol_dirs_skips_errors_witness :
  demo_listdir "ens/" = Ok (["m2"; "m1"] ++ "notes.txt" :: []) /\
  classified demo_listdir demo_xdmf "ens/" "notes.txt" = Raise OSError /\
  exists dirs,
    fst (collect_seissol_dirs demo_listdir demo_xdmf "ens/" []) = Ok dirs /\
    ~ In "notes.txt" dirs /\
    dirs = list_sort (filter (accepted demo_listdir demo_xdmf "ens/")
                             (["m2"; "m1"] ++ [])).
Proof.
  split; [reflexivity|]. split; [reflexivity|].
  apply (collect_seissol_dirs_skips_errors demo_listdir demo_xdmf "ens/"
           ["m2"; "m1"] [] "notes.txt" OSError []); reflexivity.
Defined.

(* ================================================================= *)
(** ** The receiver file loader *)

Lemma pick_columns_value (row : list float) :
  (10 <= length row)%nat ->
  pick_columns row = Ok (map (fun c => nth c row 0) usecols).
Proof.
  intros H.
  destruct row as [|x0 [|x1 [|x2 [|x3 [|x4 [|x5 [|x6 [|x7 [|x8 [|x9 row]]]]]]]]]];
    simpl in H; try lia.
  reflexivity.
Qed.

Lemma table_loop (rows : list (list float)) :
  Forall (fun row => (10 <= length row)%nat) rows ->
  forall table,
    for_each rows
      (fun row table => picked <- pick_columns row ;; Ok (table ++ [picked]))
      table
    = Ok (table ++ map (fun row => map (fun c => nth c row 0) usecols) rows).
Proof.
  induction 1 as [|row rows Hrow _ IH]; intros table; simpl.
  - rewrite app_nil_r. reflexivity.
  - rewrite pick_columns_value by exact Hrow. cbn [bind].
    rewrite IH, <- app_assoc. reflexivity.
Qed.

Lemma py_slice_to_length {A : Type} (a : list A) (stop : Z) :
  stop = (-1)%Z \/ (0 <= stop)%Z ->
  length (py_slice_to a stop) = retained stop (length a).
Proof.
  intros H. unfold py_slice_to, retained. rewrite length_firstn.
  destruct (Z.ltb_spec stop 0); destruct (Z.eqb_spec stop (-1)); lia.
Qed.

Lemma py_slice_to_default {A : Type} (a : list A) :
  py_slice_to a (-1) = removelast a.
Proof.
  unfold py_slice_to. change ((-1 <? 0)%Z) with true. cbv iota.
  replace (Z.to_nat (Z.max 0 (Z.of_nat (length a) + -1)))
    with (length a - 1)%nat by lia.
  induction a as [|x [|y a] IH]; try reflexivity.
  replace (length (x :: y :: a) - 1)%nat with (S (length (y :: a) - 1))
    by (simpl; lia).
  cbn [firstn]. rewrite IH. reflexivity.
Qed.

Lemma py_slice_to_nth (a : list float) (stop : Z) (t : nat) :
  (t < length (py_slice_to a stop))%nat ->
  nth t (py_slice_to a stop) 0 = nth t a 0.
Proof.
  unfold py_slice_to. rewrite length_firstn. intros H.
  rewrite nth_firstn.
  destruct (Nat.ltb_spec t (Z.to_nat
     (if (stop <? 0)%Z then Z.max 0 (Z.of_nat (length a) + stop)
      else Z.min stop (Z.of_nat (length a))))); [reflexivity | lia].
Qed.

(** C5: for a parseable receiver file of [N] timesteps, [N] other than
    one, the loader returns what the claim says: an array of shape
    (4, N - 1) holding all samples but the last when [final_ind = -1], and
    an array of shape (4, min(final_ind, N)) holding the samples of index
    below [final_ind] when [final_ind >= 0]; its rows are the columns 0,
    7, 8, 9 of the file.  On a file of exactly one timestep the code
    departs from the claim and from its own comment, which announces an
    array of shape (4, ndt): [np.loadtxt] squeezes the single row to a 1-D
    array, and slicing its second axis raises [IndexError]. *)
Theorem load_seissol_surface_receiver_retains
  (loadtxt_rows : string -> result (list (list float)))
  (filename : string) (rows : list (list float)) (final_ind : Z) :
  loadtxt_rows filename = Ok rows ->
  Forall (fun row => (10 <= length row)%nat) rows ->
  final_ind = (-1)%Z \/ (0 <= final_ind)%Z ->
  (length rows = 1%nat ->
   load_seissol_surface_receiver loadtxt_rows filename final_ind
   = Raise IndexError) /\
  (length rows <> 1%nat ->
   exists data,
     load_seissol_surface_receiver loadtxt_rows filename final_ind = Ok data /\
     has_shape2 data 4 (retained final_ind (length rows)) /\
     (forall c t, (c < 4)%nat -> (t < retained final_ind (length rows))%nat ->
        sample (nth c data []) t = sample (nth t rows []) (nth c usecols O))).
Proof.
  intros Hfile Hcols Hf.
  unfold load_seissol_surface_receiver, np_loadtxt. rewrite Hfile. cbn [bind].
  rewrite table_loop by exact Hcols. cbn [bind app].
  set (table := map (fun row => map (fun c => nth c row 0) usecols) rows).
  split.
  { intros H1. unfold table.
    destruct rows as [|r1 [|r2 rows]]; try discriminate H1. reflexivity. }
  intros Hn.
  assert (Hsq : squeeze table = Arr2 table).
  { unfold table. destruct rows as [|r1 [|r2 rows]];
      [reflexivity | simpl in Hn; congruence | reflexivity]. }
  rewrite Hsq. cbn [transpose slice_columns_to].
  eexists. split; [reflexivity|].
  assert (Hlen : forall j, length (map (fun row : list float => nth j row 0) table)
                           = length rows).
  { intros j. unfold table. rewrite !length_map. reflexivity. }
  split.
  - split; [reflexivity|].
    apply Forall_forall. intros row Hin.
    apply in_map_iff in Hin. destruct Hin as (col & <- & Hcol).
    apply in_map_iff in Hcol. destruct Hcol as (j & <- & _).
    rewrite py_slice_to_length, Hlen by exact Hf. reflexivity.
  - intros c t Hc Ht. unfold sample.
    assert (Hrow : forall j, (j < 4)%nat ->
              nth t (py_slice_to (map (fun row : list float => nth j row 0) table)
                                 final_ind) 0
              = nth (nth j usecols O) (nth t rows []) 0).
    { intros j Hj. rewrite py_slice_to_nth
        by (rewrite py_slice_to_length, Hlen by exact Hf; exact Ht).
      assert (Htn : (t < length rows)%nat).
      { revert Ht. unfold retained.
        destruct (final_ind =? -1)%Z; lia. }
      rewrite (nth_indep _ 0 ((fun row : list float => nth j row 0) []))
        by (rewrite Hlen; exact Htn).
      rewrite (map_nth (fun row : list float => nth j row 0)).
      unfold table.
      rewrite (nth_indep _ [] ((fun row => map (fun c => nth c row 0) usecols) []))
        by (rewrite length_map; exact Htn).
      rewrite (map_nth (fun row => map (fun c => nth c row 0) usecols)).
      rewrite (nth_indep _ 0 ((fun c => nth c (nth t rows []) 0) O))
        by (rewrite length_map; exact Hj).
      rewrite (map_nth (fun c => nth c (nth t rows []) 0)). reflexivity. }
    destruct c as [|[|[|[|c]]]]; try lia; apply Hrow; lia.
Qed.

(** The file of the single row [0 0 0 0 0 0 0 1 2 3] raises, and a file
    of three rows is loaded as the claim says. *)
Lemma load_seissol_surface_receiver_retains_witness :
  length one_row = 1%nat /\
  load_seissol_surface_receiver single_row_file "run-receiver-00001.dat" (-1)
  = Raise IndexError /\
  retained (-1) (length three_rows) = 2%nat /\
  exists data,
    load_seissol_surface_receiver demo_rows "run-receiver-00001.dat" (-1)
    = Ok data /\
    has_shape2 data 4 (retained (-1) (length three_rows)) /\
    (forall c t, (c < 4)%nat -> (t < retained (-1) (length three_rows))%nat ->
       sample (nth c data []) t = sample (nth t three_rows []) (nth c usecols O)).
Proof.
  split; [reflexivity|]. split.
  - apply (load_seissol_surface_receiver_retains
             single_row_file "run-receiver-00001.dat" one_row (-1)).
    + reflexivity.
    + repeat constructor; simpl; lia.
    + left; reflexivity.
    + reflexivity.
  - split; [reflexivity|].
    apply (load_seissol_surface_receiver_retains
             demo_rows "run-receiver-00001.dat" three_rows (-1)).
    + reflexivity.
    + repeat constructor; simpl; lia.
    + left; reflexivity.
    + simpl; lia.
Defined.

(* ================================================================= *)
(** ** The loading part of the script *)

(** C10: [load_observations] is [load_all_seissol_receivers_from_dir] with
    [final_ind = -1], the truncation that drops the last sample of a trace;
    whenever the script gets through its loading part, the observations it
    holds are those loaded with [-1], and the synthetics are those loaded
    with the [--final_ind] value of the command line. *)
Theorem load_observations_ignores_final_ind
  (listdir : string -> result (list string)) (xdmf_readable : string -> bool)
  (loadtxt_rows : string -> result (list (list float))) :
  (forall path out,
     load_observations listdir loadtxt_rows path out
     = load_all_seissol_receivers_from_dir listdir loadtxt_rows path (-1) out) /\
  (forall a : list float, py_slice_to a (-1) = removelast a) /\
  (forall args msgs obs_data syn_data model_dir_names,
     fst (script_load listdir xdmf_readable loadtxt_rows args msgs)
     = Ok (obs_data, syn_data, model_dir_names) ->
     fst (load_all_seissol_receivers_from_dir listdir loadtxt_rows
            (obs_path args) (-1) msgs) = Ok obs_data /\
     exists f msgs',
       index1 (final_ind args) 0 = Ok f /\
       fst (load_ensemble_waveforms listdir xdmf_readable loadtxt_rows
              (ensemble_dir args) f msgs') = Ok (syn_data, model_dir_names)).
Proof.
  split; [reflexivity|]. split; [apply py_slice_to_default|].
  intros args msgs obs_data syn_data model_dir_names H.
  unfold script_load, load_observations in H.
  unfold bind_io at 1 in H.
  destruct (load_all_seissol_receivers_from_dir listdir loadtxt_rows
              (obs_path args) (-1) msgs) as [[obs|e] m1]; [|discriminate].
  unfold bind_io at 1, print in H.
  unfold bind_io at 1, lift in H.
  destruct (obs_timesteps obs) as [ndt|e]; [|discriminate].
  unfold bind_io at 1 in H.
  unfold bind_io at 1 in H.
  destruct (index1 (final_ind args) 0) as [f|e]; [|discriminate].
  unfold bind_io at 1 in H.
  destruct (load_ensemble_waveforms listdir xdmf_readable loadtxt_rows
              (ensemble_dir args) f
              ((m1 ++ [ObservationStations (length obs)])
                 ++ [ObservationTimesteps ndt]))
    as [[[syn names]|e] m2] eqn:Hens; [|discriminate].
  unfold bind_io at 1 in H.
  destruct (syn_stations syn) as [st|e]; [|discriminate].
  unfold bind_io at 1 in H. unfold bind_io at 1 in H.
  destruct (syn_timesteps syn) as [ndt'|e]; [|discriminate].
  unfold bind_io, ret in H. cbn [fst] in H.
  injection H as -> -> ->.
  split; [reflexivity|].
  exists f, ((m1 ++ [ObservationStations (length obs_data)])
               ++ [ObservationTimesteps ndt]).
  split; [reflexivity|]. rewrite Hens. reflexivity.
Qed.

Lemma load_observations_ignores_final_ind_witness :
  fst (script_load demo_listdir demo_xdmf demo_rows demo_arguments [])
  = Ok (demo_observations, demo_synthetics, ["m1"; "m2"]) /\
  fst (load_all_seissol_receivers_from_dir demo_listdir demo_rows
         (obs_path demo_arguments) (-1) []) = Ok demo_observations /\
  exists f msgs',
    index1 (final_ind demo_arguments) 0 = Ok f /\
    fst (load_ensemble_waveforms demo_listdir demo_xdmf demo_rows
           (ensemble_dir demo_arguments) f msgs')
    = Ok (demo_synthetics, ["m1"; "m2"]).
Proof.
  split; [reflexivity|].
  apply (proj2 (proj2 (load_observations_ignores_final_ind
                         demo_listdir demo_xdmf demo_rows))
           demo_arguments []).
  reflexivity.
Defined.
(* ================================================================= *)
(** ** More on file names *)

Lemma string_append_assoc (a b c : string) :
  ((a ++ b) ++ c)%string = (a ++ (b ++ c))%string.
Proof. induction a as [|x a IH]; simpl; [|rewrite IH]; reflexivity. Qed.

Lemma list_ascii_of_string_append (a b : string) :
  list_ascii_of_string (a ++ b)
  = list_ascii_of_string a ++ list_ascii_of_string b.
Proof. induction a as [|x a IH]; simpl; [|rewrite IH]; reflexivity. Qed.

(** Two ways of writing one string end with the same character. *)
Lemma same_last_char (p q : string) (x y : ascii) :
  (p ++ String x EmptyString)%string = (q ++ String y EmptyString)%string ->
  x = y.
Proof.
  intros E. apply (f_equal list_ascii_of_string) in E.
  rewrite !list_ascii_of_string_append in E. cbn [list_ascii_of_string] in E.
  apply (f_equal (fun l => last l x)) in E.
  rewrite !last_last in E. exact E.
Qed.

(** The first of several pieces is followed by a separator. *)
Lemma split_first_piece (sep : ascii) (s h h' : string) (tl : list string) :
  split sep s = h :: h' :: tl ->
  exists q, s = (h ++ String sep q)%string.
Proof.
  revert h h' tl. induction s as [|c s IH]; intros h h' tl E.
  - discriminate.
  - simpl in E. destruct (Ascii.eqb_spec c sep) as [->|Hc].
    + injection E as <- _. exists s. reflexivity.
    + destruct (split sep s) as [|h0 tl0] eqn:Es; [discriminate|].
      injection E as <- ->.
      destruct (IH h0 h' tl eq_refl) as (q & ->).
      exists q. reflexivity.
Qed.

(** A piece is the last one, or a separator follows it. *)
Lemma in_split_cases (sep : ascii) (s t : string) :
  In t (split sep s) ->
  t = last_piece (split sep s) \/
  exists p q, s = (p ++ t ++ String sep q)%string.
Proof.
  unfold last_piece. revert t. induction s as [|c s IH]; intros t Hin.
  - left. destruct Hin as [<-|[]]. reflexivity.
  - simpl in Hin. simpl split. destruct (Ascii.eqb_spec c sep) as [->|Hc].
    + pose proof (split_nonempty sep s) as Hne.
      rewrite last_cons_nonempty by exact Hne.
      destruct Hin as [<-|Hin].
      * right. exists EmptyString, s. reflexivity.
      * destruct (IH t Hin) as [E|(p & q & ->)]; [left; exact E|].
        right. exists (String sep p), q. reflexivity.
    + destruct (split sep s) as [|h [|h' tl]] eqn:Es.
      * exfalso. apply (split_nonempty sep s Es).
      * left. destruct Hin as [<-|[]]. reflexivity.
      * destruct Hin as [<-|Hin].
        -- right. destruct (split_first_piece sep s h h' tl Es) as (q & ->).
           exists EmptyString, q. reflexivity.
        -- destruct (IH t (or_intror Hin)) as [E|(p & q & ->)].
           ++ left. exact E.
           ++ right. exists (String c p), q. reflexivity.
Qed.

(** What the naming rule lets through: names that end with [.dat] and
    hold the token [receiver] followed by a dash, so that neither
    [receiver.dat] nor [run-receiver.dat] is a receiver file. *)
Theorem receiver_file_names (filename : string) :
  check_if_seissol_surface_receiver_file filename = true ->
  ends_with filename ".dat" /\
  exists p q, filename = (p ++ "receiver-" ++ q)%string.
Proof.
  intros H. apply receiver_naming_rule in H. destruct H as (Hin & Hext).
  assert (Hdat : exists p, filename = (p ++ ".da" ++ "t")%string).
  { apply last_piece_inv in Hext. destruct Hext as [->|(p & ->)].
    - simpl in Hin. destruct Hin as [Hin|[]]. discriminate.
    - exists p. reflexivity. }
  split; [destruct Hdat as (p & ->); exists p; reflexivity|].
  apply in_split_cases in Hin. destruct Hin as [Hlast|(p & q & ->)].
  - exfalso. destruct Hdat as (p & E).
    rewrite <- string_append_assoc in E.
    destruct (split_last_piece "-" filename) as [Es|(_ & r & Er)].
    + rewrite Es in Hlast. unfold last_piece in Hlast. simpl in Hlast.
      rewrite <- Hlast in E.
      change "receiver" with ("" ++ "receive" ++ "r")%string in E.
      rewrite <- string_append_assoc in E.
      apply same_last_char in E. discriminate.
    + rewrite <- Hlast in Er. rewrite Er in E.
      change (String "-" "receiver") with ("-receive" ++ "r")%string in E.
      rewrite <- string_append_assoc in E.
      apply same_last_char in E. discriminate.
  - exists p, q. reflexivity.
Qed.

Lemma receiver_file_names_witness :
  check_if_seissol_surface_receiver_file "receiver.dat" = false /\
  check_if_seissol_surface_receiver_file "run-receiver.dat" = false /\
  ends_with "run-receiver-00001.dat" ".dat" /\
  exists p q, "run-receiver-00001.dat" = (p ++ "receiver-" ++ q)%string.
Proof.
  split; [reflexivity|]. split; [reflexivity|].
  apply (receiver_file_names "run-receiver-00001.dat"). reflexivity.
Defined.

(* ================================================================= *)
(** ** More on the classifier and the collector *)

(** One readable metadata file and one receiver file are enough, whatever
    else the directory holds: a defective metadata file next to a readable
    one does not make the directory defective. *)
Theorem check_if_seissol_dir_accepts
  (listdir : string -> result (list string)) (xdmf_readable : string -> bool)
  (path : string) (files : list string) (f g : string) (msgs : list message) :
  listdir path = Ok files ->
  In f files ->
  f = "surface.xdmf" \/ ends_with f "-surface.xdmf" ->
  xdmf_readable (path ++ f)%string = true ->
  In g files ->
  check_if_seissol_surface_receiver_file g = true ->
  fst (check_if_seissol_dir listdir xdmf_readable path msgs) = Ok true.
Proof.
  intros Hls Hf Hname Hread Hg Hrec.
  rewrite check_if_seissol_dir_value, Hls. f_equal.
  apply andb_true_iff. split; apply existsb_exists.
  - exists f. split; [exact Hf|]. unfold readable_metadata.
    apply andb_true_iff. split; [|exact Hread].
    apply String.eqb_eq, metadata_name_iff, Hname.
  - exists g. split; assumption.
Qed.

Lemma check_if_seissol_dir_accepts_witness :
  fst (check_if_seissol_dir two_metadata_files picky_xdmf "model/" [])
  = Ok true.
Proof.
  apply (check_if_seissol_dir_accepts two_metadata_files picky_xdmf "model/"
           ["old-surface.xdmf"; "run-surface.xdmf"; "run-receiver-00001.dat"]
           "run-surface.xdmf" "run-receiver-00001.dat" []).
  - reflexivity.
  - simpl; auto.
  - right. exists "run". reflexivity.
  - reflexivity.
  - simpl; auto.
  - reflexivity.
Defined.

Lemma metadata_loop_output
  (xdmf_readable : string -> bool) (path : string) (files : list string) :
  forall (out : bool) (msgs : list message),
    snd (for_io files
           (fun i out =>
              if last_piece (split "-" i) =? "surface.xdmf" then
                if xdmf_readable (path ++ i)%string then ret true
                else _ <~ print (DefectXdmf (path ++ i)%string) ;; ret out
              else ret out)
           out msgs)
    = msgs ++ map (fun i => DefectXdmf (path ++ i)%string)
                  (filter (defect_metadata xdmf_readable path) files).
Proof.
  induction files as [|i files IH]; intros out msgs.
  - simpl. rewrite app_nil_r. reflexivity.
  - cbn [for_io filter]. unfold bind_io at 1, defect_metadata at 1.
    destruct (last_piece (split "-" i) =? "surface.xdmf").
    + destruct (xdmf_readable (path ++ i)%string); cbn.
      * apply IH.
      * rewrite IH, <- app_assoc. reflexivity.
    + cbn. apply IH.
Qed.

(** What the classifier prints: one diagnostic for every listed file that
    carries the metadata name and cannot be read, in the order of the
    listing, after what was printed before; nothing when the listing
    itself fails. *)
Theorem check_if_seissol_dir_diagnostics
  (listdir : string -> result (list string)) (xdmf_readable : string -> bool)
  (path : string) (msgs : list message) :
  snd (check_if_seissol_dir listdir xdmf_readable path msgs)
  = msgs ++ match listdir path with
            | Ok files =>
                map (fun i => DefectXdmf (path ++ i)%string)
                    (filter (defect_metadata xdmf_readable path) files)
            | Raise _ => []
            end.
Proof.
  unfold check_if_seissol_dir, bind_io at 1, lift.
  destruct (listdir path) as [files|e]; [|cbn; rewrite app_nil_r; reflexivity].
  unfold bind_io.
  pose proof (metadata_loop_output xdmf_readable path files false msgs) as Hout.
  pose proof (metadata_loop xdmf_readable path files false msgs) as Hval.
  destruct (for_io files _ false msgs) as [[out|e] msgs'];
    cbn [fst snd] in *; [|discriminate].
  exact Hout.
Qed.

(** *** The order of a listing *)

Lemma sorted_permutation_unique (l1 l2 : list string) :
  ascending l1 -> ascending l2 -> Permutation l1 l2 -> l1 = l2.
Proof.
  unfold ascending. revert l2.
  induction l1 as [|x l1 IH]; intros l2 H1 H2 Hp.
  - apply Permutation_nil in Hp. subst. reflexivity.
  - destruct l2 as [|y l2];
      [apply Permutation_sym, Permutation_nil in Hp; discriminate|].
    inversion H1 as [|? ? Hs1 Hx]; subst.
    inversion H2 as [|? ? Hs2 Hy]; subst.
    rewrite Forall_forall in Hx, Hy.
    assert (x = y).
    { assert (Hxin : In x (y :: l2))
        by (apply (Permutation_in _ Hp); left; reflexivity).
      assert (Hyin : In y (x :: l1))
        by (apply (Permutation_in _ (Permutation_sym Hp)); left; reflexivity).
      destruct Hxin as [->|Hxin]; [reflexivity|].
      destruct Hyin as [->|Hyin]; [reflexivity|].
      apply String.leb_antisym; [apply Hx, Hyin | apply Hy, Hxin]. }
    subst y. f_equal. apply IH; try assumption.
    apply (Permutation_cons_inv Hp).
Qed.

Lemma filter_permutation {A : Type} (f : A -> bool) (l1 l2 : list A) :
  Permutation l1 l2 -> Permutation (filter f l1) (filter f l2).
Proof.
  induction 1 as [|x l1 l2 _ IH|x y l|l1 l2 l3 _ IH1 _ IH2]; simpl.
  - constructor.
  - destruct (f x); [apply perm_skip|]; exact IH.
  - destruct (f x), (f y); try reflexivity. apply perm_swap.
  - exact (Permutation_trans IH1 IH2).
Qed.

Lemma list_sort_permutation (l1 l2 : list string) :
  Permutation l1 l2 -> list_sort l1 = list_sort l2.
Proof.
  intros Hp. apply sorted_permutation_unique; try apply list_sort_ascending.
  rewrite !list_sort_perm. exact Hp.
Qed.

Lemma subdirectory_differs (path i : string) :
  (path ++ i ++ "/")%string <> path.
Proof.
  intros E. apply (f_equal String.length) in E.
  rewrite !string_length_append in E. simpl in E. lia.
Qed.

(** The order in which the system lists the root does not matter: two
    listings of the same entries give the same ensemble. *)
Theorem collect_seissol_dirs_listing_order
  (listdir listdir' : string -> result (list string))
  (xdmf_readable : string -> bool) (path : string)
  (entries entries' : list string) (msgs msgs' : list message) :
  listdir path = Ok entries -> listdir' path = Ok entries' ->
  Permutation entries entries' ->
  (forall p, p <> path -> listdir p = listdir' p) ->
  fst (collect_seissol_dirs listdir xdmf_readable path msgs)
  = fst (collect_seissol_dirs listdir' xdmf_readable path msgs').
Proof.
  intros Hls Hls' Hp Hsame.
  rewrite !collect_seissol_dirs_value, Hls, Hls'. f_equal.
  assert (Hacc : forall i, accepted listdir xdmf_readable path i
                           = accepted listdir' xdmf_readable path i).
  { intros i. unfold accepted, classified.
    rewrite !check_if_seissol_dir_value.
    rewrite (Hsame _ (subdirectory_differs path i)). reflexivity. }
  rewrite (filter_ext _ _ Hacc).
  apply list_sort_permutation, filter_permutation, Hp.
Qed.

Lemma collect_seissol_dirs_listing_order_witness :
  fst (collect_seissol_dirs demo_listdir demo_xdmf "ens/" [])
  = fst (collect_seissol_dirs demo_listdir_reordered demo_xdmf "ens/" []).
Proof.
  apply (collect_seissol_dirs_listing_order demo_listdir demo_listdir_reordered
           demo_xdmf "ens/" ["m2"; "m1"; "notes.txt"] ["notes.txt"; "m1"; "m2"]).
  - reflexivity.
  - reflexivity.
  - apply (Permutation_trans (perm_swap "m1" "m2" ["notes.txt"])).
    apply (Permutation_trans (perm_skip "m1" (perm_swap "notes.txt" "m2" []))).
    apply (Permutation_trans (perm_swap "notes.txt" "m1" ["m2"])).
    reflexivity.
  - intros p Hp. unfold demo_listdir_reordered.
    destruct (String.eqb_spec p "ens/"); [contradiction | reflexivity].
Defined.

(* ================================================================= *)
(** ** More on the loading of a directory *)

Lemma accumulate_filter {A : Type} (f : A -> bool) (l : list A) :
  forall acc,
    fold_left (fun acc i => if f i then acc ++ [i] else acc) l acc
    = acc ++ filter f l.
Proof.
  induction l as [|x l IH]; intros acc; simpl.
  - rewrite app_nil_r. reflexivity.
  - rewrite IH. destruct (f x); [rewrite <- app_assoc|]; reflexivity.
Qed.

(** A directory is loaded without printing, and what is loaded is decided
    by the listing, the sorted receiver names and the loader alone. *)
Lemma load_all_value
  (listdir : string -> result (list string))
  (loadtxt_rows : string -> result (list (list float)))
  (path : string) (final_ind : Z) (msgs : list message) :
  load_all_seissol_receivers_from_dir listdir loadtxt_rows path final_ind msgs
  = (files <- listdir path ;;
     data <- for_each
               (list_sort (filter check_if_seissol_surface_receiver_file files))
               (fun i data =>
                  d <- load_seissol_surface_receiver loadtxt_rows
                         (path ++ i)%string final_ind ;;
                  Ok (data ++ [d]))
               [] ;;
     np_array data,
     msgs).
Proof.
  unfold load_all_seissol_receivers_from_dir, bind_io, lift.
  destruct (listdir path) as [files|e]; [|reflexivity]. cbn [bind].
  rewrite accumulate_filter. cbn [app].
  destruct (for_each _ _ []) as [data|e]; reflexivity.
Qed.

Lemma loads_loop {D : Type} (load : string -> result D) (names : list string) :
  forall acc res,
    for_each names (fun i data => d <- load i ;; Ok (data ++ [d])) acc = Ok res ->
    exists ds, res = acc ++ ds /\
               Forall2 (fun name d => load name = Ok d) names ds.
Proof.
  induction names as [|name names IH]; intros acc res H; simpl in H.
  - injection H as <-. exists []. rewrite app_nil_r. split; constructor.
  - destruct (load name) as [d|e] eqn:E; [|discriminate]. cbn [bind] in H.
    destruct (IH _ _ H) as (ds & -> & Hall).
    exists (d :: ds). rewrite <- app_assoc. split; [reflexivity|].
    constructor; assumption.
Qed.

Lemma loads_loop_raises {D : Type} (load : string -> result D)
  (names : list string) (name : string) (e : exn) :
  In name names -> load name = Raise e ->
  forall acc,
    exists e', for_each names (fun i data => d <- load i ;; Ok (data ++ [d])) acc
               = Raise e'.
Proof.
  intros Hin Hbad. induction names as [|x names IH]; intros acc; [destruct Hin|].
  simpl. destruct (load x) as [d|e0] eqn:E; cbn [bind].
  - destruct Hin as [->|Hin]; [congruence|]. apply IH, Hin.
  - exists e0. reflexivity.
Qed.

Lemma np_array_ok (data res : list (list (list float))) :
  np_array data = Ok res ->
  res = data /\
  match data with
  | [] => True
  | a :: rest => Forall (fun b => shape2 b = shape2 a) rest
  end.
Proof.
  unfold np_array. destruct data as [|a rest].
  - intros H. injection H as <-. split; [reflexivity | exact I].
  - destruct (forallb (same_shape a) rest) eqn:E; [|discriminate].
    intros H. injection H as <-. split; [reflexivity|].
    rewrite forallb_forall in E. apply Forall_forall. intros b Hb.
    specialize (E b Hb). unfold same_shape in E.
    apply andb_true_iff in E. destruct E as (E1 & E2).
    apply Nat.eqb_eq in E1, E2.
    destruct (shape2 a), (shape2 b). simpl in *. congruence.
Qed.

(** The stations of a loaded directory are the receiver files of its
    listing in ascending order of their names, each one as the loader
    returns it; loading prints nothing. *)
Theorem load_all_seissol_receivers_from_dir_content
  (listdir : string -> result (list string))
  (loadtxt_rows : string -> result (list (list float)))
  (path : string) (final_ind : Z) (msgs : list message)
  (data : list (list (list float))) :
  fst (load_all_seissol_receivers_from_dir listdir loadtxt_rows path
         final_ind msgs) = Ok data ->
  snd (load_all_seissol_receivers_from_dir listdir loadtxt_rows path
         final_ind msgs) = msgs /\
  exists files,
    listdir path = Ok files /\
    ascending (list_sort (filter check_if_seissol_surface_receiver_file files)) /\
    Forall2 (fun name station =>
               load_seissol_surface_receiver loadtxt_rows
                 (path ++ name)%string final_ind = Ok station)
            (list_sort (filter check_if_seissol_surface_receiver_file files))
            data.
Proof.
  rewrite load_all_value. cbn [fst snd]. intros H. split; [reflexivity|].
  destruct (listdir path) as [files|e]; [|discriminate]. cbn [bind] in H.
  exists files. split; [reflexivity|]. split; [apply list_sort_ascending|].
  destruct (for_each _ _ []) as [loaded|e] eqn:E; [|discriminate].
  cbn [bind] in H. apply np_array_ok in H. destruct H as (-> & _).
  apply (loads_loop (fun i => load_seissol_surface_receiver loadtxt_rows
                                (path ++ i)%string final_ind)) in E.
  destruct E as (ds & -> & Hall). exact Hall.
Qed.

Lemma load_all_seissol_receivers_from_dir_content_witness :
  snd (load_all_seissol_receivers_from_dir demo_listdir demo_rows "obs/"
         (-1) []) = [] /\
  exists files,
    demo_listdir "obs/" = Ok files /\
    ascending (list_sort (filter check_if_seissol_surface_receiver_file files)) /\
    Forall2 (fun name station =>
               load_seissol_surface_receiver demo_rows
                 ("obs/" ++ name)%string (-1) = Ok station)
            (list_sort (filter check_if_seissol_surface_receiver_file files))
            demo_observations.
Proof.
  apply (load_all_seissol_receivers_from_dir_content demo_listdir demo_rows
           "obs/" (-1) [] demo_observations).
  reflexivity.
Defined.

(** The order in which the system lists a directory does not matter to
    what is loaded from it. *)
Theorem load_all_seissol_receivers_from_dir_listing_order
  (listdir listdir' : string -> result (list string))
  (loadtxt_rows : string -> result (list (list float)))
  (path : string) (files files' : list string) (final_ind : Z)
  (msgs : list message) :
  listdir path = Ok files -> listdir' path = Ok files' ->
  Permutation files files' ->
  load_all_seissol_receivers_from_dir listdir loadtxt_rows path final_ind msgs
  = load_all_seissol_receivers_from_dir listdir' loadtxt_rows path final_ind
      msgs.
Proof.
  intros Hls Hls' Hp. rewrite !load_all_value, Hls, Hls'. cbn [bind].
  rewrite (list_sort_permutation _ _
             (filter_permutation check_if_seissol_surface_receiver_file _ _ Hp)).
  reflexivity.
Qed.

Lemma load_all_seissol_receivers_from_dir_listing_order_witness :
  load_all_seissol_receivers_from_dir demo_listdir demo_rows "obs/" (-1) []
  = load_all_seissol_receivers_from_dir
      (fun _ => Ok ["readme"; "run-receiver-00001.dat"]) demo_rows "obs/" (-1) [].
Proof.
  apply (load_all_seissol_receivers_from_dir_listing_order
           demo_listdir (fun _ => Ok ["readme"; "run-receiver-00001.dat"])
           demo_rows "obs/"
           ["run-receiver-00001.dat"; "readme"]
           ["readme"; "run-receiver-00001.dat"]).
  - reflexivity.
  - reflexivity.
  - apply perm_swap.
Defined.

(** A receiver file that cannot be loaded is not skipped: the whole
    directory fails to load. *)
Theorem load_all_seissol_receivers_from_dir_bad_file
  (listdir : string -> result (list string))
  (loadtxt_rows : string -> result (list (list float)))
  (path : string) (files : list string) (name : string) (final_ind : Z)
  (e : exn) (msgs : list message) :
  listdir path = Ok files ->
  In name files ->
  check_if_seissol_surface_receiver_file name = true ->
  load_seissol_surface_receiver loadtxt_rows (path ++ name)%string final_ind
  = Raise e ->
  exists e',
    load_all_seissol_receivers_from_dir listdir loadtxt_rows path final_ind msgs
    = (Raise e', msgs).
Proof.
  intros Hls Hin Hrec Hbad. rewrite load_all_value, Hls. cbn [bind].
  destruct (loads_loop_raises
              (fun i => load_seissol_surface_receiver loadtxt_rows
                          (path ++ i)%string final_ind)
              (list_sort (filter check_if_seissol_surface_receiver_file files))
              name e) with (acc := @nil (list (list float))) as (e' & E).
  - apply list_sort_In, filter_In. split; assumption.
  - exact Hbad.
  - exists e'. rewrite E. reflexivity.
Qed.

Lemma load_all_seissol_receivers_from_dir_bad_file_witness :
  exists e',
    load_all_seissol_receivers_from_dir demo_listdir single_row_file "obs/"
      (-1) []
    = (Raise e', []).
Proof.
  apply (load_all_seissol_receivers_from_dir_bad_file demo_listdir
           single_row_file "obs/" ["run-receiver-00001.dat"; "readme"]
           "run-receiver-00001.dat" (-1) IndexError []).
  - reflexivity.
  - left; reflexivity.
  - reflexivity.
  - reflexivity.
Defined.

(* ================================================================= *)
(** ** More on the receiver file loader *)

Lemma py_slice_to_kept {A : Type} (a : list A) (stop : Z) :
  length (py_slice_to a stop) = kept stop (length a).
Proof.
  unfold py_slice_to, kept. rewrite length_firstn.
  destruct (Z.ltb_spec stop 0); lia.
Qed.

Lemma pick_columns_short (row : list float) :
  (length row < 10)%nat -> pick_columns row = Raise ValueError.
Proof.
  intros H.
  destruct row as [|x0 [|x1 [|x2 [|x3 [|x4 [|x5 [|x6 [|x7 [|x8 [|x9 row]]]]]]]]]];
    try reflexivity.
  simpl in H. lia.
Qed.

Lemma pick_columns_outcome (row : list float) :
  pick_columns row = Raise ValueError \/
  pick_columns row = Ok (map (fun c => nth c row 0) usecols).
Proof.
  destruct (Nat.lt_ge_cases (length row) 10) as [H|H].
  - left. apply pick_columns_short, H.
  - right. apply pick_columns_value, H.
Qed.

Lemma table_loop_short (rows : list (list float)) :
  Exists (fun row => (length row < 10)%nat) rows ->
  forall table,
    for_each rows
      (fun row table => picked <- pick_columns row ;; Ok (table ++ [picked]))
      table
    = Raise ValueError.
Proof.
  induction 1 as [row rows Hrow|row rows _ IH]; intros table; simpl.
  - rewrite pick_columns_short by exact Hrow. reflexivity.
  - destruct (pick_columns_outcome row) as [-> | ->]; cbn [bind];
      [reflexivity | apply IH].
Qed.

(** A data row with fewer than ten columns makes the loader fail with a
    [ValueError], wherever the row stands in the file and whatever
    [final_ind] is. *)
Theorem load_seissol_surface_receiver_short_row
  (loadtxt_rows : string -> result (list (list float)))
  (filename : string) (rows : list (list float)) (final_ind : Z) :
  loadtxt_rows filename = Ok rows ->
  Exists (fun row => (length row < 10)%nat) rows ->
  load_seissol_surface_receiver loadtxt_rows filename final_ind
  = Raise ValueError.
Proof.
  intros Hfile Hshort. unfold load_seissol_surface_receiver, np_loadtxt.
  rewrite Hfile. cbn [bind]. rewrite table_loop_short by exact Hshort.
  reflexivity.
Qed.

Lemma load_seissol_surface_receiver_short_row_witness :
  load_seissol_surface_receiver
    (fun _ => Ok [receiver_row 0 1 2 3; [1; 2; 3]%float]) "run-receiver-00001.dat" 5
  = Raise ValueError.
Proof.
  apply (load_seissol_surface_receiver_short_row
           (fun _ => Ok [receiver_row 0 1 2 3; [1; 2; 3]%float])
           "run-receiver-00001.dat" [receiver_row 0 1 2 3; [1; 2; 3]%float] 5).
  - reflexivity.
  - right. left. simpl. lia.
Defined.

Lemma table_loop_length (rows : list (list float)) :
  forall acc res,
    for_each rows
      (fun row table => picked <- pick_columns row ;; Ok (table ++ [picked]))
      acc = Ok res ->
    length res = (length acc + length rows)%nat.
Proof.
  induction rows as [|row rows IH]; intros acc res H; simpl in H.
  - injection H as <-. simpl. lia.
  - destruct (pick_columns row); [|discriminate]. cbn [bind] in H.
    apply IH in H. rewrite H, length_app. simpl. lia.
Qed.

(** What the loader returns is always four rows of one length: the
    number of samples the slice keeps of the timesteps of the file. *)
Lemma load_seissol_surface_receiver_rows
  (loadtxt_rows : string -> result (list (list float)))
  (filename : string) (final_ind : Z) (data : list (list float)) :
  load_seissol_surface_receiver loadtxt_rows filename final_ind = Ok data ->
  exists rows,
    loadtxt_rows filename = Ok rows /\
    length rows <> 1%nat /\
    has_shape2 data 4 (kept final_ind (length rows)).
Proof.
  unfold load_seissol_surface_receiver, np_loadtxt. intros H.
  destruct (loadtxt_rows filename) as [rows|e]; [|discriminate].
  cbn [bind] in H. exists rows. split; [reflexivity|].
  destruct (for_each rows _ []) as [table|e] eqn:Et; [|discriminate].
  cbn [bind] in H.
  assert (Hlen : length table = length rows).
  { apply table_loop_length in Et. simpl in Et. exact Et. }
  destruct (Nat.eq_dec (length table) 1) as [H1|H1].
  - destruct table as [|r1 [|r2 table]]; try discriminate H1. discriminate H.
  - assert (Hsq : squeeze table = Arr2 table)
      by (destruct table as [|r1 [|r2 table]]; [reflexivity | | reflexivity];
          simpl in H1; congruence).
    rewrite Hsq in H. cbn [transpose slice_columns_to] in H.
    injection H as <-. rewrite <- Hlen.
    split; [exact H1|]. split; [reflexivity|].
    repeat constructor; rewrite py_slice_to_kept, length_map; reflexivity.
Qed.

(** A negative [final_ind] counts from the end: of a file of [N <> 1]
    parseable timesteps the loader keeps the first [N + final_ind] samples
    (none when that is not positive), and the first [min(final_ind, N)] for
    a [final_ind] that is not negative; [final_ind = 0] leaves traces
    without a sample. *)
Theorem load_seissol_surface_receiver_any_final_ind
  (loadtxt_rows : string -> result (list (list float)))
  (filename : string) (rows : list (list float)) (final_ind : Z) :
  loadtxt_rows filename = Ok rows ->
  Forall (fun row => (10 <= length row)%nat) rows ->
  length rows <> 1%nat ->
  exists data,
    load_seissol_surface_receiver loadtxt_rows filename final_ind = Ok data /\
    has_shape2 data 4 (kept final_ind (length rows)) /\
    ((final_ind < 0)%Z ->
       Z.of_nat (kept final_ind (length rows))
       = Z.max 0 (Z.of_nat (length rows) + final_ind)) /\
    ((0 <= final_ind)%Z ->
       Z.of_nat (kept final_ind (length rows))
       = Z.min final_ind (Z.of_nat (length rows))) /\
    (forall c t, (c < 4)%nat -> (t < kept final_ind (length rows))%nat ->
       sample (nth c data []) t = sample (nth t rows []) (nth c usecols O)).
Proof.
  intros Hfile Hcols Hn.
  assert (Hload : exists data,
            load_seissol_surface_receiver loadtxt_rows filename final_ind
            = Ok data /\
            data = map (fun row => py_slice_to row final_ind)
                     (map (fun j => map (fun row : list float => nth j row 0)
                                      (map (fun row => map (fun c => nth c row 0)
                                                         usecols) rows))
                          (range (length usecols)))).
  { unfold load_seissol_surface_receiver, np_loadtxt. rewrite Hfile. cbn [bind].
    rewrite table_loop by exact Hcols. cbn [bind app].
    destruct rows as [|r1 [|r2 rows]]; [|simpl in Hn; congruence|];
      eexists; split; reflexivity. }
  destruct Hload as (data & E & Hdata). exists data.
  split; [exact E|].
  destruct (load_seissol_surface_receiver_rows _ _ _ _ E) as (rows' & E' & _ & Hshape).
  rewrite Hfile in E'. injection E' as <-.
  split; [exact Hshape|]. split; [|split].
  - intros Hneg. unfold kept. destruct (Z.ltb_spec final_ind 0); lia.
  - intros Hpos. unfold kept. destruct (Z.ltb_spec final_ind 0); lia.
  - intros c t Hc Ht. subst data. unfold sample.
    set (table := map (fun row => map (fun c => nth c row 0) usecols) rows).
    assert (Htn : (t < length rows)%nat).
    { revert Ht. unfold kept. destruct (final_ind <? 0)%Z; lia. }
    assert (Hrow : forall j, (j < 4)%nat ->
              nth t (py_slice_to (map (fun row : list float => nth j row 0) table)
                                 final_ind) 0
              = nth (nth j usecols O) (nth t rows []) 0).
    { intros j Hj. rewrite py_slice_to_nth
        by (rewrite py_slice_to_kept; unfold table; rewrite !length_map;
            exact Ht).
      rewrite (nth_indep _ 0 ((fun row : list float => nth j row 0) []))
        by (unfold table; rewrite !length_map; exact Htn).
      rewrite (map_nth (fun row : list float => nth j row 0)).
      unfold table.
      rewrite (nth_indep _ [] ((fun row => map (fun c => nth c row 0) usecols) []))
        by (rewrite length_map; exact Htn).
      rewrite (map_nth (fun row => map (fun c => nth c row 0) usecols)).
      rewrite (nth_indep _ 0 ((fun c => nth c (nth t rows []) 0) O))
        by (rewrite length_map; exact Hj).
      rewrite (map_nth (fun c => nth c (nth t rows []) 0)). reflexivity. }
    destruct c as [|[|[|[|c]]]]; try lia; apply Hrow; lia.
Qed.

Lemma load_seissol_surface_receiver_any_final_ind_witness :
  exists data,
    load_seissol_surface_receiver demo_rows "run-receiver-00001.dat" (-2)
    = Ok data /\
    has_shape2 data 4 (kept (-2) (length three_rows)) /\
    ((-2 < 0)%Z ->
       Z.of_nat (kept (-2) (length three_rows))
       = Z.max 0 (Z.of_nat (length three_rows) + -2)) /\
    ((0 <= -2)%Z ->
       Z.of_nat (kept (-2) (length three_rows))
       = Z.min (-2) (Z.of_nat (length three_rows))) /\
    (forall c t, (c < 4)%nat -> (t < kept (-2) (length three_rows))%nat ->
       sample (nth c data []) t = sample (nth t three_rows []) (nth c usecols O)).
Proof.
  apply (load_seissol_surface_receiver_any_final_ind
           demo_rows "run-receiver-00001.dat" three_rows (-2)).
  - reflexivity.
  - repeat constructor; simpl; lia.
  - simpl; lia.
Defined.

Lemma load_all_shape
  (listdir : string -> result (list string))
  (loadtxt_rows : string -> result (list (list float)))
  (path : string) (final_ind : Z) (msgs : list message)
  (data : list (list (list float))) :
  fst (load_all_seissol_receivers_from_dir listdir loadtxt_rows path
         final_ind msgs) = Ok data ->
  exists ndt, has_shape3 data (length data) 4 ndt.
Proof.
  rewrite load_all_value. cbn [fst]. intros H.
  destruct (listdir path) as [files|e]; [|discriminate]. cbn [bind] in H.
  destruct (for_each _ _ []) as [loaded|e] eqn:E; [|discriminate].
  cbn [bind] in H. apply np_array_ok in H. destruct H as (-> & Hsame).
  apply (loads_loop (fun i => load_seissol_surface_receiver loadtxt_rows
                                (path ++ i)%string final_ind)) in E.
  destruct E as (ds & -> & Hall). cbn [app] in *.
  assert (Hrows : Forall (fun d => exists k, has_shape2 d 4 k) ds).
  { clear Hsame. induction Hall as [|name d names ds Hd _ IH]; constructor.
    - destruct (load_seissol_surface_receiver_rows _ _ _ _ Hd)
        as (rows & _ & _ & Hs).
      eexists. exact Hs.
    - exact IH. }
  destruct ds as [|a rest]; [exists O; split; [reflexivity | constructor]|].
  inversion Hrows as [|? ? (k & Ha) Hrest]; subst.
  exists k. split; [reflexivity|].
  assert (Hk : snd (shape2 a) = k).
  { destruct Ha as (Hlen & Hr). destruct a as [|r a]; [discriminate|].
    inversion Hr; subst. reflexivity. }
  constructor; [exact Ha|].
  apply Forall_forall. intros b Hb.
  rewrite Forall_forall in Hsame, Hrest.
  destruct (Hrest b Hb) as (kb & Hlenb & Hrb).
  specialize (Hsame b Hb).
  assert (kb = k).
  { rewrite <- Hk, <- Hsame. destruct b as [|r b]; [discriminate|].
    inversion Hrb; subst. reflexivity. }
  subst kb. split; assumption.
Qed.

(** What a directory loads to is a regular array: every station has four
    rows, and all rows of all stations have one length. *)
Theorem load_all_seissol_receivers_from_dir_shape
  (listdir : string -> result (list string))
  (loadtxt_rows : string -> result (list (list float)))
  (path : string) (final_ind : Z) (msgs : list message)
  (data : list (list (list float))) :
  fst (load_all_seissol_receivers_from_dir listdir loadtxt_rows path
         final_ind msgs) = Ok data ->
  exists ndt, has_shape3 data (length data) 4 ndt.
Proof. apply load_all_shape. Qed.

Lemma load_all_seissol_receivers_from_dir_shape_witness :
  exists ndt, has_shape3 demo_observations (length demo_observations) 4 ndt.
Proof.
  apply (load_all_seissol_receivers_from_dir_shape demo_listdir demo_rows
           "obs/" (-1) [] demo_observations).
  reflexivity.
Defined.

(* ================================================================= *)
(** ** More on the loading of the ensemble and of the script *)

Lemma load_all_output_independent
  (listdir : string -> result (list string))
  (loadtxt_rows : string -> result (list (list float)))
  (path : string) (final_ind : Z) (msgs : list message) :
  load_all_seissol_receivers_from_dir listdir loadtxt_rows path final_ind msgs
  = (fst (load_all_seissol_receivers_from_dir listdir loadtxt_rows path
            final_ind []),
     msgs).
Proof. rewrite !load_all_value. reflexivity. Qed.

Lemma models_loop
  (listdir : string -> result (list string))
  (loadtxt_rows : string -> result (list (list float)))
  (path : string) (final_ind : Z) (dirs : list string) :
  forall acc msgs,
    for_io dirs
      (fun i data =>
         d <~ load_all_seissol_receivers_from_dir listdir loadtxt_rows
                (path ++ i ++ "/")%string final_ind ;;
         ret (data ++ [d]))
      acc msgs
    = (for_each dirs
         (fun i data =>
            d <- fst (load_all_seissol_receivers_from_dir listdir loadtxt_rows
                        (path ++ i ++ "/")%string final_ind []) ;;
            Ok (data ++ [d]))
         acc,
       msgs).
Proof.
  induction dirs as [|i dirs IH]; intros acc msgs; [reflexivity|].
  cbn [for_io for_each]. unfold bind_io at 1. unfold bind_io at 1.
  rewrite load_all_output_independent.
  destruct (fst (load_all_seissol_receivers_from_dir listdir loadtxt_rows
                   (path ++ i ++ "/")%string final_ind [])) as [d|e];
    cbn [bind]; [|reflexivity].
  unfold ret. apply IH.
Qed.

Lemma np_array_of_models_ok (data res : list (list (list (list float)))) :
  np_array_of_models data = Ok res -> res = data.
Proof.
  unfold np_array_of_models. destruct data as [|a rest].
  - intros H. injection H as <-. reflexivity.
  - destruct (forallb (same_shape3 a) rest); [|discriminate].
    intros H. injection H as <-. reflexivity.
Qed.

Lemma load_ensemble_value
  (listdir : string -> result (list string)) (xdmf_readable : string -> bool)
  (loadtxt_rows : string -> result (list (list float)))
  (path : string) (final_ind : Z) (msgs : list message) :
  load_ensemble_waveforms listdir xdmf_readable loadtxt_rows path final_ind msgs
  = match collect_seissol_dirs listdir xdmf_readable path msgs with
    | (Ok dirs, m1) =>
        (data <- for_each dirs
                   (fun i data =>
                      d <- fst (load_all_seissol_receivers_from_dir listdir
                                  loadtxt_rows (path ++ i ++ "/")%string
                                  final_ind []) ;;
                      Ok (data ++ [d]))
                   [] ;;
         stacked <- np_array_of_models data ;;
         Ok (stacked, dirs),
         m1 ++ [ReadingFrom dirs])
    | (Raise e, m1) => (Raise e, m1)
    end.
Proof.
  unfold load_ensemble_waveforms. unfold bind_io at 1.
  destruct (collect_seissol_dirs listdir xdmf_readable path msgs)
    as [[dirs|e] m1]; [|reflexivity].
  unfold bind_io at 1, print. unfold bind_io at 1.
  rewrite models_loop.
  destruct (for_each dirs _ []) as [data|e]; [|reflexivity].
  unfold bind_io, lift, ret. cbn [bind].
  destruct (np_array_of_models data); reflexivity.
Qed.

(** What the ensemble loads to: the names are those the collector returns,
    in its order; there is one model per name, loaded from the directory of
    that name with the same [final_ind]; and the list of the names is
    printed after the diagnostics of the collector. *)
Theorem load_ensemble_waveforms_content
  (listdir : string -> result (list string)) (xdmf_readable : string -> bool)
  (loadtxt_rows : string -> result (list (list float)))
  (path : string) (final_ind : Z) (msgs : list message)
  (syn_data : list (list (list (list float)))) (names : list string) :
  fst (load_ensemble_waveforms listdir xdmf_readable loadtxt_rows path
         final_ind msgs) = Ok (syn_data, names) ->
  fst (collect_seissol_dirs listdir xdmf_readable path msgs) = Ok names /\
  Forall2 (fun name model =>
             fst (load_all_seissol_receivers_from_dir listdir loadtxt_rows
                    (path ++ name ++ "/")%string final_ind []) = Ok model)
          names syn_data /\
  snd (load_ensemble_waveforms listdir xdmf_readable loadtxt_rows path
         final_ind msgs)
  = snd (collect_seissol_dirs listdir xdmf_readable path msgs)
    ++ [ReadingFrom names].
Proof.
  rewrite load_ensemble_value.
  destruct (collect_seissol_dirs listdir xdmf_readable path msgs)
    as [[dirs|e] m1]; [|discriminate].
  cbn [fst snd].
  destruct (for_each dirs _ []) as [data|e] eqn:E; [|discriminate].
  cbn [bind].
  destruct (np_array_of_models data) as [stacked|e] eqn:Es; [|discriminate].
  cbn [bind]. intros H. injection H as -> ->.
  apply np_array_of_models_ok in Es. subst syn_data.
  split; [reflexivity|]. split; [|reflexivity].
  apply (loads_loop
           (fun i => fst (load_all_seissol_receivers_from_dir listdir
                            loadtxt_rows (path ++ i ++ "/")%string
                            final_ind []))) in E.
  destruct E as (ds & -> & Hall). exact Hall.
Qed.

Lemma load_ensemble_waveforms_content_witness :
  fst (collect_seissol_dirs demo_listdir demo_xdmf "ens/" []) = Ok ["m1"; "m2"] /\
  Forall2 (fun name model =>
             fst (load_all_seissol_receivers_from_dir demo_listdir demo_rows
                    ("ens/" ++ name ++ "/")%string 1 []) = Ok model)
          ["m1"; "m2"] demo_synthetics /\
  snd (load_ensemble_waveforms demo_listdir demo_xdmf demo_rows "ens/" 1 [])
  = snd (collect_seissol_dirs demo_listdir demo_xdmf "ens/" [])
    ++ [ReadingFrom ["m1"; "m2"]].
Proof.
  apply (load_ensemble_waveforms_content demo_listdir demo_xdmf demo_rows
           "ens/" 1 [] demo_synthetics ["m1"; "m2"]).
  reflexivity.
Defined.

Lemma filter_none {A : Type} (f : A -> bool) (l : list A) :
  (forall x, In x l -> f x = false) -> filter f l = [].
Proof.
  induction l as [|x l IH]; intros H; [reflexivity|]. simpl.
  rewrite (H x) by (left; reflexivity). apply IH.
  intros y Hy. apply H. right. exact Hy.
Qed.

(** A directory of observations without a receiver file is not reported
    as such: the script prints that the observations contain 0 stations
    and then fails with an [IndexError] on the timestep count. *)
Theorem script_load_without_observed_receiver
  (listdir : string -> result (list string)) (xdmf_readable : string -> bool)
  (loadtxt_rows : string -> result (list (list float)))
  (args : arguments) (files : list string) (msgs : list message) :
  listdir (obs_path args) = Ok files ->
  (forall f, In f files -> check_if_seissol_surface_receiver_file f = false) ->
  script_load listdir xdmf_readable loadtxt_rows args msgs
  = (Raise IndexError, msgs ++ [ObservationStations 0]).
Proof.
  intros Hls Hnone. unfold script_load, load_observations.
  unfold bind_io at 1. rewrite load_all_value, Hls. cbn [bind].
  rewrite (filter_none _ _ Hnone). reflexivity.
Qed.

Lemma script_load_without_observed_receiver_witness :
  script_load metadata_only demo_xdmf demo_rows demo_arguments []
  = (Raise IndexError, [] ++ [ObservationStations 0]).
Proof.
  apply (script_load_without_observed_receiver metadata_only demo_xdmf
           demo_rows demo_arguments ["run-surface.xdmf"; "run.log"] []).
  - reflexivity.
  - intros f [<-|[<-|[]]]; reflexivity.
Defined.

(** An ensemble root without any accepted directory is not reported as
    such either: once the observations are loaded, the script fails with an
    [IndexError] on the station count of the synthetics. *)
Theorem script_load_without_model
  (listdir : string -> result (list string)) (xdmf_readable : string -> bool)
  (loadtxt_rows : string -> result (list (list float)))
  (args : arguments) (entries : list string) (msgs : list message)
  (station : list (list float)) (stations : list (list (list float)))
  (f : Z) (more : list Z) :
  fst (load_observations listdir loadtxt_rows (obs_path args) msgs)
  = Ok (station :: stations) ->
  final_ind args = f :: more ->
  listdir (ensemble_dir args) = Ok entries ->
  (forall i, In i entries ->
     accepted listdir xdmf_readable (ensemble_dir args) i = false) ->
  fst (script_load listdir xdmf_readable loadtxt_rows args msgs)
  = Raise IndexError.
Proof.
  intros Hobs Hf Hls Hnone. unfold script_load.
  unfold bind_io at 1.
  destruct (load_observations listdir loadtxt_rows (obs_path args) msgs)
    as [[obs|e] m1]; cbn [fst] in Hobs; [|discriminate].
  injection Hobs as ->.
  unfold bind_io at 1, print. unfold bind_io at 1, lift.
  cbn [obs_timesteps]. unfold bind_io at 1. unfold bind_io at 1.
  rewrite Hf. cbn [index1 nth_error].
  unfold bind_io at 1. rewrite load_ensemble_value.
  pose proof (collect_seissol_dirs_value listdir xdmf_readable
                (ensemble_dir args)
                ((m1 ++ [ObservationStations (length (station :: stations))])
                   ++ [ObservationTimesteps (ndt_of station)])) as Hc.
  rewrite Hls, (filter_none _ _ Hnone) in Hc. cbn [list_sort fold_right] in Hc.
  destruct (collect_seissol_dirs listdir xdmf_readable (ensemble_dir args) _)
    as [[dirs|e] m2]; cbn [fst] in Hc; [|discriminate].
  injection Hc as ->. reflexivity.
Qed.

Lemma script_load_without_model_witness :
  fst (script_load stray_ensemble demo_xdmf demo_rows demo_arguments [])
  = Raise IndexError.
Proof.
  apply (script_load_without_model stray_ensemble demo_xdmf demo_rows
           demo_arguments ["notes.txt"; "old"] []
           [[0; 1]; [1; 4]; [2; 5]; [3; 6]]%float [] 1%Z []).
  - reflexivity.
  - reflexivity.
  - reflexivity.
  - intros i [<-|[<-|[]]]; reflexivity.
Defined.

(** *** What the script passes on *)

Lemma script_load_inv
  (listdir : string -> result (list string)) (xdmf_readable : string -> bool)
  (loadtxt_rows : string -> result (list (list float)))
  (args : arguments) (msgs : list message)
  (obs_data : list (list (list float))) (syn_data : list (list (list (list float))))
  (names : list string) :
  fst (script_load listdir xdmf_readable loadtxt_rows args msgs)
  = Ok (obs_data, syn_data, names) ->
  fst (load_all_seissol_receivers_from_dir listdir loadtxt_rows
         (obs_path args) (-1) msgs) = Ok obs_data /\
  obs_data <> [] /\
  (exists f msgs',
     fst (load_ensemble_waveforms listdir xdmf_readable loadtxt_rows
            (ensemble_dir args) f msgs') = Ok (syn_data, names)) /\
  (exists station model models, syn_data = (station :: model) :: models).
Proof.
  intros H. unfold script_load, load_observations in H.
  unfold bind_io at 1 in H.
  destruct (load_all_seissol_receivers_from_dir listdir loadtxt_rows
              (obs_path args) (-1) msgs) as [[obs|e] m1]; [|discriminate].
  unfold bind_io at 1, print in H.
  unfold bind_io at 1, lift in H.
  destruct (obs_timesteps obs) as [ndt|e] eqn:Eo; [|discriminate].
  unfold bind_io at 1 in H.
  unfold bind_io at 1 in H.
  destruct (index1 (final_ind args) 0) as [f|e]; [|discriminate].
  unfold bind_io at 1 in H.
  destruct (load_ensemble_waveforms listdir xdmf_readable loadtxt_rows
              (ensemble_dir args) f
              ((m1 ++ [ObservationStations (length obs)])
                 ++ [ObservationTimesteps ndt]))
    as [[[syn dirs]|e] m2] eqn:Hens; [|discriminate].
  unfold bind_io at 1 in H.
  destruct (syn_stations syn) as [st|e]; [|discriminate].
  unfold bind_io at 1 in H. unfold bind_io at 1 in H.
  destruct (syn_timesteps syn) as [ndt'|e] eqn:Es; [|discriminate].
  unfold bind_io, ret in H. cbn [fst] in H.
  injection H as -> -> ->.
  split; [reflexivity|]. split; [|split].
  - intros ->. discriminate Eo.
  - exists f, ((m1 ++ [ObservationStations (length obs_data)])
                 ++ [ObservationTimesteps ndt]).
    rewrite Hens. reflexivity.
  - destruct syn_data as [|[|station model] models]; try discriminate Es.
    exists station, model, models. reflexivity.
Qed.

Lemma loaded_all {D : Type} (load : string -> result D) (P : D -> Prop)
  (names : list string) (ds : list D) :
  Forall2 (fun name d => load name = Ok d) names ds ->
  (forall name d, load name = Ok d -> P d) ->
  Forall P ds.
Proof.
  intros Hall HP. induction Hall as [|name d ns ds' Hd _ IH]; constructor.
  - apply (HP name d Hd).
  - exact IH.
Qed.

Lemma models_shape (a b : list (list (list float))) (ka kb : nat) :
  has_shape3 a (length a) 4 ka -> has_shape3 b (length b) 4 kb ->
  (1 <= length a)%nat -> shape3 b = shape3 a ->
  has_shape3 b (length a) 4 ka.
Proof.
  intros (_ & Ha) (_ & Hb) Hpos E.
  destruct a as [|sa a]; [simpl in Hpos; lia|].
  destruct b as [|sb b]; [discriminate E|].
  unfold shape3 in E. injection E as Elen Er Ec.
  inversion Ha as [|? ? (Hsa4 & Hsa) _]; subst.
  inversion Hb as [|? ? (Hsb4 & Hsb) _]; subst.
  assert (kb = ka).
  { destruct sa as [|ra sa]; [discriminate|].
    destruct sb as [|rb sb]; [discriminate|].
    inversion Hsa; inversion Hsb; subst. exact Ec. }
  subst kb. split; [simpl; lia | exact Hb].
Qed.

(** What the script holds after loading is regular: at least one observed
    station, at least one model with at least one station, all models of
    one shape, one name per model, the names ascending.  Nothing makes the
    synthetic station count or timestep count agree with the observed
    ones. *)
Theorem script_load_shapes
  (listdir : string -> result (list string)) (xdmf_readable : string -> bool)
  (loadtxt_rows : string -> result (list (list float)))
  (args : arguments) (msgs : list message)
  (obs_data : list (list (list float))) (syn_data : list (list (list (list float))))
  (names : list string) :
  fst (script_load listdir xdmf_readable loadtxt_rows args msgs)
  = Ok (obs_data, syn_data, names) ->
  exists s n s' m,
    (1 <= s)%nat /\ has_shape3 obs_data s 4 n /\
    (1 <= s')%nat /\ Forall (fun model => has_shape3 model s' 4 m) syn_data /\
    length syn_data = length names /\ (1 <= length names)%nat /\
    ascending names.
Proof.
  intros H. apply script_load_inv in H.
  destruct H as (Hobs & Hne & (f & msgs' & Hens) & (station & model & models & ->)).
  destruct (load_all_shape _ _ _ _ _ _ Hobs) as (n & Hshape).
  rewrite load_ensemble_value in Hens.
  pose proof (collect_seissol_dirs_value listdir xdmf_readable
                (ensemble_dir args) msgs') as Hc.
  destruct (collect_seissol_dirs listdir xdmf_readable (ensemble_dir args) msgs')
    as [[dirs|e] m1]; [|discriminate].
  cbn [fst] in Hens, Hc.
  destruct (for_each dirs _ []) as [data|e] eqn:E; [|discriminate].
  cbn [bind] in Hens.
  destruct (np_array_of_models data) as [stacked|e] eqn:Es; [|discriminate].
  cbn [bind] in Hens. injection Hens as -> ->.
  apply (loads_loop
           (fun i => fst (load_all_seissol_receivers_from_dir listdir
                            loadtxt_rows (ensemble_dir args ++ i ++ "/")%string
                            f []))) in E.
  destruct E as (ds & -> & Hall). cbn [app] in *.
  assert (Hreg : Forall (fun d => exists k, has_shape3 d (length d) 4 k) ds).
  { apply (loaded_all _ _ _ _ Hall). intros name d Hd.
    apply (load_all_shape _ _ _ _ _ _ Hd). }
  unfold np_array_of_models in Es.
  destruct ds as [|a rest]; [discriminate Es|].
  destruct (forallb (same_shape3 a) rest) eqn:Esame; [|discriminate].
  injection Es as Ea Erest. subst a rest.
  inversion Hreg as [|? ? (m & Hfirst) Hrest]; subst.
  exists (length obs_data), n, (length (station :: model)), m.
  split; [destruct obs_data; [congruence | simpl; lia]|].
  split; [exact Hshape|].
  split; [simpl; lia|].
  split; [|split; [|split]].
  - constructor; [exact Hfirst|].
    apply Forall_forall. intros b Hb.
    rewrite Forall_forall in Hrest. destruct (Hrest b Hb) as (kb & Hbshape).
    rewrite forallb_forall in Esame. specialize (Esame b Hb).
    apply (models_shape _ b m kb Hfirst Hbshape); [simpl; lia|].
    unfold same_shape3 in Esame.
    apply andb_true_iff in Esame. destruct Esame as (E12 & E3).
    apply andb_true_iff in E12. destruct E12 as (E1 & E2).
    apply Nat.eqb_eq in E1, E2, E3.
    destruct (shape3 (station :: model)) as (x1 & x2 & x3).
    destruct (shape3 b) as (y1 & y2 & y3). simpl in *. congruence.
  - symmetry. apply (Forall2_length Hall).
  - apply Forall2_length in Hall. simpl in *. lia.
  - destruct (listdir (ensemble_dir args)); [|discriminate].
    injection Hc as ->. apply list_sort_ascending.
Qed.

Lemma script_load_shapes_witness :
  exists s n s' m,
    (1 <= s)%nat /\ has_shape3 demo_observations s 4 n /\
    (1 <= s')%nat /\
    Forall (fun model => has_shape3 model s' 4 m) demo_synthetics /\
    length demo_synthetics = length ["m1"; "m2"] /\
    (1 <= length ["m1"; "m2"])%nat /\
    ascending ["m1"; "m2"].
Proof.
  apply (script_load_shapes demo_listdir demo_xdmf demo_rows demo_arguments []).
  reflexivity.
Defined.
